(** * PayrollSystem.cpp: a shallow embedding and its verified properties

    The program keeps a small in-memory ledger: a registry of employees
    (each with a map month -> hours), the set and the ordered list of the
    processed months, and a buffer of errors flushed to errors.txt.

    Data is modelled as the code has it:
    - [double] is IEEE-754 binary64, Rocq's primitive [float]; every
      arithmetic operation rounds to binary64 (no extended precision, no
      fused multiply-add);
    - [std::map<string, V>] is an association list kept in ascending key
      order (the order in which the code iterates over it);
    - [std::set<string>] is an ascending list of keys;
    - [std::vector] is a list;
    - text files are given as the sequence of their lines, each line as
      what the stream extraction [iss >> ...] yields for it, and a file
      that cannot be opened as [None];
    - the answers typed at the prompts are arguments of the functions
      that ask for them;
    - [std::sort] is any function that meets its contract. *)

From Stdlib Require Import Floats String Ascii List ZArith Bool Lia.
From Stdlib Require Import Permutation Sorted OrderedTypeEx.
Import ListNotations.

Set Warnings "-inexact-float".

(** ** Configuration namespaces *)

Module Payroll.
Definition TAX_FREE_ALLOWANCE : float := 12570.0%float.
Definition TAX_RATE : float := 0.20%float.
Definition MONTHS_IN_YEAR : Z := 12.
Definition SORT_HOURLY_RATE : Z := 1.
Definition SORT_HOURS_WORKED : Z := 2.
Definition SORT_NET_PAY : Z := 3.
End Payroll.

Module FileExt.
Definition TXT : string := ".txt".
End FileExt.

Module Inputs.
Definition YES : ascii := "y"%char.
Definition NO : ascii := "n"%char.
End Inputs.

(** The implicit conversion [int -> double] of the C++ arithmetic. *)
Definition double_of_int (n : Z) : float :=
  if (n <? 0)%Z
  then PrimFloat.opp (PrimFloat.of_uint63 (Uint63.of_Z (- n)))
  else PrimFloat.of_uint63 (Uint63.of_Z n).

(** ** Utility functions *)

(** Membership in the character set [" \t\r\n"]. *)
Definition is_trim_char (c : ascii) : bool :=
  (c =? " ")%char || (c =? "009")%char || (c =? "013")%char || (c =? "010")%char.

(** [s.find_first_not_of(" \t\r\n")]; [None] is [string::npos]. *)
Fixpoint find_first_not_of (s : string) : option nat :=
  match s with
  | EmptyString => None
  | String c r =>
      if is_trim_char c then option_map S (find_first_not_of r) else Some 0
  end.

(** [s.find_last_not_of(" \t\r\n")]. *)
Fixpoint find_last_not_of (s : string) : option nat :=
  match s with
  | EmptyString => None
  | String c r =>
      match find_last_not_of r with
      | Some i => Some (S i)
      | None => if is_trim_char c then None else Some 0
      end
  end.

Definition trim (s : string) : string :=
  match find_first_not_of s, find_last_not_of s with
  | Some start, Some end_ => substring start (end_ - start + 1) s
  | _, _ => EmptyString
  end.

(** [::toupper] in the "C" locale: only a-z change. *)
Definition toupper (c : ascii) : ascii :=
  if (("a" <=? c) && (c <=? "z"))%char
  then ascii_of_nat (nat_of_ascii c - 32)
  else c.

Fixpoint transform (f : ascii -> ascii) (s : string) : string :=
  match s with
  | EmptyString => EmptyString
  | String c r => String (f c) (transform f r)
  end.

Definition toUpper (s : string) : string := transform toupper s.

(** [filename.substr(0, filename.find(".txt"))]: the whole name when the
    extension does not occur ([find] gives [npos]). *)
Definition month_of_filename (filename : string) : string :=
  match index 0 FileExt.TXT filename with
  | Some n => substring 0 n filename
  | None => filename
  end.

(** ** [std::map<string, V>] and [std::set<string>] *)

Module StdMap.
Definition t (V : Type) : Type := list (string * V).

Definition empty {V} : t V := [].

Fixpoint find {V} (k : string) (m : t V) : option V :=
  match m with
  | [] => None
  | (k', v) :: r => if (k =? k')%string then Some v else find k r
  end.

Definition count {V} (k : string) (m : t V) : bool :=
  match find k m with Some _ => true | None => false end.

(** [m[k] = v]: insert, or assign when the key is there. *)
Fixpoint insert {V} (k : string) (v : V) (m : t V) : t V :=
  match m with
  | [] => [(k, v)]
  | (k', v') :: r =>
      match (k ?= k')%string with
      | Lt => (k, v) :: m
      | Eq => (k, v) :: r
      | Gt => (k', v') :: insert k v r
      end
  end.

Definition erase {V} (k : string) (m : t V) : t V :=
  filter (fun p => negb (k =? fst p)%string) m.

Definition keys {V} (m : t V) : list string := map fst m.
Definition values {V} (m : t V) : list V := map snd m.
End StdMap.

Module StdSet.
Definition t : Type := list string.

Definition empty : t := [].

Definition count (k : string) (s : t) : bool :=
  existsb (fun k' => (k =? k')%string) s.

Fixpoint insert (k : string) (s : t) : t :=
  match s with
  | [] => [k]
  | k' :: r =>
      match (k ?= k')%string with
      | Lt => k :: s
      | Eq => s
      | Gt => k' :: insert k r
      end
  end.

Definition erase (k : string) (s : t) : t :=
  filter (fun k' => negb (k =? k')%string) s.
End StdSet.

(** ** class Employee *)

Record Employee : Type := mkEmployee {
  id : string;
  name : string;
  hourlyRate : float;
  hoursWorked : StdMap.t float
}.

(** [Employee(_id, _name, _rate)]: the hours map starts empty. *)
Definition newEmployee (_id _name : string) (_rate : float) : Employee :=
  mkEmployee _id _name _rate StdMap.empty.

Section PayCalculation.
Local Open Scope float_scope.

Definition getGrossPay (e : Employee) (month : string) : float :=
  match StdMap.find month (hoursWorked e) with
  | None => 0.0
  | Some h => hourlyRate e * h
  end.

Definition getTax (e : Employee) (month : string) : float :=
  let gross := getGrossPay e month in
  let annual := gross * double_of_int Payroll.MONTHS_IN_YEAR in
  let taxable := annual - Payroll.TAX_FREE_ALLOWANCE in
  let taxable := if taxable <? 0 then 0 else taxable in
  let annualTax := taxable * Payroll.TAX_RATE in
  annualTax / double_of_int Payroll.MONTHS_IN_YEAR.

Definition getNetPay (e : Employee) (month : string) : float :=
  getGrossPay e month - getTax e month.

(** The three totals: a running sum over the hours map in key order. *)
Definition getTotalGross (e : Employee) : float :=
  fold_left (fun total rec => total + getGrossPay e (fst rec))
            (hoursWorked e) 0.0.

Definition getTotalTax (e : Employee) : float :=
  fold_left (fun total rec => total + getTax e (fst rec))
            (hoursWorked e) 0.0.

Definition getTotalNet (e : Employee) : float :=
  fold_left (fun total rec => total + getNetPay e (fst rec))
            (hoursWorked e) 0.0.
End PayCalculation.

(** ** Notions on doubles used to state the properties *)

Section FloatNotions.
Local Open Scope float_scope.

(** [x] is [+0] or [-0]. *)
Definition is_a_zero (x : float) : Prop :=
  exists s, Prim2SF x = S754_zero s.

(** The two doubles denote the same number: they are identical, or they
    are two zeros (which may differ in sign). *)
Definition same_number (x y : float) : Prop :=
  x = y \/ (is_a_zero x /\ is_a_zero y).

(** [x] is not NaN. *)
Definition is_number (x : float) : Prop := Prim2SF x <> S754_nan.

(** [x] is a zero, a subnormal or a normal double: what the extraction
    [iss >> x] can store. *)
Definition finite_double (x : float) : Prop :=
  match Prim2SF x with
  | S754_zero _ | S754_finite _ _ _ => True
  | S754_infinity _ | S754_nan => False
  end.



(** [std::max(a, b)]: [(a < b) ? b : a]. *)
Definition std_max (a b : float) : float := if a <? b then b else a.

(** Clamping below: [if (x < lo) x = lo]. *)
Definition clamp_below (lo x : float) : float := if x <? lo then lo else x.
End FloatNotions.

(** ** class PayrollSystem: the ledger *)

Record PayrollSystem : Type := mkPayrollSystem {
  employees : StdMap.t Employee;
  loadedPayFiles : StdSet.t;
  processedMonths : list string;
  errors : list (string * string)
}.

(** [PayrollSystem() = default]: every container empty. *)
Definition newPayrollSystem : PayrollSystem :=
  mkPayrollSystem StdMap.empty StdSet.empty [] [].

Definition with_hoursWorked (e : Employee) (h : StdMap.t float) : Employee :=
  mkEmployee (id e) (name e) (hourlyRate e) h.

Definition with_employees (s : PayrollSystem) (m : StdMap.t Employee) :=
  mkPayrollSystem m (loadedPayFiles s) (processedMonths s) (errors s).

Definition with_loadedPayFiles (s : PayrollSystem) (l : StdSet.t) :=
  mkPayrollSystem (employees s) l (processedMonths s) (errors s).

Definition with_processedMonths (s : PayrollSystem) (p : list string) :=
  mkPayrollSystem (employees s) (loadedPayFiles s) p (errors s).

Definition with_errors (s : PayrollSystem) (e : list (string * string)) :=
  mkPayrollSystem (employees s) (loadedPayFiles s) (processedMonths s) e.

(** A line of employees.txt as [iss >> id >> name >> rate] reads it;
    [None] when the extraction fails (the line is skipped). *)
Definition RegistryLine : Type := option (string * string * float).

(** A line of a pay file as [iss >> id >> hours] reads it. *)
Definition PayLine : Type := option (string * float).

(** The body of the loop of [loadEmployees]. *)
Definition loadEmployees_line (s : PayrollSystem) (line : RegistryLine)
  : PayrollSystem :=
  match line with
  | None => s
  | Some (id0, name0, rate) =>
      let id1 := toUpper (trim id0) in
      let name1 := trim name0 in
      with_employees s
        (StdMap.insert id1 (newEmployee id1 name1 rate) (employees s))
  end.

(** [loadEmployees]: [fin] is the content of the file, [None] when it
    cannot be opened. *)
Definition loadEmployees (fin : option (list RegistryLine)) (s : PayrollSystem)
  : bool * PayrollSystem :=
  match fin with
  | None => (false, s)
  | Some lines => (true, fold_left loadEmployees_line lines s)
  end.

(** [logErrors]: the buffered errors are written to the stream opened
    on errors.txt in append mode and the buffer is cleared; the second
    component is what is written. *)
Definition logErrors (s : PayrollSystem)
  : PayrollSystem * list (string * string) :=
  match errors s with
  | [] => (s, [])
  | errs => (with_errors s [], errs)
  end.

(** [find] followed by [erase(it)]: the first occurrence goes. *)
Fixpoint erase_first (x : string) (l : list string) : list string :=
  match l with
  | [] => []
  | y :: r => if (y =? x)%string then r else y :: erase_first x r
  end.

Definition removePayRecordsForMonth (month : string) (s : PayrollSystem)
  : PayrollSystem :=
  let emps :=
    map (fun pair =>
           (fst pair,
            with_hoursWorked (snd pair)
              (StdMap.erase month (hoursWorked (snd pair)))))
        (employees s) in
  with_processedMonths (with_employees s emps)
    (erase_first month (processedMonths s)).

(** [employees[id].hoursWorked[upMonth] = hours] for an [id] that is
    present: the record is changed in place. *)
Definition set_hours (id1 upMonth : string) (hours : float)
  (emps : StdMap.t Employee) : StdMap.t Employee :=
  map (fun pair =>
         if (id1 =? fst pair)%string
         then (fst pair,
               with_hoursWorked (snd pair)
                 (StdMap.insert upMonth hours (hoursWorked (snd pair))))
         else pair)
      emps.

Definition invalid_id_message (id1 : string) : string :=
  (id1 ++ " is not a valid employee ID number.")%string.

Definition not_found_message (filename : string) : string :=
  ("Pay file " ++ filename ++ " could not be found.")%string.

(** The body of the loop of [loadPayFile]. *)
Definition loadPayFile_line (filename upMonth : string) (s : PayrollSystem)
  (line : PayLine) : PayrollSystem :=
  match line with
  | None => s
  | Some (id0, hours) =>
      let id1 := toUpper (trim id0) in
      if StdMap.count id1 (employees s)
      then with_employees s (set_hours id1 upMonth hours (employees s))
      else with_errors s (errors s ++ [(filename, invalid_id_message id1)])
  end.

(** What a call of [loadPayFile] yields: the returned flag, [outMonth],
    the ledger after the call and the entries written to errors.txt. *)
Record LoadResult : Type := mkLoadResult {
  returned : bool;
  outMonth : string;
  ledger : PayrollSystem;
  logged : list (string * string)
}.

(** [loadPayFile] from the opening of the file on. *)
Definition loadPayFile_read (filename upMonth : string)
  (fin : option (list PayLine)) (s : PayrollSystem) : LoadResult :=
  match fin with
  | None =>
      let s1 :=
        with_errors s (errors s ++ [(filename, not_found_message filename)]) in
      let '(s2, out) := logErrors s1 in
      mkLoadResult false upMonth s2 out
  | Some lines =>
      let s1 := fold_left (loadPayFile_line filename upMonth) lines s in
      let s2 :=
        with_loadedPayFiles s1 (StdSet.insert upMonth (loadedPayFiles s1)) in
      let s3 := with_processedMonths s2 (processedMonths s2 ++ [upMonth]) in
      let '(s4, out) := logErrors s3 in
      mkLoadResult true upMonth s4 out
  end.

(** [loadPayFile(filename, outMonth, replace)].  [choice] is what
    [getYesNoInput] returns when the question is asked ('y' or 'n'); [fin]
    is the content of the file, [None] when it cannot be opened. *)
Definition loadPayFile (filename : string) (replace : bool) (choice : ascii)
  (fin : option (list PayLine)) (s : PayrollSystem) : LoadResult :=
  let month := month_of_filename filename in
  let upMonth := toUpper month in
  if StdSet.count upMonth (loadedPayFiles s) && negb replace
  then
    if (choice =? Inputs.YES)%char
    then
      let s1 := removePayRecordsForMonth upMonth s in
      let s2 :=
        with_loadedPayFiles s1 (StdSet.erase upMonth (loadedPayFiles s1)) in
      loadPayFile_read filename upMonth fin s2
    else mkLoadResult false upMonth s []
  else loadPayFile_read filename upMonth fin s.

(** ** Sequences of operations on a ledger *)

Inductive Operation : Type :=
| OpLoadEmployees (fin : option (list RegistryLine))
| OpLoadPayFile (filename : string) (replace : bool) (choice : ascii)
    (fin : option (list PayLine))
| OpRemovePayRecordsForMonth (month : string).

Definition perform (s : PayrollSystem) (op : Operation) : PayrollSystem :=
  match op with
  | OpLoadEmployees fin => snd (loadEmployees fin s)
  | OpLoadPayFile filename replace choice fin =>
      ledger (loadPayFile filename replace choice fin s)
  | OpRemovePayRecordsForMonth month => removePayRecordsForMonth month s
  end.

Definition perform_all (ops : list Operation) (s : PayrollSystem)
  : PayrollSystem :=
  fold_left perform ops s.

(** The states the program can be in. *)
Definition reachable (s : PayrollSystem) : Prop :=
  exists ops, s = perform_all ops newPayrollSystem.

(** [processPayFileMenu] is the only caller of [loadPayFile] in the
    program and leaves [replace] at its default. *)
Definition uses_default_replace (op : Operation) : bool :=
  match op with
  | OpLoadPayFile _ replace _ _ => negb replace
  | _ => true
  end.

(** ** The sorted month listing of [sortEmployeesMenu] *)

(** The employees who worked in [month], in registry (identifier) order. *)
Definition employeesForMonth (month : string) (s : PayrollSystem)
  : list Employee :=
  filter (fun e => StdMap.count month (hoursWorked e))
         (StdMap.values (employees s)).

(** The three comparators handed to [std::sort]. *)
Definition by_hourly_rate (a b : Employee) : bool :=
  (hourlyRate b <? hourlyRate a)%float.

(** [hoursWorked.at(month)] throws for a missing key; the listing only
    holds employees that have the key (lemma [employeesForMonth_at]). *)
Definition by_hours_worked (month : string) (a b : Employee) : bool :=
  match StdMap.find month (hoursWorked a),
        StdMap.find month (hoursWorked b) with
  | Some ha, Some hb => (hb <? ha)%float
  | _, _ => false
  end.

Definition by_net_pay (month : string) (a b : Employee) : bool :=
  (getNetPay b month <? getNetPay a month)%float.

(** The comparator of a criterion; [None] outside 1..3, where the
    [switch] sorts nothing. *)
Definition comparator (crit : Z) (month : string)
  : option (Employee -> Employee -> bool) :=
  if (crit =? Payroll.SORT_HOURLY_RATE)%Z then Some by_hourly_rate
  else if (crit =? Payroll.SORT_HOURS_WORKED)%Z then Some (by_hours_worked month)
  else if (crit =? Payroll.SORT_NET_PAY)%Z then Some (by_net_pay month)
  else None.

(** What makes a comparator admissible for [std::sort]: a strict weak
    ordering on the elements to sort (irreflexive, transitive, and with a
    transitive equivalence [!comp(a,b) && !comp(b,a)]). *)
Definition equiv_under {A} (comp : A -> A -> bool) (a b : A) : Prop :=
  comp a b = false /\ comp b a = false.

Definition strict_weak_order_on {A} (comp : A -> A -> bool) (l : list A)
  : Prop :=
  (forall a, In a l -> comp a a = false) /\
  (forall a b c, In a l -> In b l -> In c l ->
     comp a b = true -> comp b c = true -> comp a c = true) /\
  (forall a b c, In a l -> In b l -> In c l ->
     equiv_under comp a b -> equiv_under comp b c -> equiv_under comp a c).

(** The contract of [std::sort(first, last, comp)]: for an admissible
    comparator the range is permuted so that no later element comes
    before an earlier one under [comp].  The order of equivalent elements
    is not specified. *)
Definition std_sort_contract
  (sort : (Employee -> Employee -> bool) -> list Employee -> list Employee)
  : Prop :=
  forall comp l,
    strict_weak_order_on comp l ->
    Permutation (sort comp l) l /\
    StronglySorted (fun a b => comp b a = false) (sort comp l).

Section SortedListing.
Variable std_sort :
  (Employee -> Employee -> bool) -> list Employee -> list Employee.

(** Lines 599-624: collect, then sort by the chosen criterion. *)
Definition sortedMonthListing (month : string) (crit : Z)
  (s : PayrollSystem) : list Employee :=
  let emps := employeesForMonth month s in
  match comparator crit month with
  | Some comp => std_sort comp emps
  | None => emps
  end.

(** [sortEmployeesMenu] with the two menu answers [idx] and [crit]:
    the rows it prints, [None] when it returns before printing any. *)
Definition sortEmployeesMenu (idx crit : Z) (s : PayrollSystem)
  : option (list Employee) :=
  match processedMonths s with
  | [] => None
  | _ =>
      if (idx =? 0)%Z || (Z.of_nat (length (processedMonths s)) <? idx)%Z
      then None
      else
        match nth_error (processedMonths s) (Z.to_nat (idx - 1)) with
        | Some month => Some (sortedMonthListing month crit s)
        | None => None
        end
  end.
End SortedListing.






(** The stable sort: insertion from the left, each element placed
    behind the elements it is equivalent to.  For an admissible
    comparator it is the one arrangement a stable sort can give. *)
Fixpoint insert_behind {A} (comp : A -> A -> bool) (x : A) (l : list A)
  : list A :=
  match l with
  | [] => [x]
  | y :: r => if comp x y then x :: l else y :: insert_behind comp x r
  end.

Definition stable_sort {A} (comp : A -> A -> bool) (l : list A) : list A :=
  fold_left (fun acc x => insert_behind comp x acc) l [].


(** ** Notions on ledgers used to state the properties *)

(** The registry without the hours: key, identifier, name and rate of
    every record, in order. *)
Definition registry_view (emps : StdMap.t Employee)
  : list (string * (string * string * float)) :=
  map (fun pair =>
         (fst pair, (id (snd pair), name (snd pair), hourlyRate (snd pair))))
      emps.

(** The records of a pay file that parse, identifiers normalised. *)
Definition records (lines : list PayLine) : list (string * float) :=
  flat_map (fun line =>
              match line with
              | Some (id0, hours) => [(toUpper (trim id0), hours)]
              | None => []
              end)
           lines.

(** One error per record whose identifier is not in the registry. *)
Definition unknown_errors (filename : string) (emps : StdMap.t Employee)
  (recs : list (string * float)) : list (string * string) :=
  map (fun r => (filename, invalid_id_message (fst r)))
      (filter (fun r => negb (StdMap.count (fst r) emps)) recs).

(** The hours of the last record for an identifier, if any. *)
Definition last_hours (id1 : string) (recs : list (string * float))
  : option float :=
  fold_left (fun acc r => if (id1 =? fst r)%string then Some (snd r) else acc)
            recs None.

(** Keys in strictly ascending order, as a [std::map] or [std::set]
    holds and iterates them. *)
Definition ascending (l : list string) : Prop :=
  StronglySorted (fun a b => (a ?= b)%string = Lt) l.

(** The containers of the ledger are what the C++ containers can be:
    keys strictly ascending, and every employee filed under its
    identifier. *)
Definition well_formed (s : PayrollSystem) : Prop :=
  ascending (StdMap.keys (employees s)) /\
  ascending (loadedPayFiles s) /\
  (forall k e, In (k, e) (employees s) ->
               id e = k /\ ascending (StdMap.keys (hoursWorked e))).

(** Every month in some employee's hours map is a processed month. *)
Definition hours_are_processed (s : PayrollSystem) : Prop :=
  forall k e m,
    In (k, e) (employees s) ->
    StdMap.count m (hoursWorked e) = true ->
    In m (processedMonths s).

(** What holds of the ledger whatever is called on it. *)
Definition ledger_invariant (s : PayrollSystem) : Prop :=
  hours_are_processed s /\ errors s = [].

(** What holds besides when [loadPayFile] is only called with the
    default [replace]. *)
Definition months_invariant (s : PayrollSystem) : Prop :=
  ledger_invariant s /\
  NoDup (processedMonths s) /\
  (forall m, In m (processedMonths s) ->
             StdSet.count m (loadedPayFiles s) = true).

(** No trace of the month in the ledger. *)
Definition month_untouched (month : string) (s : PayrollSystem) : Prop :=
  StdSet.count month (loadedPayFiles s) = false /\
  ~ In month (processedMonths s) /\
  (forall k e, In (k, e) (employees s) ->
               StdMap.find month (hoursWorked e) = None).

(** ** Sample data *)

Section Samples.
Local Open Scope float_scope.
Local Open Scope string_scope.

(** The worked example of the specification. *)
Definition alice : Employee :=
  mkEmployee "E1" "Alice" 15.00 [("JAN25", 160)].

(** A registry of two and two months of hours. *)
Definition staff_file : list RegistryLine :=
  [Some ("e1", "Alice", 15.00); Some ("e2", "Bob", 11.00)].

Definition jan25_file : list PayLine :=
  [Some ("e1", 160); Some ("e2", 172)].

Definition feb25_file : list PayLine :=
  [Some ("e1", 150); Some ("e2", 151)].

Definition two_months : PayrollSystem :=
  perform_all
    [OpLoadEmployees (Some staff_file);
     OpLoadPayFile "jan25.txt" false Inputs.NO (Some jan25_file);
     OpLoadPayFile "feb25.txt" false Inputs.NO (Some feb25_file)]
    newPayrollSystem.

Definition staff_only : PayrollSystem :=
  perform_all [OpLoadEmployees (Some staff_file)] newPayrollSystem.

Definition one_month : PayrollSystem :=
  perform_all
    [OpLoadEmployees (Some staff_file);
     OpLoadPayFile "jan25.txt" false Inputs.NO (Some jan25_file)]
    newPayrollSystem.

(** A second version of the January file, without Bob, and one with an
    identifier that is not in the registry. *)
Definition jan25_file_v2 : list PayLine := [Some ("e1", 100)].

Definition jan25_file_zzz : list PayLine :=
  [Some ("e1", 100); None; Some ("zzz", 40); Some ("E1", 120)].




End Samples.

(** * The rest of the program

    The utilities, the registry load, the views and the menus around the
    operations above. *)

(** ** Strings *)

Definition tolower (c : ascii) : ascii :=
  if (("A" <=? c) && (c <=? "Z"))%char
  then ascii_of_nat (nat_of_ascii c + 32)
  else c.

Definition toLower (s : string) : string := transform tolower s.

(** Every character is one of [" \t\r\n"]. *)
Fixpoint only_trim_chars (s : string) : bool :=
  match s with
  | EmptyString => true
  | String c r => is_trim_char c && only_trim_chars r
  end.

Definition first_char (s : string) : option ascii :=
  match s with
  | EmptyString => None
  | String c _ => Some c
  end.

Fixpoint last_char (s : string) : option ascii :=
  match s with
  | EmptyString => None
  | String c EmptyString => Some c
  | String _ r => last_char r
  end.

(** Nothing to trim: the string is empty, or neither begins nor ends
    with one of [" \t\r\n"]. *)
Definition trimmed (s : string) : Prop :=
  s = EmptyString \/
  ((exists c, first_char s = Some c /\ is_trim_char c = false) /\
   (exists c, last_char s = Some c /\ is_trim_char c = false)).

(** The character does not occur in the string. *)
Fixpoint lacks (c : ascii) (s : string) : bool :=
  match s with
  | EmptyString => true
  | String c' r => negb (c' =? c)%char && lacks c r
  end.

(** ** The registry *)

(** The name and rate of the last line of employees.txt that registers
    the identifier [k], if any. *)
Definition last_registration (k : string) (lines : list RegistryLine)
  : option (string * float) :=
  fold_left
    (fun acc line =>
       match line with
       | Some (id0, name0, rate) =>
           if (toUpper (trim id0) =? k)%string
           then Some (trim name0, rate)
           else acc
       | None => acc
       end)
    lines None.

(** ** The reports *)

Module FileNames.
Definition OUTPUT_SUFFIX : string := "_output.txt".
End FileNames.

(** A line of the month table: the seven values streamed, before they
    are formatted. *)
Record MonthRow : Type := mkMonthRow {
  row_id : string;
  row_name : string;
  row_rate : float;
  row_hours : float;
  row_gross : float;
  row_tax : float;
  row_net : float
}.

(** The body of the loop over the registry that [printMonthSummary] and
    [writeMonthOutput] share: a line for an employee with hours in
    [month]; [hoursWorked.at(month)] is only reached under [count]. *)
Definition monthRow (month : string) (e : Employee) : list MonthRow :=
  if StdMap.count month (hoursWorked e)
  then
    match StdMap.find month (hoursWorked e) with
    | Some h =>
        [mkMonthRow (id e) (name e) (hourlyRate e) h
           (getGrossPay e month) (getTax e month) (getNetPay e month)]
    | None => []
    end
  else [].

(** [printMonthSummary(month)]: the lines written to the screen between
    the header and the closing rule. *)
Definition printMonthSummary (month : string) (s : PayrollSystem)
  : list MonthRow :=
  flat_map (fun pair => monthRow month (snd pair)) (employees s).

(** [writeMonthOutput(month)]: the name of the file and the lines
    written to it after the header; [fout] tells whether the file can
    be opened, and nothing is written when it cannot. *)
Definition writeMonthOutput (month : string) (fout : bool) (s : PayrollSystem)
  : option (string * list MonthRow) :=
  let fname := (toLower month ++ FileNames.OUTPUT_SUFFIX)%string in
  if fout
  then Some (fname, flat_map (fun pair => monthRow month (snd pair))
                             (employees s))
  else None.

(** A line of the table of one employee, and the table with its totals. *)
Record DetailRow : Type := mkDetailRow {
  det_month : string;
  det_hours : float;
  det_gross : float;
  det_tax : float;
  det_net : float
}.

Record Details : Type := mkDetails {
  det_id : string;
  det_name : string;
  det_rows : list DetailRow;
  totalGross : float;
  totalTax : float;
  totalNet : float
}.

Section Reports.
Local Open Scope float_scope.

(** The body of the loop of [displayEmployeeDetails]: a line is
    written and the three totals grow. *)
Definition displayEmployeeDetails_rec (e : Employee)
  (acc : list DetailRow * (float * (float * float))) (rec : string * float)
  : list DetailRow * (float * (float * float)) :=
  let '(rows, (totalGross, (totalTax, totalNet))) := acc in
  let month := fst rec in
  let hours := snd rec in
  ((rows ++ [mkDetailRow month hours (getGrossPay e month) (getTax e month)
               (getNetPay e month)])%list,
   (totalGross + getGrossPay e month,
    (totalTax + getTax e month,
     totalNet + getNetPay e month))).

(** [displayEmployeeDetails(empid)]: [None] is the message that the
    employee does not exist. *)
Definition displayEmployeeDetails (empid : string) (s : PayrollSystem)
  : option Details :=
  match StdMap.find empid (employees s) with
  | None => None
  | Some e =>
      let '(rows, (totalGross, (totalTax, totalNet))) :=
        fold_left (displayEmployeeDetails_rec e) (hoursWorked e)
                  ([], (0, (0, 0))) in
      Some (mkDetails (id e) (name e) rows totalGross totalTax totalNet)
  end.

(** [Employee()]: what [operator[]] files under a key that is absent. *)
Definition defaultEmployee : Employee := mkEmployee "" "" 0.0 StdMap.empty.
End Reports.

(** [employees[k]]: the record under [k], filed first when absent. *)
Definition subscript (k : string) (emps : StdMap.t Employee)
  : Employee * StdMap.t Employee :=
  match StdMap.find k emps with
  | Some e => (e, emps)
  | None => (defaultEmployee, StdMap.insert k defaultEmployee emps)
  end.

(** What a menu entry does once the selection is read: it goes back to
    the menu without a report, or writes a report; [OutOfBounds] is an
    access past the end of a vector. *)
Inductive Outcome (A : Type) : Type :=
| Back
| OutOfBounds
| Report (a : A).
Arguments Back {A}.
Arguments OutOfBounds {A}.
Arguments Report {A} a.

(** [idList]: the keys of the registry in iteration order. *)
Definition idList (s : PayrollSystem) : list string :=
  map fst (employees s).

(** [v[i - 1]] for an [int] [i]. *)
Definition at_index {A} (v : list A) (i : Z) : option A :=
  if (i <? 1)%Z then None else nth_error v (Z.to_nat (i - 1)).

(** [showEmployeeBreakdown], [sel] being what [getIntInput] returns. *)
Definition showEmployeeBreakdown (sel : Z) (s : PayrollSystem)
  : Outcome (option Details) :=
  if ((sel <=? 0) || (sel >? Z.of_nat (length (idList s))))%Z
  then Back
  else
    match at_index (idList s) sel with
    | Some k => Report (displayEmployeeDetails k s)
    | None => OutOfBounds
    end.

Record Totals : Type := mkTotals {
  tot_id : string;
  tot_name : string;
  tot_gross : float;
  tot_tax : float;
  tot_net : float
}.

(** [showEmployeeTotals], with the ledger after it. *)
Definition showEmployeeTotals (sel : Z) (s : PayrollSystem)
  : Outcome Totals * PayrollSystem :=
  if ((sel <=? 0) || (sel >? Z.of_nat (length (idList s))))%Z
  then (Back, s)
  else
    match at_index (idList s) sel with
    | Some k =>
        let '(e, emps) := subscript k (employees s) in
        (Report (mkTotals (id e) (name e) (getTotalGross e) (getTotalTax e)
                   (getTotalNet e)),
         with_employees s emps)
    | None => (OutOfBounds, s)
    end.

(** [viewAllSalaryDetailsMenu] for one selection [idx]: the month table
    of [processedMonths[idx - 1]]. *)
Definition viewAllSalaryDetails_select (idx : Z) (s : PayrollSystem)
  : Outcome (string * list MonthRow) :=
  if (idx =? 0)%Z then Back
  else
    match at_index (processedMonths s) idx with
    | Some month => Report (month, printMonthSummary month s)
    | None => OutOfBounds
    end.

(** ** Standard input *)

(** [cin] is modelled by the characters that are still to be read.  The
    error flags of the stream need no component of their own: the
    extractions below fail for good only at the end of the input, where
    every later extraction fails as well, and [getIntInput] and
    [getYesNoInput] clear the flags after a failure.  [int] has 32
    bits. *)

Module Limits.
Definition CIN_IGNORE_LIMIT : nat := 1000.
End Limits.

Module Menu.
Definition QUIT : Z := 0.
Definition PROCESS_PAY_FILE : Z := 1.
Definition VIEW_ALL_SALARY : Z := 2.
Definition VIEW_INDIVIDUAL : Z := 3.
Definition SORT_EMPLOYEES : Z := 4.
Definition VIEW_EMPLOYEE_TOTALS : Z := 5.
Definition INVALID_CHOICE : Z := -1.
End Menu.

(** [Inputs::RETURN]. *)
Definition RETURN : string := "0".

Definition INT_MIN : Z := -2147483648.
Definition INT_MAX : Z := 2147483647.

Definition newline : ascii := "010"%char.

(** [isspace] in the "C" locale: space, \t, \n, \v, \f and \r. *)
Definition isspace (c : ascii) : bool :=
  (c =? " ")%char || ((9 <=? nat_of_ascii c) && (nat_of_ascii c <=? 13)).

Definition isdigit (c : ascii) : bool :=
  (48 <=? nat_of_ascii c) && (nat_of_ascii c <=? 57).

(** What the sentry of a formatted extraction does: the leading white
    space is skipped. *)
Fixpoint skipws (cin : string) : string :=
  match cin with
  | EmptyString => EmptyString
  | String c r => if isspace c then skipws r else cin
  end.

(** The digits at the front of [cin] are read and accumulated. *)
Fixpoint digits (acc : Z) (cin : string) : Z * string :=
  match cin with
  | EmptyString => (acc, EmptyString)
  | String c r =>
      if isdigit c
      then digits (10 * acc + (Z.of_nat (nat_of_ascii c) - 48)) r
      else (acc, cin)
  end.

(** [cin >> val] for an [int]: white space is skipped, then an optional
    sign and the digits that follow are read; the extraction fails
    ([None]) when there is no digit or the number is not an [int].  The
    second component is the input that is left. *)
Definition extract_int (cin : string) : option Z * string :=
  let cin1 := skipws cin in
  let '(negative, cin2) :=
    match cin1 with
    | String c r =>
        if (c =? "-")%char then (true, r)
        else if (c =? "+")%char then (false, r)
        else (false, cin1)
    | EmptyString => (false, cin1)
    end in
  match cin2 with
  | EmptyString => (None, cin2)
  | String c _ =>
      if isdigit c
      then
        let '(n, cin3) := digits 0 cin2 in
        let val := if negative then (- n)%Z else n in
        if ((INT_MIN <=? val) && (val <=? INT_MAX))%Z
        then (Some val, cin3)
        else (None, cin3)
      else (None, cin2)
  end.

(** [cin >> choice] for a [char]: the first character that is not white
    space; it fails at the end of the input only. *)
Definition extract_char (cin : string) : option ascii * string :=
  match skipws cin with
  | EmptyString => (None, EmptyString)
  | String c r => (Some c, r)
  end.

(** [cin.ignore(n, '\n')]: at most [n] characters are discarded, the
    last one being the first line feed if there is one among them. *)
Fixpoint ignore (n : nat) (cin : string) : string :=
  match n, cin with
  | S n', String c r => if (c =? newline)%char then r else ignore n' r
  | _, _ => cin
  end.
Arguments ignore : simpl never.

(** [cin.ignore(numeric_limits<streamsize>::max(), '\n')]: no limit. *)
Fixpoint ignore_line (cin : string) : string :=
  match cin with
  | EmptyString => EmptyString
  | String c r => if (c =? newline)%char then r else ignore_line r
  end.

(** [getline(cin, input)]: the characters before the first line feed,
    which is discarded. *)
Fixpoint getline (cin : string) : string * string :=
  match cin with
  | EmptyString => (EmptyString, EmptyString)
  | String c r =>
      if (c =? newline)%char then (EmptyString, r)
      else let '(input, rest) := getline r in (String c input, rest)
  end.

(** What a loop that may go on for ever gives after [fuel] turns: it
    has returned [a] in state [st], or it is still going, in state [st],
    or it has read a vector out of bounds, after which nothing is
    defined. *)
Inductive Run (St A : Type) : Type :=
| Done (a : A) (st : St)
| Going (st : St)
| Fault (st : St).
Arguments Done {St A} a st.
Arguments Going {St A} st.
Arguments Fault {St A} st.

(** [getIntInput(min, max, prompt)], the prompts left out. *)
Fixpoint getIntInput (fuel : nat) (min max : Z) (cin : string)
  : Run string Z :=
  match fuel with
  | O => Going cin
  | S fuel' =>
      match extract_int cin with
      | (Some val, cin1) =>
          let cin2 := ignore Limits.CIN_IGNORE_LIMIT cin1 in
          if ((val >=? min) && (val <=? max))%Z
          then Done val cin2
          else getIntInput fuel' min max cin2
      | (None, cin1) => getIntInput fuel' min max (ignore_line cin1)
      end
  end.

(** [getStringInput(prompt)]. *)
Definition getStringInput (cin : string) : string * string := getline cin.

(** [getYesNoInput(prompt)]. *)
Fixpoint getYesNoInput (fuel : nat) (cin : string) : Run string ascii :=
  match fuel with
  | O => Going cin
  | S fuel' =>
      match extract_char cin with
      | (Some c, cin1) =>
          let cin2 := ignore Limits.CIN_IGNORE_LIMIT cin1 in
          let choice := tolower c in
          if ((choice =? Inputs.YES) || (choice =? Inputs.NO))%char
          then Done choice cin2
          else getYesNoInput fuel' cin2
      | (None, cin1) => getYesNoInput fuel' (ignore_line cin1)
      end
  end.

(** ** The session *)

(** The files as the program finds them: the content of employees.txt
    ([None] when it cannot be opened), the content of a pay file at the
    [n]-th call of [loadPayFile], and whether an output file can be
    opened after [n] calls of [loadPayFile]. *)
Record Files : Type := mkFiles {
  employees_file : option (list RegistryLine);
  pay_file : nat -> string -> option (list PayLine);
  output_opens : nat -> string -> bool
}.

(** The state of a session: the input left, the ledger, the number of
    calls of [loadPayFile] so far, the output files written and what was
    appended to errors.txt.  What goes to the screen is left out. *)
Record World : Type := mkWorld {
  cin : string;
  sys : PayrollSystem;
  clock : nat;
  outputs : list (string * list MonthRow);
  errorLog : list (string * string)
}.

Definition with_cin (w : World) (c : string) : World :=
  mkWorld c (sys w) (clock w) (outputs w) (errorLog w).

Definition with_sys (w : World) (s : PayrollSystem) : World :=
  mkWorld (cin w) s (clock w) (outputs w) (errorLog w).

(** A read of the input within a session. *)
Definition reading {A} (m : Run string A) (w : World) : Run World A :=
  match m with
  | Done a c => Done a (with_cin w c)
  | Going c => Going (with_cin w c)
  | Fault c => Fault (with_cin w c)
  end.

(** [loadPayFile(fname, month)] within a session, [replace] at its
    default: the question is asked when the month is loaded. *)
Definition loadPayFile_session (files : Files) (fuel : nat) (fname : string)
  (w : World) : Run World LoadResult :=
  let upMonth := toUpper (month_of_filename fname) in
  let load (choice : ascii) (w : World) :=
    let r := loadPayFile fname false choice
               (pay_file files (clock w) fname) (sys w) in
    Done r (mkWorld (cin w) (ledger r) (S (clock w)) (outputs w)
              (errorLog w ++ logged r)) in
  if StdSet.count upMonth (loadedPayFiles (sys w))
  then
    match reading (getYesNoInput fuel (cin w)) w with
    | Done choice w1 => load choice w1
    | Going w1 => Going w1
    | Fault w1 => Fault w1
    end
  else load Inputs.NO w.

(** [writeMonthOutput(month)] within a session. *)
Definition writeMonthOutput_session (files : Files) (month : string)
  (w : World) : World :=
  match writeMonthOutput month
          (output_opens files (clock w)
             (toLower month ++ FileNames.OUTPUT_SUFFIX)%string)
          (sys w) with
  | Some file => mkWorld (cin w) (sys w) (clock w) (outputs w ++ [file])
                   (errorLog w)
  | None => w
  end.

(** [processPayFileMenu]. *)
Fixpoint processPayFileMenu (files : Files) (fuel : nat) (w : World)
  : Run World unit :=
  match fuel with
  | O => Going w
  | S fuel' =>
      let '(fname, cin1) := getStringInput (cin w) in
      let w1 := with_cin w cin1 in
      if (fname =? RETURN)%string then Done tt w1
      else
        match loadPayFile_session files fuel' fname w1 with
        | Done r w2 =>
            processPayFileMenu files fuel'
              (if returned r
               then writeMonthOutput_session files (outMonth r) w2
               else w2)
        | Going w2 => Going w2
        | Fault w2 => Fault w2
        end
  end.

(** The loop of [viewAllSalaryDetailsMenu]. *)
Fixpoint viewAllSalaryDetailsMenu_loop (fuel : nat) (w : World)
  : Run World unit :=
  match fuel with
  | O => Going w
  | S fuel' =>
      match reading
              (getIntInput fuel' 0
                 (Z.of_nat (length (processedMonths (sys w)))) (cin w)) w with
      | Done idx w1 =>
          match viewAllSalaryDetails_select idx (sys w1) with
          | Back => Done tt w1
          | Report _ => viewAllSalaryDetailsMenu_loop fuel' w1
          | OutOfBounds => Fault w1
          end
      | Going w1 => Going w1
      | Fault w1 => Fault w1
      end
  end.

(** [viewAllSalaryDetailsMenu]. *)
Definition viewAllSalaryDetailsMenu (fuel : nat) (w : World)
  : Run World unit :=
  match processedMonths (sys w) with
  | [] => Done tt w
  | _ :: _ => viewAllSalaryDetailsMenu_loop fuel w
  end.

(** [showEmployeeBreakdown] within a session. *)
Definition showEmployeeBreakdown_session (fuel : nat) (w : World)
  : Run World unit :=
  match reading
          (getIntInput fuel 0 (Z.of_nat (length (idList (sys w)))) (cin w))
          w with
  | Done sel w1 =>
      match showEmployeeBreakdown sel (sys w1) with
      | OutOfBounds => Fault w1
      | _ => Done tt w1
      end
  | Going w1 => Going w1
  | Fault w1 => Fault w1
  end.

(** [showEmployeeTotals] within a session. *)
Definition showEmployeeTotals_session (fuel : nat) (w : World)
  : Run World unit :=
  match reading
          (getIntInput fuel 0 (Z.of_nat (length (idList (sys w)))) (cin w))
          w with
  | Done sel w1 =>
      match showEmployeeTotals sel (sys w1) with
      | (OutOfBounds, _) => Fault w1
      | (_, s) => Done tt (with_sys w1 s)
      end
  | Going w1 => Going w1
  | Fault w1 => Fault w1
  end.

(** [sortEmployeesMenu] within a session: the month and the criterion
    are read; the listing goes to the screen. *)
Definition sortEmployeesMenu_session (fuel : nat) (w : World)
  : Run World unit :=
  match processedMonths (sys w) with
  | [] => Done tt w
  | _ :: _ =>
      let size := Z.of_nat (length (processedMonths (sys w))) in
      match reading (getIntInput fuel 0 size (cin w)) w with
      | Done idx w1 =>
          if ((idx =? 0) || (idx >? size))%Z then Done tt w1
          else
            match at_index (processedMonths (sys w1)) idx with
            | None => Fault w1
            | Some month =>
                match reading
                        (getIntInput fuel Payroll.SORT_HOURLY_RATE
                           Payroll.SORT_NET_PAY (cin w1)) w1 with
                | Done crit w2 => Done tt w2
                | Going w2 => Going w2
                | Fault w2 => Fault w2
                end
            end
      | Going w1 => Going w1
      | Fault w1 => Fault w1
      end
  end.

(** The loop of [run]: a choice is read and the menu entry is run,
    until the choice is [Menu::QUIT]. *)
Fixpoint run_loop (files : Files) (fuel : nat) (w : World) : Run World unit :=
  match fuel with
  | O => Going w
  | S fuel' =>
      match reading
              (getIntInput fuel' Menu.QUIT Menu.VIEW_EMPLOYEE_TOTALS (cin w))
              w with
      | Done choice w1 =>
          let entry :=
            if (choice =? Menu.PROCESS_PAY_FILE)%Z
            then processPayFileMenu files fuel' w1
            else if (choice =? Menu.VIEW_ALL_SALARY)%Z
            then viewAllSalaryDetailsMenu fuel' w1
            else if (choice =? Menu.VIEW_INDIVIDUAL)%Z
            then showEmployeeBreakdown_session fuel' w1
            else if (choice =? Menu.SORT_EMPLOYEES)%Z
            then sortEmployeesMenu_session fuel' w1
            else if (choice =? Menu.VIEW_EMPLOYEE_TOTALS)%Z
            then showEmployeeTotals_session fuel' w1
            else Done tt w1 in
          match entry with
          | Done _ w2 =>
              if (choice =? Menu.QUIT)%Z then Done tt w2
              else run_loop files fuel' w2
          | Going w2 => Going w2
          | Fault w2 => Fault w2
          end
      | Going w1 => Going w1
      | Fault w1 => Fault w1
      end
  end.

(** [run], which is all that [main] calls, on a new [PayrollSystem]. *)
Definition run (files : Files) (fuel : nat) (input : string)
  : Run World unit :=
  let '(ok, s) := loadEmployees (employees_file files) newPayrollSystem in
  let w := mkWorld input s 0 [] [] in
  if ok then run_loop files fuel w else Done tt w.

(** A call of [loadPayFile] with [replace] at its default. *)
Definition loads_pay_file (op : Operation) : bool :=
  match op with
  | OpLoadPayFile _ replace _ _ => negb replace
  | _ => false
  end.

(** The ledger of the session is what [loadEmployees] on employees.txt
    followed by calls of [loadPayFile] with [replace] at its default
    gives. *)
Definition session_ledger (files : Files) (s : PayrollSystem) : Prop :=
  exists ops,
    forallb loads_pay_file ops = true /\
    s = perform_all (OpLoadEmployees (employees_file files) :: ops)
          newPayrollSystem.

(** Nothing goes wrong in the session so far, and its ledger is as
    above. *)
Definition session_ok {A} (files : Files) (m : Run World A) : Prop :=
  match m with
  | Done _ w | Going w => session_ledger files (sys w)
  | Fault _ => False
  end.

(** Only white space. *)
Fixpoint all_space (s : string) : bool :=
  match s with
  | EmptyString => true
  | String c r => isspace c && all_space r
  end.

(** What is typed: every line is followed by a line feed. *)
Fixpoint typed (lines : list string) : string :=
  match lines with
  | [] => EmptyString
  | l :: r => (l ++ String newline (typed r))%string
  end.

Section SessionSamples.
Local Open Scope string_scope.

(** A session: a pay file is processed, processed again with the
    replacement confirmed, the month is viewed, the second employee is
    selected, the month is sorted by net pay, and the program is left. *)
Definition sample_files : Files :=
  mkFiles (Some staff_file)
          (fun _ fname => if toLower fname =? "jan25.txt"
                          then Some jan25_file else None)
          (fun _ _ => true).

Definition sample_input : string :=
  typed ["1"; "jan25.txt"; "JAN25.txt"; "maybe"; "Y"; "feb25.txt"; "0";
         "2"; "7"; "1"; "0";
         "3"; "2";
         "4"; "1"; "3";
         "5"; "1";
         "six"; "0"; "left over"].
End SessionSamples.

(** The input that is left to a session. *)
Definition left_to_read (w : World) : nat := String.length (cin w).

(** A run, as a function of the number of turns it is given, settles
    from a state of size at most [n]: it reads no vector out of bounds;
    once it has returned, more turns change nothing; and when it has
    not returned after [n + d] turns, nothing is left ([size] is 0) and
    it never returns.  The size never grows. *)
Definition settles {St A} (size : St -> nat) (d n : nat)
  (m : nat -> Run St A) : Prop :=
  forall fuel,
    match m fuel with
    | Done a st' =>
        size st' <= n /\
        (forall fuel', fuel <= fuel' -> m fuel' = Done a st')
    | Going st' =>
        size st' <= n /\
        (n = 0 \/ n + d <= fuel ->
         size st' = 0 /\ forall fuel', exists st'', m fuel' = Going st'')
    | Fault _ => False
    end.

(** ** Facts about binary64 used below

    They follow from the specification of the primitive operations
    ([add_spec], [sub_spec], [mul_spec], [ltb_spec]) by case analysis on
    the class of the operands. *)

Section FloatFacts.
Local Open Scope float_scope.



Lemma Prim2SF_zero : Prim2SF 0 = S754_zero false.
Proof. reflexivity. Qed.



(** On every double but NaN and [-0.0] the clamp at 0 is [max(0, x)]. *)
Lemma clamp_below_zero_is_max (x : float) :
  is_number x -> Prim2SF x <> S754_zero true ->
  clamp_below 0 x = std_max 0 x.
Proof.
  unfold is_number. intros Hnan Hneg. unfold clamp_below, std_max.
  rewrite !ltb_spec, Prim2SF_zero. unfold SFltb, SFcompare.
  destruct (Prim2SF x) as [s | s | | s m e] eqn:E.
  - destruct s; [congruence | ].
    apply Prim2SF_inj. now rewrite E.
  - now destruct s.
  - congruence.
  - now destruct s.
Qed.

(** The monthly tax from the clamped amount and from [max(0, x)] are the
    same number whenever [x] is a number: for [x = -0.0] the first is
    [-0.0] and the second [+0.0]. *)
Lemma clamped_tax_is_max (x : float) :
  is_number x ->
  same_number (clamp_below 0 x * 0.20 / 12) (std_max 0 x * 0.20 / 12).
Proof.
  intros Hnan.
  destruct (Prim2SF x) as [[ | ] | s | | s m e] eqn:E.
  - assert (Hx : x = (-0)%float) by (apply Prim2SF_inj; now rewrite E).
    subst x. right. split; [now exists true | now exists false].
  - left. rewrite clamp_below_zero_is_max; [reflexivity | exact Hnan | ].
    now rewrite E.
  - left. rewrite clamp_below_zero_is_max; [reflexivity | exact Hnan | ].
    now rewrite E.
  - unfold is_number in Hnan. congruence.
  - left. rewrite clamp_below_zero_is_max; [reflexivity | exact Hnan | ].
    now rewrite E.
Qed.

(** *** Operations on finite doubles give numbers

    Rounding a non-negative mantissa never yields NaN; so the product of
    finite doubles, and a number times or less a finite non-zero double,
    is a number (an infinity when it overflows). *)

Lemma shr_1_nonneg mrs : (0 <= shr_m mrs -> 0 <= shr_m (shr_1 mrs))%Z.
Proof.
  destruct mrs as [m r s]. simpl.
  destruct m as [ | [p | p | ] | p]; simpl; lia.
Qed.

Lemma iter_shr_1_nonneg (p : positive) mrs :
  (0 <= shr_m mrs -> 0 <= shr_m (SpecFloat.iter_pos shr_1 p mrs))%Z.
Proof.
  revert mrs. induction p as [p IH | p IH | ]; intros mrs H; simpl.
  - apply IH, IH. now apply shr_1_nonneg.
  - now apply IH, IH.
  - now apply shr_1_nonneg.
Qed.

Lemma shr_fexp_nonneg prec emax m e l :
  (0 <= m -> 0 <= shr_m (fst (shr_fexp prec emax m e l)))%Z.
Proof.
  intros H. unfold shr_fexp, shr.
  assert (H0 : (0 <= shr_m (shr_record_of_loc m l))%Z).
  { destruct l as [ | []]; simpl; exact H. }
  destruct (fexp prec emax (Zdigits2 m + e) - e)%Z; simpl; trivial.
  now apply iter_shr_1_nonneg.
Qed.

Lemma round_nearest_even_nonneg m l :
  (0 <= m -> 0 <= round_nearest_even m l)%Z.
Proof.
  intros H. destruct l as [ | []]; simpl; try lia.
  destruct (Z.even m); lia.
Qed.

Lemma binary_round_aux_number prec emax sx mx ex lx :
  (0 <= mx)%Z -> binary_round_aux prec emax sx mx ex lx <> S754_nan.
Proof.
  intros H. unfold binary_round_aux.
  pose proof (shr_fexp_nonneg prec emax mx ex lx H) as H1.
  destruct (shr_fexp prec emax mx ex lx) as [mrs' e']. simpl in H1.
  pose proof (shr_fexp_nonneg prec emax _ e' loc_Exact
                (round_nearest_even_nonneg _ (loc_of_shr_record mrs') H1))
    as H2.
  destruct (shr_fexp prec emax _ e' loc_Exact) as [mrs'' e'']. simpl in H2.
  destruct (shr_m mrs'') as [ | m | m]; try discriminate.
  - destruct (e'' <=? emax - prec)%Z; discriminate.
  - lia.
Qed.

Lemma binary_normalize_number prec emax m e sz :
  binary_normalize prec emax m e sz <> S754_nan.
Proof.
  unfold binary_normalize, binary_round.
  destruct m as [ | p | p]; [discriminate | | ].
  - destruct (shl_align _ _ _) as [mz ez]. now apply binary_round_aux_number.
  - destruct (shl_align _ _ _) as [mz ez]. now apply binary_round_aux_number.
Qed.

Lemma mul_finite_is_number (x y : float) :
  finite_double x -> finite_double y -> is_number (x * y).
Proof.
  unfold finite_double, is_number. rewrite mul_spec.
  unfold SF64mul, SFmul.
  destruct (Prim2SF x), (Prim2SF y); try tauto; intros _ _;
    try discriminate.
  now apply binary_round_aux_number.
Qed.

Lemma mul_number_by_finite (x y : float) s m e :
  is_number x -> Prim2SF y = S754_finite s m e -> is_number (x * y).
Proof.
  unfold is_number. rewrite mul_spec. intros Hx ->.
  unfold SF64mul, SFmul.
  destruct (Prim2SF x); try congruence; try discriminate.
  now apply binary_round_aux_number.
Qed.

Lemma sub_number_finite (x y : float) s m e :
  is_number x -> Prim2SF y = S754_finite s m e -> is_number (x - y).
Proof.
  unfold is_number. rewrite sub_spec. intros Hx ->.
  unfold SF64sub, SFsub.
  destruct (Prim2SF x); try congruence; try discriminate.
  apply binary_normalize_number.
Qed.

(** The annual projection less the allowance is a number for every
    finite rate and finite hours. *)
Lemma taxable_is_number (r h : float) :
  finite_double r -> finite_double h -> is_number (r * h * 12 - 12570).
Proof.
  intros Hr Hh.
  eapply sub_number_finite; [ | vm_compute; reflexivity].
  eapply mul_number_by_finite; [ | vm_compute; reflexivity].
  now apply mul_finite_is_number.
Qed.

(** *** The order of the doubles *)











End FloatFacts.

(** ** The pay figures of one month *)

Section PayFormula.
Local Open Scope float_scope.

Lemma months_in_year_double : double_of_int Payroll.MONTHS_IN_YEAR = 12.
Proof. reflexivity. Qed.

Lemma getGrossPay_some e month h :
  StdMap.find month (hoursWorked e) = Some h ->
  getGrossPay e month = hourlyRate e * h.
Proof. unfold getGrossPay. now intros ->. Qed.

Lemma getGrossPay_none e month :
  StdMap.find month (hoursWorked e) = None ->
  getGrossPay e month = 0.
Proof. unfold getGrossPay. now intros ->. Qed.

Lemma getTax_some e month h :
  StdMap.find month (hoursWorked e) = Some h ->
  getTax e month = clamp_below 0 (hourlyRate e * h * 12 - 12570) * 0.20 / 12.
Proof.
  intros H. unfold getTax. rewrite (getGrossPay_some _ _ _ H).
  rewrite months_in_year_double. reflexivity.
Qed.
End PayFormula.

(** ** Pay figures: the claims on [getGrossPay], [getTax], [getNetPay] *)

Section PayClaims.
Local Open Scope float_scope.

(** C1.  For every employee and month the tax is the gross pay of the
    month times 12, less the allowance 12570, clamped below at 0, times
    0.20, divided by 12, and the net pay is the gross pay less the tax;
    with [h] hours recorded the gross pay is rate times hours, and for
    every finite rate and finite hours the clamped amount is
    [max(0, r*h*12 - 12570)]; with rate 15.00 and 160 hours the three
    figures are 2400.00, 270.50 and 2129.50. *)
Theorem getTax_formula :
  forall (e : Employee) (month : string),
    getTax e month =
      clamp_below 0 (getGrossPay e month * 12 - 12570) * 0.20 / 12 /\
    getNetPay e month = getGrossPay e month - getTax e month /\
    (forall h,
        StdMap.find month (hoursWorked e) = Some h ->
        getGrossPay e month = hourlyRate e * h /\
        getTax e month =
          clamp_below 0 (hourlyRate e * h * 12 - 12570) * 0.20 / 12 /\
        (finite_double (hourlyRate e) -> finite_double h ->
         same_number (getTax e month)
           (std_max 0 (hourlyRate e * h * 12 - 12570) * 0.20 / 12)) /\
        (hourlyRate e = 15.00 -> h = 160 ->
         getGrossPay e month = 2400.00 /\
         getTax e month = 270.50 /\
         getNetPay e month = 2129.50)).
Proof.
  intros e month.
  split; [unfold getTax; now rewrite months_in_year_double | ].
  split; [reflexivity | ].
  intros h H.
  pose proof (getGrossPay_some e month h H) as Hg.
  pose proof (getTax_some e month h H) as Ht.
  split; [exact Hg | ]. split; [exact Ht | ].
  split.
  - intros Hr Hh. rewrite Ht. apply clamped_tax_is_max.
    now apply taxable_is_number.
  - intros Hr Hh. unfold getNetPay. rewrite Hg, Ht, Hr, Hh.
    repeat split; reflexivity.
Qed.

Lemma getTax_formula_at_alice :
  StdMap.find "JAN25" (hoursWorked alice) = Some 160 /\
  getGrossPay alice "JAN25" = 2400.00 /\
  getTax alice "JAN25" = 270.50 /\
  getNetPay alice "JAN25" = 2129.50 /\
  same_number (getTax alice "JAN25")
    (std_max 0 (15.00 * 160 * 12 - 12570) * 0.20 / 12).
Proof.
  split; [reflexivity | ].
  pose proof (getTax_formula alice "JAN25") as (_ & _ & H).
  destruct (H 160 eq_refl) as (_ & _ & Hmax & Hex).
  destruct (Hex eq_refl eq_refl) as (Hg & Ht & Hn).
  split; [exact Hg | ]. split; [exact Ht | ]. split; [exact Hn | ].
  apply Hmax; exact I.
Defined.

(** C9.  A month without an hours entry is a valid zero case: the
    lookup finds nothing, and gross pay, tax and net pay are all 0. *)
Theorem no_hours_no_pay :
  forall (e : Employee) (month : string),
    StdMap.find month (hoursWorked e) = None ->
    getGrossPay e month = 0 /\ getTax e month = 0 /\ getNetPay e month = 0.
Proof.
  intros e month H.
  pose proof (getGrossPay_none e month H) as Hg.
  assert (Ht : getTax e month = 0).
  { unfold getTax. rewrite Hg. reflexivity. }
  repeat split; trivial.
  unfold getNetPay. rewrite Hg, Ht. reflexivity.
Qed.

Lemma no_hours_no_pay_at_alice :
  StdMap.find "FEB25" (hoursWorked alice) = None /\
  getGrossPay alice "FEB25" = 0 /\
  getTax alice "FEB25" = 0 /\
  getNetPay alice "FEB25" = 0.
Proof.
  split; [reflexivity | ].
  apply (no_hours_no_pay alice "FEB25"). reflexivity.
Defined.
End PayClaims.

(** ** Totals *)

Section TotalsClaims.
Local Open Scope float_scope.




End TotalsClaims.

(** ** Facts about the containers *)

Section ContainerFacts.
Context {V : Type}.
Implicit Types (m : StdMap.t V) (k : string) (v : V).

Lemma string_eqb_sym (a b : string) : (a =? b)%string = (b =? a)%string.
Proof.
  destruct (String.eqb_spec a b) as [-> | H].
  - now rewrite String.eqb_refl.
  - symmetry. apply String.eqb_neq. congruence.
Qed.

Lemma string_compare_refl (a : string) : (a ?= a)%string = Eq.
Proof.
  induction a as [ | c r IH]; simpl; [reflexivity | ].
  unfold Ascii.compare. now rewrite N.compare_refl.
Qed.

Lemma count_find k m :
  StdMap.count k m = true <-> exists v, StdMap.find k m = Some v.
Proof.
  unfold StdMap.count. destruct (StdMap.find k m) as [v | ].
  - split; [now exists v | reflexivity].
  - split; [discriminate | now intros [v H]].
Qed.

Lemma count_false_find k m :
  StdMap.count k m = false <-> StdMap.find k m = None.
Proof.
  unfold StdMap.count. destruct (StdMap.find k m); split; congruence.
Qed.

Lemma find_erase_same k m : StdMap.find k (StdMap.erase k m) = None.
Proof.
  induction m as [ | [k' v'] r IH]; simpl; [reflexivity | ].
  destruct (String.eqb_spec k k') as [-> | Hne]; simpl; [exact IH | ].
  destruct (String.eqb_spec k k'); [contradiction | exact IH].
Qed.

Lemma find_erase_other k k' m :
  k' <> k -> StdMap.find k' (StdMap.erase k m) = StdMap.find k' m.
Proof.
  intros Hne. induction m as [ | [k0 v0] r IH]; simpl; [reflexivity | ].
  destruct (String.eqb_spec k k0) as [-> | Hk]; simpl.
  - destruct (String.eqb_spec k' k0); [contradiction | exact IH].
  - now rewrite IH.
Qed.

Lemma erase_absent k m : StdMap.find k m = None -> StdMap.erase k m = m.
Proof.
  induction m as [ | [k' v'] r IH]; simpl; [reflexivity | ].
  destruct (String.eqb_spec k k') as [-> | Hne]; simpl; [discriminate | ].
  intros H. now rewrite (IH H).
Qed.

Lemma erase_insert k v m :
  StdMap.erase k (StdMap.insert k v m) = StdMap.erase k m.
Proof.
  induction m as [ | [k' v'] r IH]; simpl.
  - now rewrite String.eqb_refl.
  - destruct (k ?= k')%string eqn:C; simpl.
    + apply String.compare_eq_iff in C. subst k'.
      now rewrite String.eqb_refl.
    + now rewrite String.eqb_refl.
    + now rewrite IH.
Qed.

Lemma find_insert_same k v m : StdMap.find k (StdMap.insert k v m) = Some v.
Proof.
  induction m as [ | [k' v'] r IH]; simpl.
  - now rewrite String.eqb_refl.
  - destruct (k ?= k')%string eqn:C; simpl.
    + now rewrite String.eqb_refl.
    + now rewrite String.eqb_refl.
    + destruct (String.eqb_spec k k') as [-> | Hne]; [ | exact IH].
      now rewrite string_compare_refl in C.
Qed.

Lemma find_insert_other k k' v m :
  k' <> k -> StdMap.find k' (StdMap.insert k v m) = StdMap.find k' m.
Proof.
  intros Hne. induction m as [ | [k0 v0] r IH]; simpl.
  - destruct (String.eqb_spec k' k); [contradiction | reflexivity].
  - destruct (k ?= k0)%string eqn:C; simpl.
    + apply String.compare_eq_iff in C. subst k0.
      destruct (String.eqb_spec k' k); [contradiction | reflexivity].
    + destruct (String.eqb_spec k' k); [contradiction | reflexivity].
    + now rewrite IH.
Qed.

Lemma in_insert k v k' v' m :
  In (k', v') (StdMap.insert k v m) -> (k', v') = (k, v) \/ In (k', v') m.
Proof.
  induction m as [ | [k0 v0] r IH]; simpl.
  - intros [H | []]. now left.
  - destruct (k ?= k0)%string; simpl.
    + intros [H | H]; [now left | now right; right].
    + intros [H | [H | H]]; [now left | now right; left | now right; right].
    + intros [H | H]; [now right; left | ].
      destruct (IH H); [now left | now right; right].
Qed.

End ContainerFacts.

Section SetFacts.
Implicit Types (s : StdSet.t) (k : string).

Lemma set_count_insert k s : StdSet.count k (StdSet.insert k s) = true.
Proof.
  induction s as [ | k' r IH]; simpl.
  - now rewrite String.eqb_refl.
  - destruct (k ?= k')%string eqn:C; simpl.
    + apply String.compare_eq_iff in C. subst k'.
      now rewrite String.eqb_refl.
    + now rewrite String.eqb_refl.
    + rewrite IH. apply orb_true_r.
Qed.

Lemma set_count_insert_other k k' s :
  StdSet.count k' s = true -> StdSet.count k' (StdSet.insert k s) = true.
Proof.
  induction s as [ | k0 r IH]; simpl; [discriminate | ].
  destruct (k ?= k0)%string; simpl; intros H.
  - exact H.
  - rewrite H. apply orb_true_r.
  - apply orb_true_iff in H. destruct H as [H | H].
    + now rewrite H.
    + rewrite (IH H). apply orb_true_r.
Qed.

Lemma set_erase_absent k s :
  StdSet.count k s = false -> StdSet.erase k s = s.
Proof.
  induction s as [ | k' r IH]; simpl; [reflexivity | ].
  intros H. apply orb_false_iff in H. destruct H as [H1 H2].
  rewrite H1. simpl. now rewrite (IH H2).
Qed.

Lemma set_erase_insert k s :
  StdSet.count k s = false -> StdSet.erase k (StdSet.insert k s) = s.
Proof.
  induction s as [ | k' r IH]; simpl.
  - now rewrite String.eqb_refl.
  - intros H. apply orb_false_iff in H. destruct H as [H1 H2].
    destruct (k ?= k')%string eqn:C; simpl.
    + apply String.compare_eq_iff in C. subst k'.
      now rewrite String.eqb_refl in H1.
    + rewrite String.eqb_refl, H1. simpl.
      now rewrite (set_erase_absent _ _ H2).
    + rewrite H1. simpl. now rewrite (IH H2).
Qed.

Lemma set_count_erase_other k k' s :
  k' <> k -> StdSet.count k' (StdSet.erase k s) = StdSet.count k' s.
Proof.
  intros Hne. induction s as [ | k0 r IH]; simpl; [reflexivity | ].
  destruct (String.eqb_spec k k0) as [-> | Hk]; simpl.
  - destruct (String.eqb_spec k' k0); [contradiction | exact IH].
  - now rewrite IH.
Qed.

Lemma erase_first_absent k (l : list string) :
  ~ In k l -> erase_first k l = l.
Proof.
  induction l as [ | y r IH]; simpl; [reflexivity | ].
  intros H. destruct (String.eqb_spec y k) as [-> | Hne].
  - exfalso. apply H. now left.
  - rewrite IH; [reflexivity | ]. intros Hin. apply H. now right.
Qed.

Lemma erase_first_app_last k (l : list string) :
  ~ In k l -> erase_first k (l ++ [k]) = l.
Proof.
  induction l as [ | y r IH]; simpl.
  - now rewrite String.eqb_refl.
  - intros H. destruct (String.eqb_spec y k) as [-> | Hne].
    + exfalso. apply H. now left.
    + rewrite IH; [reflexivity | ]. intros Hin. apply H. now right.
Qed.

Lemma in_erase_first k x (l : list string) :
  In x (erase_first k l) -> In x l.
Proof.
  induction l as [ | y r IH]; simpl; [tauto | ].
  destruct (y =? k)%string; simpl; [tauto | ].
  intros [H | H]; [now left | right; now apply IH].
Qed.

Lemma in_erase_first_other k x (l : list string) :
  x <> k -> In x l -> In x (erase_first k l).
Proof.
  intros Hne. induction l as [ | y r IH]; simpl; [tauto | ].
  destruct (String.eqb_spec y k) as [-> | Hk]; simpl.
  - intros [H | H]; [congruence | exact H].
  - intros [H | H]; [now left | right; now apply IH].
Qed.

Lemma NoDup_erase_first k (l : list string) :
  NoDup l -> NoDup (erase_first k l) /\ ~ In k (erase_first k l).
Proof.
  induction l as [ | y r IH]; simpl; intros H.
  - split; [constructor | tauto].
  - inversion H as [ | ? ? Hy Hr]; subst.
    destruct (String.eqb_spec y k) as [-> | Hk].
    + now split.
    + destruct (IH Hr) as [IH1 IH2]. split.
      * constructor; [ | exact IH1].
        intros Hin. apply Hy. now apply in_erase_first in Hin.
      * intros [E | Hin]; [congruence | now apply IH2].
Qed.

(** [erase_first] splits the sequence at the first occurrence. *)
Lemma erase_first_split k (l : list string) :
  In k l ->
  exists l1 l2, l = l1 ++ k :: l2 /\ ~ In k l1 /\ erase_first k l = l1 ++ l2.
Proof.
  induction l as [ | y r IH]; simpl; [tauto | ].
  intros H. destruct (String.eqb_spec y k) as [-> | Hk].
  - exists [], r. simpl. tauto.
  - destruct H as [H | H]; [congruence | ].
    destruct (IH H) as (l1 & l2 & E1 & Hn & E2).
    exists (y :: l1), l2. simpl. rewrite E1 at 1. rewrite E2.
    repeat split; trivial. intros [E | Hin]; [congruence | tauto].
Qed.
End SetFacts.

(** ** The containers stay in key order *)

Section KeyOrder.

Lemma key_lt_trans (a b c : string) :
  (a ?= b)%string = Lt -> (b ?= c)%string = Lt -> (a ?= c)%string = Lt.
Proof.
  intros H1 H2. apply String_as_OT.cmp_lt.
  apply (String_as_OT.lt_trans a b c); now apply String_as_OT.cmp_lt.
Qed.

Lemma key_gt_lt (a b : string) :
  (a ?= b)%string = Gt -> (b ?= a)%string = Lt.
Proof.
  intros H. pose proof (String_as_OT.cmp_antisym b a) as E.
  unfold String_as_OT.cmp in E. rewrite H in E. exact E.
Qed.

Lemma ascending_cons_inv k l :
  ascending (k :: l) ->
  ascending l /\ forall z, In z l -> (k ?= z)%string = Lt.
Proof.
  intros H. inversion H as [ | ? ? Hl Hk]; subst.
  split; [exact Hl | ]. now apply Forall_forall.
Qed.

Lemma ascending_cons k l :
  ascending l -> (forall z, In z l -> (k ?= z)%string = Lt) ->
  ascending (k :: l).
Proof. intros Hl Hk. constructor; [exact Hl | now apply Forall_forall]. Qed.

Lemma map_insert_keys {V} k (v : V) (m : StdMap.t V) z :
  In z (StdMap.keys (StdMap.insert k v m)) -> z = k \/ In z (StdMap.keys m).
Proof.
  unfold StdMap.keys. rewrite in_map_iff. intros [[k' v'] [<- Hin]].
  apply in_insert in Hin. destruct Hin as [E | Hin].
  - left. now inversion E.
  - right. apply in_map_iff. now exists (k', v').
Qed.

Lemma map_insert_ascending {V} k (v : V) (m : StdMap.t V) :
  ascending (StdMap.keys m) -> ascending (StdMap.keys (StdMap.insert k v m)).
Proof.
  induction m as [ | [k' v'] r IH]; simpl; intros H.
  - apply ascending_cons; [constructor | intros z []].
  - destruct (ascending_cons_inv _ _ H) as [Hr Hk'].
    destruct (k ?= k')%string eqn:C; simpl.
    + apply String.compare_eq_iff in C. now subst k'.
    + apply ascending_cons; [exact H | ].
      intros z [<- | Hz]; [exact C | ].
      apply (key_lt_trans k k' z C). now apply Hk'.
    + apply ascending_cons; [now apply IH | ].
      intros z Hz. apply map_insert_keys in Hz.
      destruct Hz as [-> | Hz]; [now apply key_gt_lt | now apply Hk'].
Qed.

Lemma set_insert_in k (s : StdSet.t) z :
  In z (StdSet.insert k s) -> z = k \/ In z s.
Proof.
  induction s as [ | k' r IH]; simpl.
  - intros [<- | []]. now left.
  - destruct (k ?= k')%string; simpl.
    + tauto.
    + intros [<- | H]; [now left | now right].
    + intros [<- | H]; [right; now left | ].
      destruct (IH H); [now left | right; now right].
Qed.

Lemma set_insert_ascending k (s : StdSet.t) :
  ascending s -> ascending (StdSet.insert k s).
Proof.
  induction s as [ | k' r IH]; simpl; intros H.
  - apply ascending_cons; [constructor | intros z []].
  - destruct (ascending_cons_inv _ _ H) as [Hr Hk'].
    destruct (k ?= k')%string eqn:C; simpl.
    + exact H.
    + apply ascending_cons; [exact H | ].
      intros z [<- | Hz]; [exact C | ].
      apply (key_lt_trans k k' z C). now apply Hk'.
    + apply ascending_cons; [now apply IH | ].
      intros z Hz. apply set_insert_in in Hz.
      destruct Hz as [-> | Hz]; [now apply key_gt_lt | now apply Hk'].
Qed.

Lemma ascending_filter (f : string -> bool) l :
  ascending l -> ascending (filter f l).
Proof.
  induction l as [ | k r IH]; simpl; intros H; [constructor | ].
  destruct (ascending_cons_inv _ _ H) as [Hr Hk].
  destruct (f k); [ | now apply IH].
  apply ascending_cons; [now apply IH | ].
  intros z Hz. apply filter_In in Hz. now apply Hk.
Qed.

Lemma map_erase_ascending {V} k (m : StdMap.t V) :
  ascending (StdMap.keys m) -> ascending (StdMap.keys (StdMap.erase k m)).
Proof.
  assert (E : StdMap.keys (StdMap.erase k m) =
              filter (fun k' => negb (k =? k')%string) (StdMap.keys m)).
  { unfold StdMap.keys, StdMap.erase.
    induction m as [ | [k' v'] r IH]; simpl; [reflexivity | ].
    destruct (k =? k')%string; simpl; now rewrite IH. }
  rewrite E. apply ascending_filter.
Qed.
End KeyOrder.

(** ** Facts about the ledger operations *)

Section LedgerFacts.
Implicit Types (s : PayrollSystem) (e : Employee).

Lemma with_hoursWorked_same e : with_hoursWorked e (hoursWorked e) = e.
Proof. now destruct e. Qed.

Lemma with_errors_same s : with_errors s (errors s) = s.
Proof. now destruct s. Qed.

Lemma logErrors_eq s : logErrors s = (with_errors s [], errors s).
Proof.
  unfold logErrors. destruct (errors s) eqn:E; [ | reflexivity].
  rewrite <- E. now rewrite with_errors_same.
Qed.

(** *** The loop of [loadPayFile] *)

Lemma keys_set_hours k um h (emps : StdMap.t Employee) :
  registry_view (set_hours k um h emps) = registry_view emps.
Proof.
  unfold registry_view, set_hours. rewrite map_map.
  apply map_ext. intros [k' e']. simpl.
  now destruct (k =? k')%string.
Qed.

Lemma count_registry_view k (a b : StdMap.t Employee) :
  registry_view a = registry_view b -> StdMap.count k a = StdMap.count k b.
Proof.
  unfold StdMap.count. revert b.
  induction a as [ | [ka ea] ra IH]; intros [ | [kb eb] rb]; simpl;
    try discriminate; [reflexivity | ].
  intros [= -> _ _ _ Hr].
  destruct (k =? kb)%string; [reflexivity | now apply IH].
Qed.

Lemma find_set_hours k k' um h (emps : StdMap.t Employee) :
  StdMap.find k' (set_hours k um h emps) =
  option_map
    (fun e => if (k =? k')%string
              then with_hoursWorked e (StdMap.insert um h (hoursWorked e))
              else e)
    (StdMap.find k' emps).
Proof.
  induction emps as [ | [k0 e0] r IH]; simpl; [reflexivity | ].
  destruct (String.eqb_spec k k0) as [-> | Hk]; simpl.
  - destruct (String.eqb_spec k' k0) as [-> | Hk']; simpl.
    + now rewrite String.eqb_refl.
    + exact IH.
  - destruct (String.eqb_spec k' k0) as [-> | Hk']; simpl.
    + destruct (String.eqb_spec k k0); [contradiction | reflexivity].
    + exact IH.
Qed.

Lemma in_set_hours k um h (emps : StdMap.t Employee) k' e' :
  In (k', e') (set_hours k um h emps) ->
  exists e, In (k', e) emps /\
    (e' = e \/ e' = with_hoursWorked e (StdMap.insert um h (hoursWorked e))).
Proof.
  unfold set_hours. rewrite in_map_iff. intros [[k0 e0] [E Hin]].
  simpl in E. destruct (k =? k0)%string; inversion E; subst.
  - exists e0. split; [exact Hin | now right].
  - exists e'. split; [exact Hin | now left].
Qed.

Lemma loop_fields f um (lines : list PayLine) s :
  let s' := fold_left (loadPayFile_line f um) lines s in
  loadedPayFiles s' = loadedPayFiles s /\
  processedMonths s' = processedMonths s /\
  registry_view (employees s') = registry_view (employees s).
Proof.
  revert s. induction lines as [ | line r IH]; intros s; simpl.
  - tauto.
  - destruct (IH (loadPayFile_line f um s line)) as (H1 & H2 & H3).
    rewrite H1, H2, H3. unfold loadPayFile_line.
    destruct line as [[id0 h] | ]; [ | tauto].
    destruct (StdMap.count _ _); simpl; [ | tauto].
    now rewrite keys_set_hours.
Qed.

Lemma loop_errors f um (lines : list PayLine) s :
  errors (fold_left (loadPayFile_line f um) lines s) =
  errors s ++ unknown_errors f (employees s) (records lines).
Proof.
  revert s. induction lines as [ | line r IH]; intros s; simpl.
  - now rewrite app_nil_r.
  - rewrite IH. unfold loadPayFile_line at 1 2.
    destruct line as [[id0 h] | ]; simpl; [ | reflexivity].
    unfold unknown_errors at 2. simpl.
    destruct (StdMap.count (toUpper (trim id0)) (employees s)) eqn:C; simpl.
    + unfold unknown_errors. do 2 f_equal. apply filter_ext.
      intros [k hk]. simpl. f_equal. apply count_registry_view.
      apply keys_set_hours.
    + rewrite <- app_assoc. reflexivity.
Qed.

(** The hours map of the employee [k] after the records [recs]. *)
Lemma loop_find f um (lines : list PayLine) s k :
  StdMap.find k (employees (fold_left (loadPayFile_line f um) lines s)) =
  option_map
    (fun e =>
       with_hoursWorked e
         (fold_left (fun hw r => if (fst r =? k)%string
                                 then StdMap.insert um (snd r) hw else hw)
                    (records lines) (hoursWorked e)))
    (StdMap.find k (employees s)).
Proof.
  revert s. induction lines as [ | line r IH]; intros s; simpl.
  - destruct (StdMap.find k (employees s)); simpl; [ | reflexivity].
    now rewrite with_hoursWorked_same.
  - rewrite IH. unfold loadPayFile_line.
    destruct line as [[id0 h] | ]; simpl; [ | reflexivity].
    destruct (StdMap.count (toUpper (trim id0)) (employees s)) eqn:C; simpl.
    + rewrite find_set_hours.
      destruct (StdMap.find k (employees s)) as [e | ]; simpl; [ | reflexivity].
      now destruct (toUpper (trim id0) =? k)%string.
    + destruct (String.eqb_spec (toUpper (trim id0)) k) as [E | Hne];
        [ | reflexivity].
      subst k. apply count_false_find in C. now rewrite C.
Qed.

Lemma hours_after_month um k (recs : list (string * float)) hw h :
  last_hours k recs = Some h ->
  StdMap.find um
    (fold_left (fun hw r => if (fst r =? k)%string
                            then StdMap.insert um (snd r) hw else hw)
               recs hw) = Some h.
Proof.
  unfold last_hours. revert h.
  induction recs as [ | r recs IH] using rev_ind; intros h; simpl.
  - discriminate.
  - rewrite !fold_left_app. simpl. rewrite (string_eqb_sym k).
    destruct (fst r =? k)%string.
    + intros [= <-]. apply find_insert_same.
    + apply IH.
Qed.

Lemma hours_after_other um k (recs : list (string * float)) hw m :
  m <> um ->
  StdMap.find m
    (fold_left (fun hw r => if (fst r =? k)%string
                            then StdMap.insert um (snd r) hw else hw)
               recs hw) = StdMap.find m hw.
Proof.
  intros Hne. revert hw. induction recs as [ | r recs IH]; intros hw; simpl.
  - reflexivity.
  - rewrite IH. destruct (fst r =? k)%string; [ | reflexivity].
    now apply find_insert_other.
Qed.

(** *** [loadPayFile] once it reads the file *)

Lemma loadPayFile_read_some f um lines s :
  loadPayFile_read f um (Some lines) s =
  let s1 := fold_left (loadPayFile_line f um) lines s in
  mkLoadResult true um
    (mkPayrollSystem (employees s1)
       (StdSet.insert um (loadedPayFiles s))
       (processedMonths s ++ [um]) [])
    (errors s ++ unknown_errors f (employees s) (records lines)).
Proof.
  unfold loadPayFile_read. rewrite logErrors_eq. simpl.
  destruct (loop_fields f um lines s) as (H1 & H2 & _).
  simpl in H1, H2. rewrite H1, H2, loop_errors. reflexivity.
Qed.

Lemma loadPayFile_read_none f um s :
  loadPayFile_read f um None s =
  mkLoadResult false um (with_errors s [])
    (errors s ++ [(f, not_found_message f)]).
Proof.
  unfold loadPayFile_read. rewrite logErrors_eq. reflexivity.
Qed.

(** *** [removePayRecordsForMonth] *)

Lemma registry_view_remove month s :
  registry_view (employees (removePayRecordsForMonth month s)) =
  registry_view (employees s).
Proof.
  unfold removePayRecordsForMonth, registry_view. simpl.
  rewrite map_map. reflexivity.
Qed.

Lemma find_remove month s k :
  StdMap.find k (employees (removePayRecordsForMonth month s)) =
  option_map
    (fun e => with_hoursWorked e (StdMap.erase month (hoursWorked e)))
    (StdMap.find k (employees s)).
Proof.
  unfold removePayRecordsForMonth. simpl.
  induction (employees s) as [ | [k0 e0] r IH]; simpl; [reflexivity | ].
  destruct (k =? k0)%string; [reflexivity | exact IH].
Qed.

Lemma in_remove month s k e' :
  In (k, e') (employees (removePayRecordsForMonth month s)) <->
  exists e, In (k, e) (employees s) /\
            e' = with_hoursWorked e (StdMap.erase month (hoursWorked e)).
Proof.
  unfold removePayRecordsForMonth. simpl. rewrite in_map_iff. split.
  - intros [[k0 e0] [E Hin]]. inversion E; subst. now exists e0.
  - intros [e [Hin ->]]. now exists (k, e).
Qed.

Lemma remove_untouched month s :
  ~ In month (processedMonths s) ->
  (forall k e, In (k, e) (employees s) ->
               StdMap.find month (hoursWorked e) = None) ->
  removePayRecordsForMonth month s = s.
Proof.
  intros Hpm Hh. unfold removePayRecordsForMonth.
  rewrite (erase_first_absent _ _ Hpm).
  assert (E : map (fun pair =>
              (fst pair, with_hoursWorked (snd pair)
                 (StdMap.erase month (hoursWorked (snd pair)))))
              (employees s) = employees s).
  { rewrite <- (map_id (employees s)) at 2. apply map_ext_in.
    intros [k e] Hin. simpl.
    rewrite (erase_absent _ _ (Hh k e Hin)).
    now rewrite with_hoursWorked_same. }
  rewrite E. now destruct s.
Qed.
End LedgerFacts.

(** ** Invariants of the ledger *)

Section Invariants.
Implicit Types (s : PayrollSystem) (e : Employee).

Lemma count_insert_inv {V} k (v : V) m (hw : StdMap.t V) :
  StdMap.count m (StdMap.insert k v hw) = true ->
  m = k \/ StdMap.count m hw = true.
Proof.
  destruct (String.eqb_spec m k) as [-> | Hne]; [now left | ].
  unfold StdMap.count. rewrite (find_insert_other _ _ _ _ Hne). now right.
Qed.

Lemma count_erase_inv {V} k m (hw : StdMap.t V) :
  StdMap.count m (StdMap.erase k hw) = true ->
  m <> k /\ StdMap.count m hw = true.
Proof.
  unfold StdMap.count. destruct (String.eqb_spec m k) as [-> | Hne].
  - now rewrite find_erase_same.
  - rewrite (find_erase_other _ _ _ Hne). now split.
Qed.

Lemma NoDup_app_last (x : string) (l : list string) :
  NoDup l -> ~ In x l -> NoDup (l ++ [x]).
Proof.
  intros Hl Hx. apply (Permutation_NoDup (l := x :: l)).
  - apply Permutation_cons_append.
  - now constructor.
Qed.

(** Where the hours of a record come from, after the loop. *)
Lemma loop_in f um (lines : list PayLine) s k e' :
  In (k, e') (employees (fold_left (loadPayFile_line f um) lines s)) ->
  exists e, In (k, e) (employees s) /\
    forall m, StdMap.count m (hoursWorked e') = true ->
              m = um \/ StdMap.count m (hoursWorked e) = true.
Proof.
  revert s. induction lines as [ | line r IH]; intros s; simpl.
  - intros H. exists e'. split; [exact H | now right].
  - intros H. destruct (IH _ H) as (e1 & Hin1 & Hm1). clear IH H.
    unfold loadPayFile_line in Hin1.
    destruct line as [[id0 h] | ]; [ | now exists e1].
    destruct (StdMap.count _ _); simpl in Hin1; [ | now exists e1].
    destruct (in_set_hours _ _ _ _ _ _ Hin1) as (e & Hin & [-> | ->]).
    + now exists e.
    + exists e. split; [exact Hin | ].
      intros m Hm. destruct (Hm1 m Hm) as [-> | Hc]; [now left | ].
      simpl in Hc. now apply count_insert_inv in Hc.
Qed.

Lemma hours_are_processed_loadEmployees fin s :
  hours_are_processed s -> hours_are_processed (snd (loadEmployees fin s)).
Proof.
  destruct fin as [lines | ]; simpl; [ | trivial].
  revert s. induction lines as [ | line r IH]; intros s H; simpl.
  - exact H.
  - apply IH. unfold loadEmployees_line.
    destruct line as [[[id0 name0] rate] | ]; [ | exact H].
    intros k e m Hin Hc. simpl in Hin.
    apply in_insert in Hin. destruct Hin as [E | Hin].
    + inversion E; subst. discriminate Hc.
    + exact (H k e m Hin Hc).
Qed.

Lemma loadEmployees_fields fin s :
  loadedPayFiles (snd (loadEmployees fin s)) = loadedPayFiles s /\
  processedMonths (snd (loadEmployees fin s)) = processedMonths s /\
  errors (snd (loadEmployees fin s)) = errors s.
Proof.
  destruct fin as [lines | ]; simpl; [ | tauto].
  revert s. induction lines as [ | line r IH]; intros s; simpl.
  - tauto.
  - destruct (IH (loadEmployees_line s line)) as (H1 & H2 & H3).
    rewrite H1, H2, H3.
    now destruct line as [[[id0 name0] rate] | ].
Qed.

Lemma hours_are_processed_remove month s :
  hours_are_processed s ->
  hours_are_processed (removePayRecordsForMonth month s).
Proof.
  intros H k e' m Hin Hc.
  apply in_remove in Hin. destruct Hin as (e & Hin & ->).
  simpl in Hc. apply count_erase_inv in Hc. destruct Hc as [Hne Hc].
  simpl. apply in_erase_first_other; [exact Hne | ].
  exact (H k e m Hin Hc).
Qed.

Lemma hours_are_processed_read f um fin s :
  hours_are_processed s ->
  hours_are_processed (ledger (loadPayFile_read f um fin s)).
Proof.
  intros H. destruct fin as [lines | ].
  - rewrite loadPayFile_read_some. simpl. intros k e' m Hin Hc.
    simpl in Hin. destruct (loop_in _ _ _ _ _ _ Hin) as (e & Hin0 & Hm).
    simpl. apply in_or_app. destruct (Hm m Hc) as [-> | Hc0].
    + right. now left.
    + left. exact (H k e m Hin0 Hc0).
  - rewrite loadPayFile_read_none. simpl. exact H.
Qed.

Lemma errors_read f um fin s :
  errors (ledger (loadPayFile_read f um fin s)) = [].
Proof.
  destruct fin as [lines | ].
  - now rewrite loadPayFile_read_some.
  - now rewrite loadPayFile_read_none.
Qed.

Lemma ledger_invariant_perform s op :
  ledger_invariant s -> ledger_invariant (perform s op).
Proof.
  intros [Hh He]. destruct op as [fin | f replace choice fin | month]; simpl.
  - split; [now apply hours_are_processed_loadEmployees | ].
    destruct (loadEmployees_fields fin s) as (_ & _ & E). now rewrite E.
  - unfold loadPayFile.
    destruct (StdSet.count _ _ && negb replace).
    + destruct (choice =? Inputs.YES)%char; [ | now split].
      split; [ | apply errors_read].
      apply hours_are_processed_read.
      intros k e m Hin Hc.
      exact (hours_are_processed_remove _ _ Hh k e m Hin Hc).
    + split; [now apply hours_are_processed_read | apply errors_read].
  - split; [now apply hours_are_processed_remove | exact He].
Qed.

Lemma ledger_invariant_perform_all ops s :
  ledger_invariant s -> ledger_invariant (perform_all ops s).
Proof.
  revert s. induction ops as [ | op r IH]; intros s H; simpl; [exact H | ].
  apply IH. now apply ledger_invariant_perform.
Qed.

Lemma ledger_invariant_new : ledger_invariant newPayrollSystem.
Proof. split; [ | reflexivity]. intros k e m []. Qed.

Lemma reachable_ledger_invariant s : reachable s -> ledger_invariant s.
Proof.
  intros [ops ->]. apply ledger_invariant_perform_all.
  exact ledger_invariant_new.
Qed.

Lemma months_invariant_read f um fin s :
  months_invariant s -> ~ In um (processedMonths s) ->
  months_invariant (ledger (loadPayFile_read f um fin s)).
Proof.
  intros ([Hh He] & Hnd & Hl) Hnot.
  split; [split; [now apply hours_are_processed_read | apply errors_read] | ].
  destruct fin as [lines | ].
  - rewrite loadPayFile_read_some. simpl. split.
    + now apply NoDup_app_last.
    + intros m Hin. apply in_app_or in Hin. destruct Hin as [Hin | [<- | []]].
      * apply set_count_insert_other. now apply Hl.
      * apply set_count_insert.
  - rewrite loadPayFile_read_none. simpl. now split.
Qed.

Lemma months_invariant_perform s op :
  uses_default_replace op = true ->
  months_invariant s -> months_invariant (perform s op).
Proof.
  intros Hd Hinv. pose proof Hinv as ([Hh He] & Hnd & Hl).
  destruct op as [fin | f replace choice fin | month]; simpl.
  - destruct (loadEmployees_fields fin s) as (E1 & E2 & E3).
    split; [split | ].
    + now apply hours_are_processed_loadEmployees.
    + now rewrite E3.
    + rewrite E1, E2. now split.
  - simpl in Hd. destruct replace; [discriminate | ].
    unfold loadPayFile. rewrite andb_true_r.
    set (um := toUpper (month_of_filename f)).
    destruct (StdSet.count um (loadedPayFiles s)) eqn:C.
    + destruct (choice =? Inputs.YES)%char; [ | exact Hinv].
      destruct (NoDup_erase_first um _ Hnd) as [Hnd' Hnot'].
      apply months_invariant_read; [ | exact Hnot'].
      split; [split | split].
      * intros k e m Hin Hc.
        exact (hours_are_processed_remove _ _ Hh k e m Hin Hc).
      * exact He.
      * exact Hnd'.
      * simpl. intros m Hin.
        assert (Hne : m <> um) by (intros ->; now apply Hnot').
        rewrite (set_count_erase_other _ _ _ Hne).
        apply Hl. now apply in_erase_first in Hin.
    + apply months_invariant_read; [exact Hinv | ].
      intros Hin. apply Hl in Hin. congruence.
  - split; [split | split].
    + now apply hours_are_processed_remove.
    + exact He.
    + apply (NoDup_erase_first month _ Hnd).
    + simpl. intros m Hin. apply Hl. now apply in_erase_first in Hin.
Qed.

Lemma months_invariant_perform_all ops s :
  forallb uses_default_replace ops = true ->
  months_invariant s -> months_invariant (perform_all ops s).
Proof.
  revert s. induction ops as [ | op r IH]; intros s Hd H; simpl; [exact H | ].
  simpl in Hd. apply andb_true_iff in Hd. destruct Hd as [Hd1 Hd2].
  apply IH; [exact Hd2 | ]. now apply months_invariant_perform.
Qed.

(** *** Well-formed containers *)

Lemma keys_registry_view (m : StdMap.t Employee) :
  StdMap.keys m = map fst (registry_view m).
Proof. unfold StdMap.keys, registry_view. now rewrite map_map. Qed.

Lemma well_formed_loadEmployees fin s :
  well_formed s -> well_formed (snd (loadEmployees fin s)).
Proof.
  destruct fin as [lines | ]; simpl; [ | trivial].
  revert s. induction lines as [ | line r IH]; intros s H; simpl; [exact H | ].
  apply IH. destruct H as (He & Hl & Hk). unfold loadEmployees_line.
  destruct line as [[[id0 name0] rate] | ]; [ | now split].
  split; [now apply map_insert_ascending | ]. split; [exact Hl | ].
  intros k e Hin. simpl in Hin. apply in_insert in Hin.
  destruct Hin as [E | Hin]; [ | now apply Hk].
  inversion E; subst. split; [reflexivity | constructor].
Qed.

Lemma well_formed_remove month s :
  well_formed s -> well_formed (removePayRecordsForMonth month s).
Proof.
  intros (He & Hl & Hk). split; [ | split].
  - now rewrite keys_registry_view, registry_view_remove, <- keys_registry_view.
  - exact Hl.
  - intros k e' Hin. apply in_remove in Hin. destruct Hin as (e & Hin & ->).
    destruct (Hk k e Hin) as [Hid Hh]. split; [exact Hid | ].
    simpl. now apply map_erase_ascending.
Qed.

Lemma well_formed_loop f um (lines : list PayLine) s :
  well_formed s -> well_formed (fold_left (loadPayFile_line f um) lines s).
Proof.
  revert s. induction lines as [ | line r IH]; intros s H; simpl; [exact H | ].
  apply IH. destruct H as (He & Hl & Hk). unfold loadPayFile_line.
  destruct line as [[id0 h] | ]; [ | now split].
  destruct (StdMap.count _ _); [ | now split].
  split; [ | split; [exact Hl | ]].
  - simpl. now rewrite keys_registry_view, keys_set_hours, <- keys_registry_view.
  - intros k e' Hin. simpl in Hin.
    destruct (in_set_hours _ _ _ _ _ _ Hin) as (e & Hin0 & [-> | ->]).
    + now apply Hk.
    + destruct (Hk k e Hin0) as [Hid Hh]. split; [exact Hid | ].
      simpl. now apply map_insert_ascending.
Qed.

Lemma well_formed_read f um fin s :
  well_formed s -> well_formed (ledger (loadPayFile_read f um fin s)).
Proof.
  intros H. destruct fin as [lines | ].
  - rewrite loadPayFile_read_some. simpl.
    destruct (well_formed_loop f um lines s H) as (He & _ & Hk).
    destruct H as (_ & Hl & _).
    split; [exact He | ]. split; [now apply set_insert_ascending | exact Hk].
  - rewrite loadPayFile_read_none. exact H.
Qed.

Lemma well_formed_perform s op :
  well_formed s -> well_formed (perform s op).
Proof.
  intros H. destruct op as [fin | f replace choice fin | month]; simpl.
  - now apply well_formed_loadEmployees.
  - unfold loadPayFile. destruct (StdSet.count _ _ && negb replace).
    + destruct (choice =? Inputs.YES)%char; [ | exact H].
      apply well_formed_read.
      destruct (well_formed_remove (toUpper (month_of_filename f)) s H)
        as (He & Hl & Hk).
      split; [exact He | ]. split; [ | exact Hk].
      simpl. now apply ascending_filter.
    + now apply well_formed_read.
  - now apply well_formed_remove.
Qed.

Lemma well_formed_new : well_formed newPayrollSystem.
Proof.
  split; [constructor | ]. split; [constructor | intros k e []].
Qed.

Lemma reachable_well_formed s : reachable s -> well_formed s.
Proof.
  intros [ops ->]. generalize well_formed_new.
  generalize newPayrollSystem as s.
  induction ops as [ | op r IH]; intros s H; simpl; [exact H | ].
  apply IH. now apply well_formed_perform.
Qed.

(** A month that is not marked as loaded has left no trace. *)
Lemma unprocessed_month_is_untouched month s :
  months_invariant s ->
  StdSet.count month (loadedPayFiles s) = false ->
  month_untouched month s.
Proof.
  intros ([Hh _] & _ & Hl) Hc.
  assert (Hnot : ~ In month (processedMonths s)).
  { intros Hin. apply Hl in Hin. congruence. }
  split; [exact Hc | ]. split; [exact Hnot | ].
  intros k e Hin. apply count_false_find.
  destruct (StdMap.count month (hoursWorked e)) eqn:C; [ | reflexivity].
  exfalso. apply Hnot. exact (Hh k e month Hin C).
Qed.

Lemma months_invariant_new : months_invariant newPayrollSystem.
Proof.
  split; [exact ledger_invariant_new | ].
  split; [constructor | intros m []].
Qed.
End Invariants.

(** ** Pay-file ingestion *)

Section IngestionClaims.
Implicit Types (s : PayrollSystem) (e : Employee).
Local Open Scope string_scope.

Lemma unknown_errors_ext f (a b : StdMap.t Employee) recs :
  registry_view a = registry_view b ->
  unknown_errors f a recs = unknown_errors f b recs.
Proof.
  intros H. unfold unknown_errors. f_equal. apply filter_ext.
  intros r. f_equal. now apply count_registry_view.
Qed.

(** A successful ingestion marks its month as processed, so that the
    next ingestion of that month asks. *)
Lemma loadPayFile_marks_month f replace choice fin s :
  returned (loadPayFile f replace choice fin s) = true ->
  StdSet.count (toUpper (month_of_filename f))
    (loadedPayFiles (ledger (loadPayFile f replace choice fin s))) = true.
Proof.
  unfold loadPayFile.
  destruct (StdSet.count _ _ && negb replace).
  - destruct (choice =? Inputs.YES)%char; [ | discriminate].
    destruct fin as [lines | ].
    + rewrite loadPayFile_read_some. intros _. apply set_count_insert.
    + rewrite loadPayFile_read_none. discriminate.
  - destruct fin as [lines | ].
    + rewrite loadPayFile_read_some. intros _. apply set_count_insert.
    + rewrite loadPayFile_read_none. discriminate.
Qed.

(** C4.  When the month has been processed and the answer to the replace
    question is not yes, [loadPayFile] returns false, logs nothing and
    leaves the ledger as it is; hence, after a successful ingestion of a
    month, a second ingestion of that month whose replacement is declined
    leaves the ledger as the first left it. *)
Theorem declined_replace_changes_nothing :
  (forall s filename choice fin,
      StdSet.count (toUpper (month_of_filename filename)) (loadedPayFiles s)
        = true ->
      choice <> Inputs.YES ->
      loadPayFile filename false choice fin s =
        mkLoadResult false (toUpper (month_of_filename filename)) s []) /\
  (forall s f1 replace1 choice1 fin1 f2 choice2 fin2,
      returned (loadPayFile f1 replace1 choice1 fin1 s) = true ->
      toUpper (month_of_filename f2) = toUpper (month_of_filename f1) ->
      choice2 <> Inputs.YES ->
      ledger (loadPayFile f2 false choice2 fin2
                (ledger (loadPayFile f1 replace1 choice1 fin1 s))) =
      ledger (loadPayFile f1 replace1 choice1 fin1 s)).
Proof.
  assert (E : forall s filename choice fin,
      StdSet.count (toUpper (month_of_filename filename)) (loadedPayFiles s)
        = true ->
      choice <> Inputs.YES ->
      loadPayFile filename false choice fin s =
        mkLoadResult false (toUpper (month_of_filename filename)) s []).
  { intros s filename choice fin Hc Hn.
    unfold loadPayFile. rewrite Hc. simpl.
    destruct (Ascii.eqb_spec choice Inputs.YES); [contradiction | reflexivity]. }
  split; [exact E | ].
  intros s f1 replace1 choice1 fin1 f2 choice2 fin2 Hret Hm Hn.
  rewrite E; [reflexivity | | exact Hn].
  rewrite Hm. now apply loadPayFile_marks_month.
Qed.

Lemma declined_replace_at_one_month :
  loadPayFile "JAN25.txt" false Inputs.NO (Some jan25_file_v2) one_month =
    mkLoadResult false "JAN25" one_month [] /\
  ledger (loadPayFile "JAN25.txt" false Inputs.NO (Some jan25_file_v2)
            (ledger (loadPayFile "jan25.txt" false Inputs.NO
                       (Some jan25_file) staff_only))) =
  ledger (loadPayFile "jan25.txt" false Inputs.NO (Some jan25_file) staff_only).
Proof.
  split.
  - apply (proj1 declined_replace_changes_nothing one_month "JAN25.txt"
             Inputs.NO (Some jan25_file_v2)).
    + reflexivity.
    + discriminate.
  - apply (proj2 declined_replace_changes_nothing staff_only "jan25.txt"
             false Inputs.NO (Some jan25_file) "JAN25.txt" Inputs.NO
             (Some jan25_file_v2)).
    + reflexivity.
    + reflexivity.
    + discriminate.
Defined.

(** What the loop does, from any ledger. *)
Lemma loadPayFile_read_known f um lines s k h :
  StdMap.count k (employees s) = true ->
  last_hours k (records lines) = Some h ->
  exists e',
    StdMap.find k
      (employees (ledger (loadPayFile_read f um (Some lines) s))) = Some e' /\
    StdMap.find um (hoursWorked e') = Some h.
Proof.
  intros Hc Hl. rewrite loadPayFile_read_some. simpl. rewrite loop_find.
  apply count_find in Hc. destruct Hc as [e He]. rewrite He. simpl.
  eexists. split; [reflexivity | ]. simpl. now apply hours_after_month.
Qed.

Lemma loadPayFile_read_other f um lines s k e' m :
  StdMap.find k
    (employees (ledger (loadPayFile_read f um (Some lines) s))) = Some e' ->
  m <> um ->
  exists e, StdMap.find k (employees s) = Some e /\
            StdMap.find m (hoursWorked e') = StdMap.find m (hoursWorked e).
Proof.
  rewrite loadPayFile_read_some. simpl. rewrite loop_find.
  destruct (StdMap.find k (employees s)) as [e | ]; simpl; [ | discriminate].
  intros [= <-] Hne. exists e. split; [reflexivity | ].
  simpl. now apply hours_after_other.
Qed.

(** C6.  In an ingestion that reads the file, every record whose
    normalised identifier is not in the registry adds exactly one error
    to those written to the log, in file order, and the registry keeps
    its records (no record is created, none changes identifier, name or
    rate); the lines after it are still read; and an employee named by
    a record has, for the month, the hours of the last such record
    (overwritten, not accumulated), the other months being untouched. *)
Theorem unknown_identifiers_are_reported :
  forall s filename replace choice lines,
    returned (loadPayFile filename replace choice (Some lines) s) = true ->
    let um := toUpper (month_of_filename filename) in
    let r := loadPayFile filename replace choice (Some lines) s in
    logged r =
      (errors s ++ unknown_errors filename (employees s) (records lines))%list /\
    registry_view (employees (ledger r)) = registry_view (employees s) /\
    (forall k h,
        StdMap.count k (employees s) = true ->
        last_hours k (records lines) = Some h ->
        exists e', StdMap.find k (employees (ledger r)) = Some e' /\
                   StdMap.find um (hoursWorked e') = Some h) /\
    (forall k e' m,
        StdMap.find k (employees (ledger r)) = Some e' ->
        m <> um ->
        exists e, StdMap.find k (employees s) = Some e /\
                  StdMap.find m (hoursWorked e') = StdMap.find m (hoursWorked e)).
Proof.
  intros s filename replace choice lines Hret um r.
  subst r. unfold loadPayFile in *. fold um in Hret. fold um.
  destruct (StdSet.count um (loadedPayFiles s) && negb replace).
  - destruct (choice =? Inputs.YES)%char; [ | discriminate Hret].
    set (s2 := with_loadedPayFiles (removePayRecordsForMonth um s)
                 (StdSet.erase um
                    (loadedPayFiles (removePayRecordsForMonth um s)))).
    assert (Hreg : registry_view (employees s2) = registry_view (employees s))
      by apply registry_view_remove.
    split; [ | split; [ | split]].
    + rewrite loadPayFile_read_some. simpl.
      now rewrite (unknown_errors_ext _ _ _ _ Hreg).
    + rewrite loadPayFile_read_some. simpl.
      destruct (loop_fields filename um lines s2) as (_ & _ & H3).
      simpl in H3. now rewrite H3.
    + intros k h Hc Hl. apply loadPayFile_read_known; [ | exact Hl].
      now rewrite (count_registry_view k _ _ Hreg).
    + intros k e' m Hf Hne.
      destruct (loadPayFile_read_other _ _ _ _ _ _ m Hf Hne) as (e2 & He2 & Hm).
      unfold s2 in He2. simpl in He2.
      change (StdMap.find k (employees (removePayRecordsForMonth um s))
              = Some e2) in He2.
      rewrite find_remove in He2.
      destruct (StdMap.find k (employees s)) as [e | ]; [ | discriminate].
      simpl in He2. injection He2 as <-. exists e. split; [reflexivity | ].
      rewrite Hm. simpl. now apply find_erase_other.
  - split; [ | split; [ | split]].
    + now rewrite loadPayFile_read_some.
    + rewrite loadPayFile_read_some. simpl.
      now destruct (loop_fields filename um lines s) as (_ & _ & H3).
    + intros k h Hc Hl. now apply loadPayFile_read_known.
    + intros k e' m Hf Hne. now apply (loadPayFile_read_other _ _ _ _ _ _ m Hf).
Qed.

(** The example of the specification: one unknown identifier, "ZZZ",
    gives one error and no new record; E1 ends with the hours of its
    last record. *)
Lemma unknown_identifiers_at_zzz :
  let r := loadPayFile "jan25.txt" false Inputs.NO (Some jan25_file_zzz)
             staff_only in
  returned r = true /\
  logged r = [("jan25.txt", "ZZZ is not a valid employee ID number.")] /\
  registry_view (employees (ledger r)) = registry_view (employees staff_only) /\
  exists e', StdMap.find "E1" (employees (ledger r)) = Some e' /\
             StdMap.find "JAN25" (hoursWorked e') = Some 120%float.
Proof.
  pose proof (unknown_identifiers_are_reported staff_only "jan25.txt" false
                Inputs.NO jan25_file_zzz eq_refl) as (H1 & H2 & H3 & _).
  split; [reflexivity | ].
  split; [exact H1 | ].
  split; [exact H2 | ].
  apply (H3 "E1" 120%float); reflexivity.
Defined.
End IngestionClaims.

(** ** Month removal *)

Section RemovalClaims.
Implicit Types (s : PayrollSystem) (e : Employee).
Local Open Scope string_scope.

(** C5.  [removePayRecordsForMonth] keeps the registry, leaves no
    employee with an entry for the month (an employee without one is
    kept as it is, and the other months of every employee are kept),
    takes the first occurrence of the month out of the processed-months
    sequence when there is one (so the month is gone from a sequence
    without duplicates) and leaves the sequence alone otherwise, and
    touches nothing else; on a ledger the program can reach, the removal
    of a month that is not in the processed-months sequence changes
    nothing at all. *)
Theorem removePayRecordsForMonth_clears_month :
  forall s month,
    let s' := removePayRecordsForMonth month s in
    registry_view (employees s') = registry_view (employees s) /\
    (forall k e', In (k, e') (employees s') ->
                  StdMap.find month (hoursWorked e') = None) /\
    (forall k e, In (k, e) (employees s) ->
                 StdMap.find month (hoursWorked e) = None ->
                 In (k, e) (employees s')) /\
    (forall k e' m,
        StdMap.find k (employees s') = Some e' -> m <> month ->
        exists e, StdMap.find k (employees s) = Some e /\
                  StdMap.find m (hoursWorked e') = StdMap.find m (hoursWorked e)) /\
    (In month (processedMonths s) ->
     exists l1 l2,
       processedMonths s = (l1 ++ month :: l2)%list /\
       ~ In month l1 /\
       processedMonths s' = (l1 ++ l2)%list) /\
    (~ In month (processedMonths s) ->
     processedMonths s' = processedMonths s) /\
    (NoDup (processedMonths s) -> ~ In month (processedMonths s')) /\
    loadedPayFiles s' = loadedPayFiles s /\
    errors s' = errors s /\
    (reachable s -> ~ In month (processedMonths s) -> s' = s).
Proof.
  intros s month s'. subst s'.
  split; [apply registry_view_remove | ].
  split.
  { intros k e' Hin. apply in_remove in Hin. destruct Hin as (e & _ & ->).
    simpl. apply find_erase_same. }
  split.
  { intros k e Hin Hnone. apply in_remove. exists e. split; [exact Hin | ].
    rewrite (erase_absent _ _ Hnone). now rewrite with_hoursWorked_same. }
  split.
  { intros k e' m Hf Hne. rewrite find_remove in Hf.
    destruct (StdMap.find k (employees s)) as [e | ]; [ | discriminate].
    simpl in Hf. injection Hf as <-. exists e. split; [reflexivity | ].
    simpl. now apply find_erase_other. }
  split; [apply erase_first_split | ].
  split; [apply erase_first_absent | ].
  split; [intros Hnd; apply (NoDup_erase_first month _ Hnd) | ].
  split; [reflexivity | ].
  split; [reflexivity | ].
  intros Hr Hnot. apply remove_untouched; [exact Hnot | ].
  intros k e Hin. apply count_false_find.
  destruct (StdMap.count month (hoursWorked e)) eqn:C; [ | reflexivity].
  exfalso. apply Hnot.
  destruct (reachable_ledger_invariant s Hr) as [Hh _].
  exact (Hh k e month Hin C).
Qed.

Lemma two_months_reachable : reachable two_months.
Proof. eexists. reflexivity. Qed.

Lemma removal_of_unprocessed_month_at_two_months :
  reachable two_months /\
  ~ In "MAR25" (processedMonths two_months) /\
  removePayRecordsForMonth "MAR25" two_months = two_months.
Proof.
  assert (Hn : ~ In "MAR25" (processedMonths two_months)).
  { simpl. intros [H | [H | []]]; discriminate H. }
  split; [exact two_months_reachable | ].
  split; [exact Hn | ].
  apply (removePayRecordsForMonth_clears_month two_months "MAR25");
    [exact two_months_reachable | exact Hn].
Defined.
End RemovalClaims.

(** ** Replacing a processed month *)

Section ReplaceClaims.
Implicit Types (s : PayrollSystem) (e : Employee).
Local Open Scope string_scope.
Local Open Scope float_scope.

Lemma loop_then_erase f um (lines : list PayLine) s :
  map (fun pair =>
         (fst pair, with_hoursWorked (snd pair)
                      (StdMap.erase um (hoursWorked (snd pair)))))
      (employees (fold_left (loadPayFile_line f um) lines s)) =
  map (fun pair =>
         (fst pair, with_hoursWorked (snd pair)
                      (StdMap.erase um (hoursWorked (snd pair)))))
      (employees s).
Proof.
  revert s. induction lines as [ | line r IH]; intros s; simpl.
  - reflexivity.
  - rewrite IH. unfold loadPayFile_line.
    destruct line as [[id0 h] | ]; [ | reflexivity].
    destruct (StdMap.count _ _); simpl; [ | reflexivity].
    unfold set_hours. rewrite map_map. apply map_ext.
    intros [k e]. simpl. destruct (_ =? k)%string; simpl; [ | reflexivity].
    unfold with_hoursWorked. simpl. now rewrite erase_insert.
Qed.

(** An ingestion of an untouched month, followed by the removal of the
    month, gives the ledger back. *)
Lemma remove_after_first_ingestion f um lines s :
  month_untouched um s -> errors s = [] ->
  with_loadedPayFiles
    (removePayRecordsForMonth um
       (ledger (loadPayFile_read f um (Some lines) s)))
    (StdSet.erase um
       (loadedPayFiles
          (removePayRecordsForMonth um
             (ledger (loadPayFile_read f um (Some lines) s))))) = s.
Proof.
  intros (Hl & Hp & Hh) He. rewrite loadPayFile_read_some. simpl.
  unfold removePayRecordsForMonth, with_loadedPayFiles,
    with_processedMonths, with_employees. simpl.
  rewrite loop_then_erase, (erase_first_app_last _ _ Hp),
    (set_erase_insert _ _ Hl).
  assert (E : map (fun pair =>
              (fst pair, with_hoursWorked (snd pair)
                 (StdMap.erase um (hoursWorked (snd pair)))))
              (employees s) = employees s).
  { rewrite <- (map_id (employees s)) at 2. apply map_ext_in.
    intros [k e] Hin. simpl.
    rewrite (erase_absent _ _ (Hh k e Hin)).
    now rewrite with_hoursWorked_same. }
  rewrite E. destruct s. simpl in *. now subst.
Qed.

(** After a first ingestion of a month the ledger holds no trace of, a
    second ingestion of the month with the replacement confirmed gives,
    in every component of the result, what the second ingestion alone
    gives on the ledger before the first. *)
Lemma confirmed_replace_on_untouched_month
  s f1 replace1 choice1 lines1 f2 choice2 fin2 :
  toUpper (month_of_filename f2) = toUpper (month_of_filename f1) ->
  month_untouched (toUpper (month_of_filename f1)) s ->
  errors s = [] ->
  loadPayFile f2 false Inputs.YES fin2
    (ledger (loadPayFile f1 replace1 choice1 (Some lines1) s)) =
  loadPayFile f2 false choice2 fin2 s.
Proof.
  intros Hm Hu He.
  pose proof Hu as (Hl & _ & _).
  set (um := toUpper (month_of_filename f1)) in *.
  assert (E1 : loadPayFile f1 replace1 choice1 (Some lines1) s =
               loadPayFile_read f1 um (Some lines1) s).
  { unfold loadPayFile. fold um. now rewrite Hl. }
  rewrite E1. unfold loadPayFile at 1. rewrite Hm. fold um.
  assert (C : StdSet.count um
                (loadedPayFiles
                   (ledger (loadPayFile_read f1 um (Some lines1) s))) = true).
  { rewrite loadPayFile_read_some. simpl. apply set_count_insert. }
  rewrite C. change (true && negb false) with true. cbv iota.
  rewrite Ascii.eqb_refl. cbv zeta.
  rewrite (remove_after_first_ingestion f1 um lines1 s Hu He).
  unfold loadPayFile. rewrite Hm. fold um. now rewrite Hl.
Qed.

(** X1.  The path of [loadPayFile] that asks and is answered yes
    replaces cleanly: on a ledger the program can reach (with [replace]
    left at its default) and a month not yet processed, ingesting a
    first file for the month and then a second one with the replacement
    confirmed gives, in every component of the result, what ingesting the
    second file alone gives. *)
Theorem confirmed_replace_is_clean :
  forall ops f1 replace1 choice1 lines1 f2 choice2 fin2,
    forallb uses_default_replace ops = true ->
    StdSet.count (toUpper (month_of_filename f1))
      (loadedPayFiles (perform_all ops newPayrollSystem)) = false ->
    toUpper (month_of_filename f2) = toUpper (month_of_filename f1) ->
    loadPayFile f2 false Inputs.YES fin2
      (ledger (loadPayFile f1 replace1 choice1 (Some lines1)
                 (perform_all ops newPayrollSystem))) =
    loadPayFile f2 false choice2 fin2 (perform_all ops newPayrollSystem).
Proof.
  intros ops f1 replace1 choice1 lines1 f2 choice2 fin2 Hd Hc Hm.
  pose proof (months_invariant_perform_all ops _ Hd months_invariant_new)
    as Hinv.
  apply confirmed_replace_on_untouched_month.
  - exact Hm.
  - now apply unprocessed_month_is_untouched.
  - now destruct Hinv as ([_ He] & _).
Qed.

Lemma confirmed_replace_at_staff_only :
  loadPayFile "JAN25.txt" false Inputs.YES (Some jan25_file_v2)
    (ledger (loadPayFile "jan25.txt" false Inputs.NO (Some jan25_file)
               staff_only)) =
  loadPayFile "JAN25.txt" false Inputs.NO (Some jan25_file_v2) staff_only.
Proof.
  apply (confirmed_replace_is_clean [OpLoadEmployees (Some staff_file)]
           "jan25.txt" false Inputs.NO jan25_file "JAN25.txt" Inputs.NO
           (Some jan25_file_v2)); reflexivity.
Defined.

(** C2, on the code.  Called with [replace = true] on a processed
    month, [loadPayFile] asks nothing and removes nothing: Bob, absent
    from the second January file, keeps the 172 hours of the first, and
    JAN25 is twice in the processed months; the second file alone gives
    Bob no hours and one JAN25. *)
Theorem replace_true_leaves_residue :
  let again :=
    loadPayFile "jan25.txt" true Inputs.NO (Some jan25_file_v2) one_month in
  let alone :=
    loadPayFile "jan25.txt" true Inputs.NO (Some jan25_file_v2) staff_only in
  returned again = true /\
  returned alone = true /\
  option_map hoursWorked (StdMap.find "E2" (employees (ledger again)))
    = Some [("JAN25", 172)] /\
  option_map hoursWorked (StdMap.find "E2" (employees (ledger alone)))
    = Some [] /\
  processedMonths (ledger again) = ["JAN25"; "JAN25"] /\
  processedMonths (ledger alone) = ["JAN25"] /\
  ledger again <> ledger alone.
Proof.
  cbv zeta. repeat split; try reflexivity.
  intros H. apply (f_equal processedMonths) in H. discriminate H.
Qed.

(** X2.  When no replacement takes place (the month is not marked as
    loaded, or [replace] is true) and the file cannot be read,
    [loadPayFile] returns false, logs the one error that says so, and
    leaves the ledger as it is. *)
Theorem unreadable_file_changes_nothing_unless_replacing :
  forall s filename replace choice,
    StdSet.count (toUpper (month_of_filename filename)) (loadedPayFiles s)
      && negb replace = false ->
    errors s = [] ->
    loadPayFile filename replace choice None s =
    mkLoadResult false (toUpper (month_of_filename filename)) s
      [(filename, not_found_message filename)].
Proof.
  intros s filename replace choice Hc He. unfold loadPayFile.
  rewrite Hc, loadPayFile_read_none, He. simpl.
  rewrite <- He. now rewrite with_errors_same.
Qed.

Lemma unreadable_file_at_two_months :
  loadPayFile "mar25.txt" false Inputs.NO None two_months =
  mkLoadResult false "MAR25" two_months
    [("mar25.txt", "Pay file mar25.txt could not be found.")].
Proof.
  apply (unreadable_file_changes_nothing_unless_replacing two_months
           "mar25.txt" false Inputs.NO); reflexivity.
Defined.

(** C3, on the code.  January and February are processed; the file
    "JAN25.txt" is asked for, the replacement is confirmed and the file
    cannot be read: the call returns false and logs the error, but the
    hours of January are gone from Alice and JAN25 is gone from the
    processed months. *)
Theorem unreadable_file_after_yes_loses_month :
  let r := loadPayFile "JAN25.txt" false Inputs.YES None two_months in
  returned r = false /\
  logged r = [("JAN25.txt", "Pay file JAN25.txt could not be found.")] /\
  processedMonths two_months = ["JAN25"; "FEB25"] /\
  processedMonths (ledger r) = ["FEB25"] /\
  option_map hoursWorked (StdMap.find "E1" (employees two_months))
    = Some [("FEB25", 150); ("JAN25", 160)] /\
  option_map hoursWorked (StdMap.find "E1" (employees (ledger r)))
    = Some [("FEB25", 150)] /\
  loadedPayFiles two_months = ["FEB25"; "JAN25"] /\
  loadedPayFiles (ledger r) = ["FEB25"] /\
  ledger r <> two_months.
Proof.
  cbv zeta. repeat split; try reflexivity.
  intros H. apply (f_equal processedMonths) in H. discriminate H.
Qed.

(** C8, on the code.  After the registry, the January file, and the
    January file again with [replace = true], JAN25 is twice in the
    processed months. *)
Theorem replace_true_duplicates_month :
  let s :=
    perform_all
      [OpLoadEmployees (Some staff_file);
       OpLoadPayFile "jan25.txt" false Inputs.NO (Some jan25_file);
       OpLoadPayFile "jan25.txt" true Inputs.NO (Some jan25_file)]
      newPayrollSystem in
  reachable s /\
  processedMonths s = ["JAN25"; "JAN25"] /\
  ~ NoDup (processedMonths s).
Proof.
  cbv zeta. split; [eexists; reflexivity | ].
  split; [reflexivity | ].
  intros H. inversion H as [ | ? ? Hn _]. apply Hn. now left.
Qed.

(** X3.  What holds of every ledger the program can reach: the maps
    and the set hold their keys in strictly ascending order, with every
    employee filed under its identifier; every month of an hours map is
    a processed month; the error buffer is empty; and, as long as
    [loadPayFile] is called with the default [replace], no month is twice
    in the processed months and each of them is marked as loaded. *)
Theorem months_stay_consistent :
  forall ops,
    well_formed (perform_all ops newPayrollSystem) /\
    hours_are_processed (perform_all ops newPayrollSystem) /\
    errors (perform_all ops newPayrollSystem) = [] /\
    (forallb uses_default_replace ops = true ->
     NoDup (processedMonths (perform_all ops newPayrollSystem)) /\
     forall m, In m (processedMonths (perform_all ops newPayrollSystem)) ->
               StdSet.count m
                 (loadedPayFiles (perform_all ops newPayrollSystem)) = true).
Proof.
  intros ops.
  destruct (ledger_invariant_perform_all ops _ ledger_invariant_new)
    as [Hh He].
  split; [apply reachable_well_formed; now exists ops | ].
  split; [exact Hh | ]. split; [exact He | ].
  intros Hd.
  now destruct (months_invariant_perform_all ops _ Hd months_invariant_new)
    as (_ & Hnd & Hl).
Qed.

Lemma months_stay_consistent_at_two_months :
  NoDup (processedMonths two_months).
Proof.
  apply (months_stay_consistent
           [OpLoadEmployees (Some staff_file);
            OpLoadPayFile "jan25.txt" false Inputs.NO (Some jan25_file);
            OpLoadPayFile "feb25.txt" false Inputs.NO (Some feb25_file)]).
  reflexivity.
Defined.
End ReplaceClaims.

(** ** Sorting *)

Section SortFacts.
Context {A : Type}.
Implicit Types (comp : A -> A -> bool) (l : list A).

Lemma swo_asym comp l a b :
  strict_weak_order_on comp l -> In a l -> In b l ->
  comp a b = true -> comp b a = false.
Proof.
  intros (Hirr & Htr & _) Ha Hb Hab.
  destruct (comp b a) eqn:Hba; [ | reflexivity].
  rewrite <- (Hirr a Ha). symmetry. exact (Htr a b a Ha Hb Ha Hab Hba).
Qed.






Lemma insert_behind_perm comp x l :
  Permutation (insert_behind comp x l) (x :: l).
Proof.
  induction l as [ | y r IH]; simpl; [reflexivity | ].
  destruct (comp x y); [reflexivity | ].
  rewrite IH. apply perm_swap.
Qed.

Lemma stable_sort_acc_perm comp l acc :
  Permutation (fold_left (fun acc x => insert_behind comp x acc) l acc)
              (acc ++ l).
Proof.
  revert acc. induction l as [ | x r IH]; intros acc; simpl.
  - now rewrite app_nil_r.
  - rewrite IH, insert_behind_perm. apply Permutation_middle.
Qed.

Lemma insert_behind_sorted comp (all : list A) x l :
  strict_weak_order_on comp all ->
  In x all -> incl l all ->
  StronglySorted (fun a b => comp b a = false) l ->
  StronglySorted (fun a b => comp b a = false) (insert_behind comp x l).
Proof.
  intros Hswo Hx. induction l as [ | y r IH]; intros Hincl Hs; simpl.
  - constructor; constructor.
  - inversion Hs as [ | ? ? Hr Hy]; subst.
    assert (Hyin : In y all) by (apply Hincl; now left).
    assert (Hrin : incl r all) by (intros z Hz; apply Hincl; now right).
    destruct (comp x y) eqn:Hxy.
    + constructor; [exact Hs | ].
      constructor; [exact (swo_asym comp all x y Hswo Hx Hyin Hxy) | ].
      apply Forall_forall. intros z Hz.
      destruct (comp z x) eqn:Hzx; [ | reflexivity]. exfalso.
      rewrite Forall_forall in Hy. specialize (Hy z Hz).
      destruct Hswo as (_ & Htr & _).
      rewrite (Htr z x y (Hrin z Hz) Hx Hyin Hzx Hxy) in Hy. discriminate.
    + constructor; [now apply IH | ].
      apply Forall_forall. intros z Hz.
      apply (Permutation_in _ (insert_behind_perm comp x r)) in Hz.
      destruct Hz as [<- | Hz]; [exact Hxy | ].
      rewrite Forall_forall in Hy. now apply Hy.
Qed.

Lemma stable_sort_acc_sorted comp (all : list A) l acc :
  strict_weak_order_on comp all ->
  incl l all -> incl acc all ->
  StronglySorted (fun a b => comp b a = false) acc ->
  StronglySorted (fun a b => comp b a = false)
    (fold_left (fun acc x => insert_behind comp x acc) l acc).
Proof.
  intros Hswo. revert acc.
  induction l as [ | x r IH]; intros acc Hl Hacc Hs; simpl; [exact Hs | ].
  assert (Hx : In x all) by (apply Hl; now left).
  apply IH.
  - intros z Hz. apply Hl. now right.
  - intros z Hz.
    apply (Permutation_in _ (insert_behind_perm comp x acc)) in Hz.
    destruct Hz as [<- | Hz]; [exact Hx | now apply Hacc].
  - now apply (insert_behind_sorted comp all).
Qed.



End SortFacts.

Section SortClaims.
Implicit Types (s : PayrollSystem) (e : Employee).
Local Open Scope string_scope.


(** The stable sort is admissible as well. *)
Lemma stable_sort_admissible : std_sort_contract stable_sort.
Proof.
  intros comp l Hswo. unfold stable_sort. split.
  - apply (stable_sort_acc_perm comp l []).
  - apply (stable_sort_acc_sorted comp l l []); trivial.
    + apply incl_refl.
    + intros z [].
    + constructor.
Qed.



(** The menu lists the month picked by its number. *)
Lemma sortEmployeesMenu_lists_month std_sort idx crit s out :
  sortEmployeesMenu std_sort idx crit s = Some out ->
  exists month,
    nth_error (processedMonths s) (Z.to_nat (idx - 1)) = Some month /\
    In month (processedMonths s) /\
    out = sortedMonthListing std_sort month crit s.
Proof.
  unfold sortEmployeesMenu.
  destruct (processedMonths s) as [ | m0 r] eqn:E; [discriminate | ].
  destruct ((idx =? 0)%Z || _); [discriminate | ].
  destruct (nth_error (m0 :: r) (Z.to_nat (idx - 1))) as [month | ] eqn:N;
    [ | discriminate].
  intros [= <-]. exists month. split; [reflexivity | ].
  split; [now apply nth_error_In in N | reflexivity].
Qed.





(** *** When the sort is stable *)







End SortClaims.

(** * The rest of the program: properties *)

(** ** Strings *)

Section StringFacts.
Local Open Scope string_scope.

Lemma append_nil_r (s : string) : s ++ "" = s.
Proof. induction s as [ | c r IH]; simpl; [reflexivity | now rewrite IH]. Qed.

Lemma append_assoc (a b c : string) : (a ++ b) ++ c = a ++ (b ++ c).
Proof. induction a as [ | x r IH]; simpl; [reflexivity | now rewrite IH]. Qed.

Lemma length_append (a b : string) :
  String.length (a ++ b) = String.length a + String.length b.
Proof. induction a as [ | x r IH]; simpl; [reflexivity | now rewrite IH]. Qed.

Lemma substring_prefix (a b : string) :
  substring 0 (String.length a) (a ++ b) = a.
Proof.
  induction a as [ | x r IH]; simpl.
  - now destruct b.
  - now rewrite IH.
Qed.

Lemma substring_middle (pre mid post : string) :
  substring (String.length pre) (String.length mid) (pre ++ mid ++ post) = mid.
Proof.
  induction pre as [ | x r IH]; simpl.
  - apply substring_prefix.
  - exact IH.
Qed.

Lemma only_trim_chars_append (a b : string) :
  only_trim_chars (a ++ b) = only_trim_chars a && only_trim_chars b.
Proof.
  induction a as [ | x r IH]; simpl; [reflexivity | ].
  now rewrite IH, andb_assoc.
Qed.

Lemma last_char_cons c (s : string) :
  s <> "" -> last_char (String c s) = last_char s.
Proof. destruct s; [congruence | reflexivity]. Qed.

(** The shape of a string as [trim] sees it: all blank, or a core that
    begins and ends with a character to keep, between two blank
    margins. *)
Lemma trim_shape (s : string) :
  (only_trim_chars s = true /\
   find_first_not_of s = None /\ find_last_not_of s = None) \/
  (exists pre mid post,
      s = pre ++ mid ++ post /\
      only_trim_chars pre = true /\ only_trim_chars post = true /\
      (exists c, first_char mid = Some c /\ is_trim_char c = false) /\
      (exists c, last_char mid = Some c /\ is_trim_char c = false) /\
      find_first_not_of s = Some (String.length pre) /\
      find_last_not_of s = Some (String.length pre + String.length mid - 1)).
Proof.
  induction s as [ | c r IH]; simpl.
  - left. repeat split.
  - destruct (is_trim_char c) eqn:Hc.
    + destruct IH as [(Hall & Hf & Hl) | (pre & mid & post & E & Hpre & Hpost &
                                          Hfc & Hlc & Hf & Hl)].
      * left. rewrite Hall, Hf, Hl. repeat split.
      * right. exists (String c pre), mid, post. simpl.
        rewrite E at 1. rewrite Hc, Hpre, Hf, Hl. simpl.
        repeat split; trivial.
        destruct Hfc as [c0 [Hm _]]. destruct mid; [discriminate | ].
        simpl. f_equal. lia.
    + destruct IH as [(Hall & Hf & Hl) | (pre & mid & post & E & Hpre & Hpost &
                                          Hfc & Hlc & Hf & Hl)].
      * right. exists "", (String c ""), r. simpl. rewrite Hl.
        repeat split; trivial; now exists c.
      * right. exists "", (String c (pre ++ mid)), post. simpl.
        rewrite append_assoc, <- E, Hl.
        repeat split; trivial.
        -- now exists c.
        -- destruct Hlc as [c1 [Hm Hc1]]. exists c1. split; [ | exact Hc1].
           assert (Hne : pre ++ mid <> "").
           { destruct mid; [discriminate | ]. now destruct pre. }
           change (last_char (String c (pre ++ mid)) = Some c1).
           rewrite (last_char_cons _ _ Hne). clear - Hm.
           induction pre as [ | x p IH]; simpl; [exact Hm | ].
           destruct mid as [ | y m]; [discriminate | ].
           destruct (p ++ String y m) eqn:E; [now destruct p | ].
           exact IH.
        -- destruct Hfc as [c0 [Hm _]]. destruct mid; [discriminate | ].
           rewrite length_append. simpl. f_equal. lia.
Qed.

Lemma trim_of_blank (s : string) :
  find_first_not_of s = None -> trim s = "".
Proof. unfold trim. now intros ->. Qed.

Lemma trim_of_core (pre mid post : string) :
  (exists c, first_char mid = Some c /\ is_trim_char c = false) ->
  find_first_not_of (pre ++ mid ++ post) = Some (String.length pre) ->
  find_last_not_of (pre ++ mid ++ post)
    = Some (String.length pre + String.length mid - 1) ->
  trim (pre ++ mid ++ post) = mid.
Proof.
  intros [c [Hm _]] Hf Hl. unfold trim. rewrite Hf, Hl.
  replace (String.length pre + String.length mid - 1 - String.length pre + 1)
    with (String.length mid)
    by (destruct mid; [discriminate | simpl; lia]).
  apply substring_middle.
Qed.

Lemma last_char_append (a b : string) :
  b <> "" -> last_char (a ++ b) = last_char b.
Proof.
  intros Hb. induction a as [ | x r IH]; simpl; [reflexivity | ].
  destruct (r ++ b) eqn:E; [ | exact IH].
  destruct r; [simpl in E; congruence | discriminate].
Qed.

Lemma last_char_blank (s : string) c :
  only_trim_chars s = true -> last_char s = Some c -> is_trim_char c = true.
Proof.
  induction s as [ | x r IH]; simpl; [discriminate | ].
  intros H. apply andb_true_iff in H. destruct H as [Hx Hr].
  destruct r; [now intros [= <-] | now apply IH].
Qed.

Lemma trim_of_trimmed (s : string) : trimmed s -> trim s = s.
Proof.
  intros [-> | [[c [Hfc Hc]] [d [Hld Hd]]]]; [reflexivity | ].
  destruct (trim_shape s) as [(Hall & _) | (pre & mid & post & E & Hpre &
                                           Hpost & Hmf & Hml & Hf & Hl)].
  - destruct s; [discriminate | ]. simpl in *. injection Hfc as ->.
    rewrite Hc in Hall. discriminate.
  - assert (Hp : pre = "").
    { destruct s as [ | x r]; [discriminate | ]. simpl in Hfc, Hf.
      injection Hfc as ->. rewrite Hc in Hf. injection Hf as Hf.
      now destruct pre. }
    subst pre. simpl in *.
    assert (Hq : post = "").
    { destruct post as [ | y q]; [reflexivity | exfalso].
      rewrite E, last_char_append in Hld by discriminate.
      rewrite (last_char_blank _ _ Hpost Hld) in Hd. discriminate. }
    subst post. rewrite append_nil_r in E. subst s.
    pose proof (trim_of_core "" mid "" Hmf) as T.
    simpl in T. rewrite append_nil_r in T. now apply T.
Qed.

(** X5.  [trim] removes exactly the margins of [" \t\r\n"] characters:
    the argument is the result between two strings of such characters,
    and the result is empty or begins and ends with a character to
    keep.  Hence a string of such characters only gives the empty
    string, [trim] leaves alone what needs no trimming (a token read by
    [>>], for one), and trimming twice is trimming once. *)
Theorem trim_removes_margins :
  forall s : string,
    (exists pre post,
        s = pre ++ trim s ++ post /\
        only_trim_chars pre = true /\ only_trim_chars post = true) /\
    trimmed (trim s) /\
    (only_trim_chars s = true -> trim s = "") /\
    (trimmed s -> trim s = s) /\
    trim (trim s) = trim s.
Proof.
  intros s.
  assert (H : (exists pre post,
                  s = pre ++ trim s ++ post /\
                  only_trim_chars pre = true /\ only_trim_chars post = true) /\
              trimmed (trim s) /\
              (only_trim_chars s = true -> trim s = "")).
  { destruct (trim_shape s) as [(Hall & Hf & _) | (pre & mid & post & E & Hpre &
                                                  Hpost & Hmf & Hml & Hf & Hl)].
    - rewrite (trim_of_blank s Hf). split; [ | split; [now left | trivial]].
      exists s, "". simpl. now rewrite append_nil_r.
    - subst s. rewrite (trim_of_core pre mid post Hmf Hf Hl).
      split; [now exists pre, post | ]. split; [right; now split | ].
      intros Hall. rewrite !only_trim_chars_append in Hall.
      apply andb_true_iff in Hall. destruct Hall as [_ Hall].
      apply andb_true_iff in Hall. destruct Hall as [Hall _].
      destruct Hmf as [c [Hm Hc]]. destruct mid; [discriminate | ].
      simpl in Hm, Hall. injection Hm as ->. rewrite Hc in Hall. discriminate. }
  destruct H as (H1 & H2 & H3).
  split; [exact H1 | ]. split; [exact H2 | ]. split; [exact H3 | ].
  split; [apply trim_of_trimmed | now apply trim_of_trimmed].
Qed.

Lemma trim_removes_margins_at_sample :
  trim "  E1 	" = "E1" /\ trim " 	" = "" /\ trim "E1" = "E1".
Proof.
  destruct (trim_removes_margins " 	") as (_ & _ & Hblank & _).
  destruct (trim_removes_margins "E1") as (_ & _ & _ & Hkeep & _).
  split; [reflexivity | ]. split.
  - apply Hblank. reflexivity.
  - apply Hkeep. right. split.
    + exists "E"%char. now split.
    + exists "1"%char. now split.
Defined.

(** *** Letter case *)

Lemma toupper_toupper c : toupper (toupper c) = toupper c.
Proof. destruct c as [[] [] [] [] [] [] [] []]; reflexivity. Qed.

Lemma toupper_tolower c : toupper (tolower c) = toupper c.
Proof. destruct c as [[] [] [] [] [] [] [] []]; reflexivity. Qed.

Lemma tolower_toupper c : tolower (toupper c) = tolower c.
Proof. destruct c as [[] [] [] [] [] [] [] []]; reflexivity. Qed.

Lemma toupper_dot c : (toupper c =? ".")%char = (c =? ".")%char.
Proof. destruct c as [[] [] [] [] [] [] [] []]; reflexivity. Qed.

Lemma tolower_dot c : (tolower c =? ".")%char = (c =? ".")%char.
Proof. destruct c as [[] [] [] [] [] [] [] []]; reflexivity. Qed.

Lemma transform_append f (a b : string) :
  transform f (a ++ b) = transform f a ++ transform f b.
Proof. induction a as [ | x r IH]; simpl; [reflexivity | now rewrite IH]. Qed.

Lemma toUpper_length (s : string) :
  String.length (toUpper s) = String.length s.
Proof. induction s as [ | c r IH]; simpl; [reflexivity | now rewrite <- IH]. Qed.

Lemma toUpper_toUpper (s : string) : toUpper (toUpper s) = toUpper s.
Proof.
  unfold toUpper. induction s as [ | c r IH]; simpl; [reflexivity | ].
  now rewrite IH, toupper_toupper.
Qed.

Lemma toUpper_toLower (s : string) : toUpper (toLower s) = toUpper s.
Proof.
  unfold toUpper, toLower. induction s as [ | c r IH]; simpl; [reflexivity | ].
  now rewrite IH, toupper_tolower.
Qed.

Lemma toLower_toUpper (s : string) : toLower (toUpper s) = toLower s.
Proof.
  unfold toUpper, toLower. induction s as [ | c r IH]; simpl; [reflexivity | ].
  now rewrite IH, tolower_toupper.
Qed.

(** X6.  [toUpper] changes no length, is idempotent and forgets the case
    of the letters: a string and its lower-case form have the same
    upper-case form, and a string and its upper-case form the same
    lower-case form.  So identifiers and months that differ in case only
    are the same key. *)
Theorem toUpper_normalises_case :
  forall s : string,
    String.length (toUpper s) = String.length s /\
    toUpper (toUpper s) = toUpper s /\
    toUpper (toLower s) = toUpper s /\
    toLower (toUpper s) = toLower s.
Proof.
  intros s. split; [apply toUpper_length | ].
  split; [apply toUpper_toUpper | ].
  split; [apply toUpper_toLower | apply toLower_toUpper].
Qed.

(** *** The month of a file name *)

Lemma lacks_transform f c (s : string) :
  (forall x, (f x =? c)%char = (x =? c)%char) ->
  lacks c (transform f s) = lacks c s.
Proof.
  intros Hf. induction s as [ | x r IH]; simpl; [reflexivity | ].
  now rewrite Hf, IH.
Qed.

Lemma index_after_dotless (base rest : string) :
  lacks "." base = true ->
  index 0 FileExt.TXT (base ++ FileExt.TXT ++ rest)
    = Some (String.length base).
Proof.
  induction base as [ | c r IH]; intros H.
  - simpl. destruct rest; reflexivity.
  - simpl in H. apply andb_true_iff in H. destruct H as [Hc Hr].
    apply negb_true_iff in Hc.
    change (index 0 FileExt.TXT (String c r ++ FileExt.TXT ++ rest))
      with (if prefix FileExt.TXT (String c (r ++ FileExt.TXT ++ rest))
            then Some 0
            else match index 0 FileExt.TXT (r ++ FileExt.TXT ++ rest) with
                 | Some n => Some (S n)
                 | None => None
                 end).
    rewrite (IH Hr).
    assert (P : prefix FileExt.TXT (String c (r ++ FileExt.TXT ++ rest))
                = false).
    { unfold FileExt.TXT.
      change (prefix ".txt" (String c (r ++ ".txt" ++ rest)))
        with (if ascii_dec "." c
              then prefix "txt" (r ++ ".txt" ++ rest) else false).
      destruct (ascii_dec "." c) as [<- | _]; [discriminate Hc | reflexivity]. }
    now rewrite P.
Qed.

(** X7.  The month of a file name is what precedes the first ".txt":
    for a base name without a dot, the month of [base.txt], and of
    [base.txt] followed by anything, is [base]; so the month key of
    [base.txt] is the upper-case form of [base] however the letters of
    [base] are cased. *)
Theorem month_of_filename_drops_extension :
  forall base rest : string,
    lacks "." base = true ->
    month_of_filename (base ++ ".txt" ++ rest) = base /\
    toUpper (month_of_filename (toLower base ++ ".txt"))
      = toUpper (month_of_filename (toUpper base ++ ".txt")) /\
    toUpper (month_of_filename (toUpper base ++ ".txt")) = toUpper base.
Proof.
  intros base rest H.
  assert (M : forall b r, lacks "." b = true ->
                          month_of_filename (b ++ ".txt" ++ r) = b).
  { intros b r Hb. unfold month_of_filename.
    change (b ++ ".txt" ++ r) with (b ++ FileExt.TXT ++ r).
    rewrite (index_after_dotless b r Hb). apply substring_prefix. }
  split; [now apply M | ].
  assert (Hu : lacks "." (toUpper base) = true).
  { unfold toUpper. rewrite lacks_transform; [exact H | apply toupper_dot]. }
  assert (Hl : lacks "." (toLower base) = true).
  { unfold toLower. rewrite lacks_transform; [exact H | apply tolower_dot]. }
  pose proof (M (toUpper base) "" Hu) as Mu.
  pose proof (M (toLower base) "" Hl) as Ml.
  simpl in Mu, Ml. rewrite Mu, Ml.
  now rewrite toUpper_toUpper, toUpper_toLower.
Qed.

Lemma month_of_filename_at_jan25 :
  month_of_filename "jan25.txt.bak" = "jan25" /\
  toUpper (month_of_filename "jan25.txt")
    = toUpper (month_of_filename "JAN25.txt").
Proof.
  destruct (month_of_filename_drops_extension "jan25" ".bak" eq_refl)
    as (H1 & H2 & _).
  split; [exact H1 | exact H2].
Defined.
End StringFacts.

(** ** The registry *)

Section RegistryFacts.
Implicit Types (s : PayrollSystem) (e : Employee).

(** X8.  [loadEmployees] on a readable file returns true and files every
    identifier (trimmed, in upper case) under the name and rate of its
    last well-formed line, with an empty hours map, whatever was there
    before: later lines win, and an employee registered again loses the
    hours recorded so far.  The employees the file does not name, the
    processed months, the loaded files and the error buffer are left as
    they were. *)
Theorem loadEmployees_last_line_wins :
  forall (lines : list RegistryLine) s (k : string),
    fst (loadEmployees (Some lines) s) = true /\
    StdMap.find k (employees (snd (loadEmployees (Some lines) s))) =
      match last_registration k lines with
      | Some (name1, rate) => Some (newEmployee k name1 rate)
      | None => StdMap.find k (employees s)
      end /\
    loadedPayFiles (snd (loadEmployees (Some lines) s)) = loadedPayFiles s /\
    processedMonths (snd (loadEmployees (Some lines) s)) = processedMonths s /\
    errors (snd (loadEmployees (Some lines) s)) = errors s.
Proof.
  intros lines s k. split; [reflexivity | ].
  split; [ | apply (loadEmployees_fields (Some lines) s)].
  simpl. unfold last_registration.
  induction lines as [ | line r IH] using rev_ind; [reflexivity | ].
  rewrite !fold_left_app. simpl.
  destruct line as [[[id0 name0] rate] | ]; simpl; [ | exact IH].
  destruct (String.eqb_spec (toUpper (trim id0)) k) as [-> | Hne].
  - apply find_insert_same.
  - rewrite find_insert_other by congruence. exact IH.
Qed.
End RegistryFacts.

(** ** The reports *)

Section ReportFacts.
Implicit Types (s : PayrollSystem) (e : Employee).
Local Open Scope float_scope.

Lemma find_in {V} k (v : V) (m : StdMap.t V) :
  StdMap.find k m = Some v -> In (k, v) m.
Proof.
  induction m as [ | [k' v'] r IH]; simpl; [discriminate | ].
  destruct (String.eqb_spec k k') as [-> | Hne].
  - intros [= ->]. now left.
  - intros H. right. now apply IH.
Qed.

Lemma in_find_ascending {V} k (v : V) (m : StdMap.t V) :
  ascending (StdMap.keys m) -> In (k, v) m -> StdMap.find k m = Some v.
Proof.
  induction m as [ | [k' v'] r IH]; simpl; [intros _ [] | ].
  intros Hasc [E | Hin].
  - inversion E; subst. now rewrite String.eqb_refl.
  - apply ascending_cons_inv in Hasc. destruct Hasc as [Hr Hlt].
    destruct (String.eqb_spec k k') as [-> | Hne]; [ | now apply IH].
    exfalso.
    assert (Hk : In k' (StdMap.keys r)).
    { unfold StdMap.keys. apply in_map_iff. now exists (k', v). }
    specialize (Hlt k' Hk). rewrite string_compare_refl in Hlt. discriminate.
Qed.

Lemma count_false_keys {V} k (m : StdMap.t V) :
  StdMap.count k m = false ->
  forall p, In p m -> (k =? fst p)%string = false.
Proof.
  intros C [k' v'] Hin. simpl.
  destruct (String.eqb_spec k k') as [E | Hne]; [ | reflexivity].
  subst k'. apply count_false_find in C.
  induction m as [ | [k1 v1] r IH]; simpl in *; [contradiction | ].
  destruct (String.eqb_spec k k1) as [E1 | Hne]; [discriminate | ].
  destruct Hin as [E | Hin]; [inversion E; congruence | now apply IH].
Qed.

Lemma flat_map_map {A B C} (f : A -> B) (g : B -> list C) (l : list A) :
  flat_map g (map f l) = flat_map (fun x => g (f x)) l.
Proof. induction l as [ | x r IH]; simpl; [reflexivity | now rewrite IH]. Qed.

Lemma flat_map_ext_in {A B} (f g : A -> list B) (l : list A) :
  (forall x, In x l -> f x = g x) -> flat_map f l = flat_map g l.
Proof.
  induction l as [ | x r IH]; simpl; intros H; [reflexivity | ].
  rewrite (H x) by now left. rewrite IH; [reflexivity | ].
  intros y Hy. apply H. now right.
Qed.

(** The registry after the loop of [loadPayFile]: every record keeps its
    place and takes the hours of the records of the file that name it. *)
Lemma loop_employees f um (lines : list PayLine) s :
  employees (fold_left (loadPayFile_line f um) lines s) =
  map (fun pair =>
         (fst pair,
          with_hoursWorked (snd pair)
            (fold_left (fun hw r => if (fst r =? fst pair)%string
                                    then StdMap.insert um (snd r) hw else hw)
                       (records lines) (hoursWorked (snd pair)))))
      (employees s).
Proof.
  revert s. induction lines as [ | line r IH]; intros s; simpl.
  - rewrite <- (map_id (employees s)) at 1. apply map_ext.
    intros [k e]. simpl. now rewrite with_hoursWorked_same.
  - rewrite IH. unfold loadPayFile_line.
    destruct line as [[id0 h] | ]; simpl; [ | reflexivity].
    destruct (StdMap.count (toUpper (trim id0)) (employees s)) eqn:C; simpl.
    + unfold set_hours. rewrite map_map. apply map_ext.
      intros [k e]. simpl.
      now destruct (toUpper (trim id0) =? k)%string.
    + apply map_ext_in. intros [k e] Hin.
      pose proof (count_false_keys _ _ C _ Hin) as E. simpl in E.
      simpl. now rewrite E.
Qed.

Lemma hours_after_none um k (recs : list (string * float)) hw :
  last_hours k recs = None ->
  fold_left (fun hw r => if (fst r =? k)%string
                         then StdMap.insert um (snd r) hw else hw)
            recs hw = hw.
Proof.
  unfold last_hours.
  induction recs as [ | r recs IH] using rev_ind; [reflexivity | ].
  rewrite !fold_left_app. simpl. rewrite (string_eqb_sym k).
  destruct (fst r =? k)%string; [discriminate | exact IH].
Qed.

Lemma monthRow_gross month e row :
  In row (monthRow month e) ->
  row_gross row = row_rate row * row_hours row /\
  row_net row = row_gross row - row_tax row.
Proof.
  unfold monthRow. destruct (StdMap.count month (hoursWorked e)); [ | intros []].
  destruct (StdMap.find month (hoursWorked e)) as [h | ] eqn:F; [ | intros []].
  intros [<- | []]. simpl. unfold getNetPay, getGrossPay. now rewrite F.
Qed.

Lemma month_rows_after_read f um lines s :
  (forall k e, In (k, e) (employees s) ->
               StdMap.find um (hoursWorked e) = None /\ id e = k) ->
  map (fun row => (row_id row, row_hours row))
      (printMonthSummary um
         (ledger (loadPayFile_read f um (Some lines) s))) =
  flat_map (fun pair =>
              match last_hours (fst pair) (records lines) with
              | Some h => [(fst pair, h)]
              | None => []
              end)
           (employees s).
Proof.
  intros Hs. rewrite loadPayFile_read_some. simpl.
  unfold printMonthSummary. simpl. rewrite loop_employees.
  rewrite flat_map_map. simpl.
  induction (employees s) as [ | [k e] r IH]; simpl; [reflexivity | ].
  rewrite map_app. rewrite IH by (intros k' e' H; apply Hs; now right).
  f_equal. destruct (Hs k e (or_introl eq_refl)) as [Hnone Hid].
  unfold monthRow. simpl. unfold StdMap.count.
  destruct (last_hours k (records lines)) as [h | ] eqn:L.
  - rewrite (hours_after_month um k _ _ h L). simpl. now rewrite Hid.
  - rewrite (hours_after_none um k _ _ L). now rewrite Hnone.
Qed.

(** X9.  The month table after an ingestion.  On a ledger the program
    can reach, when [loadPayFile] (with [replace] at its default) reads
    a file, whether the month is new or its replacement was confirmed,
    the table of the month holds, in identifier order, exactly the
    registered employees that the file names, each with the hours of the
    last record that names it; [writeMonthOutput] writes the same lines
    to the file named by the month in lower case followed by
    [_output.txt]; and on every line the gross pay is the rate times the
    hours and the net pay the gross pay less the tax. *)
Theorem month_table_after_ingestion :
  forall ops filename choice lines,
    forallb uses_default_replace ops = true ->
    returned (loadPayFile filename false choice (Some lines)
                (perform_all ops newPayrollSystem)) = true ->
    let s := perform_all ops newPayrollSystem in
    let um := toUpper (month_of_filename filename) in
    let r := loadPayFile filename false choice (Some lines) s in
    map (fun row => (row_id row, row_hours row))
        (printMonthSummary um (ledger r)) =
      flat_map (fun pair =>
                  match last_hours (fst pair) (records lines) with
                  | Some h => [(fst pair, h)]
                  | None => []
                  end)
               (employees s) /\
    writeMonthOutput um true (ledger r) =
      Some ((toLower um ++ "_output.txt")%string,
            printMonthSummary um (ledger r)) /\
    (forall row, In row (printMonthSummary um (ledger r)) ->
                 row_gross row = row_rate row * row_hours row /\
                 row_net row = row_gross row - row_tax row).
Proof.
  intros ops filename choice lines Hd Hret s um r.
  assert (Hwf : well_formed s) by (apply reachable_well_formed; now exists ops).
  pose proof (months_invariant_perform_all ops _ Hd months_invariant_new)
    as Hinv. fold s in Hinv.
  split; [ | split; [reflexivity | ]].
  - subst r. unfold loadPayFile in *. fold um in Hret. fold um. fold s in Hret.
    destruct (StdSet.count um (loadedPayFiles s)) eqn:C.
    + change (true && negb false) with true in *. cbv iota in *.
      destruct (choice =? Inputs.YES)%char; [ | discriminate Hret].
      cbv zeta. rewrite month_rows_after_read.
      * simpl. rewrite flat_map_map. reflexivity.
      * simpl. intros k e' Hin. apply in_map_iff in Hin.
        destruct Hin as [[k0 e0] [E Hin]]. inversion E; subst. simpl.
        split; [apply find_erase_same | ].
        destruct Hwf as (_ & _ & Hid). now apply (Hid k e0).
    + change (false && negb false) with false in *. cbv iota in *.
      apply month_rows_after_read. intros k e Hin. split.
      * destruct (unprocessed_month_is_untouched um s Hinv C) as (_ & _ & Hu).
        now apply (Hu k e).
      * destruct Hwf as (_ & _ & Hid). now apply (Hid k e).
  - intros row Hin. unfold printMonthSummary in Hin.
    apply in_flat_map in Hin. destruct Hin as [pair [_ Hin]].
    now apply monthRow_gross in Hin.
Qed.

Lemma month_table_at_staff_only :
  let r := loadPayFile "jan25.txt" false Inputs.NO (Some jan25_file)
             staff_only in
  map (fun row => (row_id row, row_hours row))
      (printMonthSummary "JAN25" (ledger r)) =
    flat_map (fun pair =>
                match last_hours (fst pair) (records jan25_file) with
                | Some h => [(fst pair, h)]
                | None => []
                end)
             (employees staff_only) /\
  writeMonthOutput "JAN25" true (ledger r) =
    Some ("jan25_output.txt"%string, printMonthSummary "JAN25" (ledger r)).
Proof.
  destruct (month_table_after_ingestion [OpLoadEmployees (Some staff_file)]
              "jan25.txt" Inputs.NO jan25_file eq_refl eq_refl)
    as (H1 & H2 & _).
  split; [exact H1 | exact H2].
Defined.

(** *** The table of one employee *)

Lemma displayEmployeeDetails_loop e (l : list (string * float)) rows tg tt tn :
  fold_left (displayEmployeeDetails_rec e) l (rows, (tg, (tt, tn))) =
  ((rows ++ map (fun rec => mkDetailRow (fst rec) (snd rec)
                              (getGrossPay e (fst rec)) (getTax e (fst rec))
                              (getNetPay e (fst rec))) l)%list,
   (fold_left (fun total rec => total + getGrossPay e (fst rec)) l tg,
    (fold_left (fun total rec => total + getTax e (fst rec)) l tt,
     fold_left (fun total rec => total + getNetPay e (fst rec)) l tn))).
Proof.
  revert rows tg tt tn.
  induction l as [ | rec r IH]; intros rows tg tt tn; simpl.
  - now rewrite app_nil_r.
  - rewrite IH. now rewrite <- app_assoc.
Qed.

(** X10.  [displayEmployeeDetails] in a state the program can reach.  For
    an identifier that is not in the registry only the error message is
    written.  Otherwise the table has one line per month of the hours
    map of the employee, in key order, with the hours recorded; its
    three totals are exactly what [getTotalGross], [getTotalTax] and
    [getTotalNet] return; and on every line the month is a processed
    month, the gross pay is the rate times the hours shown and the net
    pay the gross pay less the tax. *)
Theorem displayEmployeeDetails_totals :
  forall ops empid,
    let s := perform_all ops newPayrollSystem in
    match displayEmployeeDetails empid s with
    | None => StdMap.count empid (employees s) = false
    | Some d =>
        exists e,
          StdMap.find empid (employees s) = Some e /\
          det_id d = empid /\ det_name d = name e /\
          map (fun row => (det_month row, det_hours row)) (det_rows d)
            = hoursWorked e /\
          totalGross d = getTotalGross e /\
          totalTax d = getTotalTax e /\
          totalNet d = getTotalNet e /\
          (forall row, In row (det_rows d) ->
                       In (det_month row) (processedMonths s) /\
                       det_gross row = hourlyRate e * det_hours row /\
                       det_net row = det_gross row - det_tax row)
    end.
Proof.
  intros ops empid s.
  assert (Hr : reachable s) by now exists ops.
  pose proof (reachable_well_formed s Hr) as (_ & _ & Hid).
  pose proof (reachable_ledger_invariant s Hr) as [Hproc _].
  unfold displayEmployeeDetails.
  destruct (StdMap.find empid (employees s)) as [e | ] eqn:F;
    [ | now apply count_false_find].
  rewrite displayEmployeeDetails_loop. simpl.
  apply find_in in F. destruct (Hid empid e F) as [Hk Hasc].
  exists e. split; [reflexivity | ]. split; [exact Hk | ].
  split; [reflexivity | ]. split.
  - rewrite map_map. simpl. rewrite <- (map_id (hoursWorked e)) at 2.
    apply map_ext. now intros [m h].
  - split; [reflexivity | ]. split; [reflexivity | ].
    split; [reflexivity | ].
    intros row Hin. apply in_map_iff in Hin.
    destruct Hin as [[m h] [<- Hin]]. simpl.
    pose proof (in_find_ascending m h (hoursWorked e) Hasc Hin) as Fm.
    split.
    + apply (Hproc empid e m F). unfold StdMap.count. now rewrite Fm.
    + unfold getNetPay, getGrossPay. now rewrite Fm.
Qed.

(** *** The selection of an employee *)

Lemma with_employees_same s : with_employees s (employees s) = s.
Proof. now destruct s. Qed.

Lemma nth_error_idList s n :
  nth_error (idList s) n = option_map fst (nth_error (employees s) n).
Proof. unfold idList. apply nth_error_map. Qed.

(** X11.  The selection of an employee in a state the program can
    reach.  A number between 1 and the size of the registry selects the
    employee at that place in identifier order: [showEmployeeBreakdown]
    writes the table of that employee, never the message that the
    employee does not exist, and [showEmployeeTotals] writes the
    identifier, name and three totals of that employee and leaves the
    ledger as it is, [employees[...]] filing no new record. *)
Theorem selection_shows_the_listed_employee :
  forall ops sel,
    let s := perform_all ops newPayrollSystem in
    (1 <= sel <= Z.of_nat (length (employees s)))%Z ->
    exists k e,
      nth_error (employees s) (Z.to_nat (sel - 1)) = Some (k, e) /\
      StdMap.find k (employees s) = Some e /\
      id e = k /\
      showEmployeeBreakdown sel s = Report (displayEmployeeDetails k s) /\
      displayEmployeeDetails k s <> None /\
      showEmployeeTotals sel s =
        (Report (mkTotals k (name e) (getTotalGross e) (getTotalTax e)
                   (getTotalNet e)), s).
Proof.
  intros ops sel s Hsel.
  assert (Hr : reachable s) by now exists ops.
  pose proof (reachable_well_formed s Hr) as (Hasc & _ & Hid).
  destruct (nth_error (employees s) (Z.to_nat (sel - 1))) as [[k e] | ] eqn:N.
  2:{ apply nth_error_None in N. lia. }
  pose proof (nth_error_In _ _ N) as Hin.
  pose proof (in_find_ascending k e (employees s) Hasc Hin) as F.
  destruct (Hid k e Hin) as [Hk _].
  exists k, e. split; [reflexivity | ]. split; [exact F | ].
  split; [exact Hk | ].
  assert (G : ((sel <=? 0) || (sel >? Z.of_nat (length (idList s))))%Z
              = false).
  { unfold idList. rewrite length_map.
    apply orb_false_iff. split; [apply Z.leb_gt; lia | ].
    rewrite Z.gtb_ltb. apply Z.ltb_ge. lia. }
  assert (A : at_index (idList s) sel = Some k).
  { unfold at_index. destruct (Z.ltb_spec sel 1) as [Hlt | _]; [lia | ].
    rewrite nth_error_idList, N. reflexivity. }
  split; [ | split].
  - unfold showEmployeeBreakdown. now rewrite G, A.
  - unfold displayEmployeeDetails. rewrite F.
    now destruct (fold_left _ _ _) as [rows [tg [tt tn]]].
  - unfold showEmployeeTotals. rewrite G, A. unfold subscript. rewrite F.
    now rewrite with_employees_same, Hk.
Qed.

Lemma selection_at_two_months :
  exists k e,
    nth_error (employees two_months) (Z.to_nat (2 - 1)) = Some (k, e) /\
    StdMap.find k (employees two_months) = Some e /\
    id e = k /\
    showEmployeeBreakdown 2 two_months
      = Report (displayEmployeeDetails k two_months) /\
    displayEmployeeDetails k two_months <> None /\
    showEmployeeTotals 2 two_months =
      (Report (mkTotals k (name e) (getTotalGross e) (getTotalTax e)
                 (getTotalNet e)), two_months).
Proof.
  apply (selection_shows_the_listed_employee
           [OpLoadEmployees (Some staff_file);
            OpLoadPayFile "jan25.txt" false Inputs.NO (Some jan25_file);
            OpLoadPayFile "feb25.txt" false Inputs.NO (Some feb25_file)] 2).
  vm_compute. split; discriminate.
Defined.
End ReportFacts.

(** ** What a call of [loadPayFile] returns and logs *)

Section ReturnFacts.
Implicit Types (s : PayrollSystem) (e : Employee).

(** X16.  What [loadPayFile] returns and logs, in a state the program
    can reach and for every value of [replace].  The call is declined
    when the month is loaded, [replace] is false and the answer is not
    'y'.  [outMonth] is the month key; the call returns true exactly when
    it is not declined and the file can be opened; what it appends to
    errors.txt is nothing when declined, the one message that the file
    could not be found when it cannot be opened, and otherwise one
    message per record with an unknown identifier, in file order, and
    nothing else: no error of an earlier call is logged again, and the
    error buffer is empty after the call. *)
Theorem loadPayFile_returns_and_logs :
  forall ops f replace choice fin,
    let s := perform_all ops newPayrollSystem in
    let um := toUpper (month_of_filename f) in
    let declined :=
      StdSet.count um (loadedPayFiles s) && negb replace
      && negb (choice =? Inputs.YES)%char in
    let r := loadPayFile f replace choice fin s in
    outMonth r = um /\
    returned r =
      negb declined && match fin with Some _ => true | None => false end /\
    logged r =
      (if declined then []
       else
         match fin with
         | Some lines => unknown_errors f (employees s) (records lines)
         | None => [(f, not_found_message f)]
         end) /\
    errors (ledger r) = [].
Proof.
  intros ops f replace choice fin s um declined r.
  assert (Hr : reachable s) by now exists ops.
  destruct (reachable_ledger_invariant s Hr) as [_ He].
  assert (R : forall s0,
             errors s0 = [] ->
             registry_view (employees s0) = registry_view (employees s) ->
             let r0 := loadPayFile_read f um fin s0 in
             outMonth r0 = um /\
             returned r0 = match fin with Some _ => true | None => false end /\
             logged r0 =
               match fin with
               | Some lines => unknown_errors f (employees s) (records lines)
               | None => [(f, not_found_message f)]
               end /\
             errors (ledger r0) = []).
  { intros s0 He0 Hreg r0. subst r0. destruct fin as [lines | ].
    - rewrite loadPayFile_read_some. simpl. rewrite He0. simpl.
      repeat split. now apply unknown_errors_ext.
    - rewrite loadPayFile_read_none. simpl. rewrite He0. now repeat split. }
  subst r declined. unfold loadPayFile. fold um.
  destruct (StdSet.count um (loadedPayFiles s) && negb replace); simpl.
  - destruct (choice =? Inputs.YES)%char; simpl.
    + apply R; [exact He | ]. simpl. apply registry_view_remove.
    + now repeat split.
  - now apply R.
Qed.
End ReturnFacts.

(** ** Standard input *)

Section InputFacts.

Lemma skipws_length cin :
  String.length (skipws cin) <= String.length cin.
Proof.
  induction cin as [ | c r IH]; simpl; [lia | ].
  destruct (isspace c); simpl; lia.
Qed.

Lemma digits_length acc cin :
  String.length (snd (digits acc cin)) <= String.length cin.
Proof.
  revert acc. induction cin as [ | c r IH]; intros acc; simpl; [lia | ].
  destruct (isdigit c); simpl; [ | lia].
  etransitivity; [apply IH | lia].
Qed.

Lemma extract_int_tail negative c r :
  String.length
    (snd (if isdigit c
          then
            let '(n, cin3) := digits 0 (String c r) in
            let val := if negative : bool then (- n)%Z else n in
            if ((INT_MIN <=? val) && (val <=? INT_MAX))%Z
            then (Some val, cin3)
            else (None, cin3)
          else (None, String c r)))
    <= String.length (String c r) /\
  forall v,
    fst (if isdigit c
         then
           let '(n, cin3) := digits 0 (String c r) in
           let val := if negative : bool then (- n)%Z else n in
           if ((INT_MIN <=? val) && (val <=? INT_MAX))%Z
           then (Some val, cin3)
           else (None, cin3)
         else (None, String c r)) = Some v ->
    (INT_MIN <= v <= INT_MAX)%Z /\
    String.length
      (snd (if isdigit c
            then
              let '(n, cin3) := digits 0 (String c r) in
              let val := if negative : bool then (- n)%Z else n in
              if ((INT_MIN <=? val) && (val <=? INT_MAX))%Z
              then (Some val, cin3)
              else (None, cin3)
            else (None, String c r)))
      < String.length (String c r).
Proof.
  destruct (isdigit c) eqn:D; [ | simpl; split; [lia | discriminate]].
  pose proof (digits_length (10 * 0 + (Z.of_nat (nat_of_ascii c) - 48))%Z r)
    as L.
  simpl digits. rewrite D.
  destruct (digits _ r) as [n cin3]. simpl in L. cbv zeta.
  destruct ((INT_MIN <=? (if negative then (- n)%Z else n)) &&
            ((if negative then (- n)%Z else n) <=? INT_MAX))%Z eqn:R; simpl.
  - split; [lia | ]. intros v [= <-]. split; [ | lia].
    apply andb_true_iff in R. destruct R as [R1 R2].
    apply Z.leb_le in R1, R2. lia.
  - split; [lia | discriminate].
Qed.

(** An extraction of an [int] leaves no more input than there was, and
    less when it succeeds; the value is an [int]. *)
Lemma extract_int_spec cin :
  String.length (snd (extract_int cin)) <= String.length cin /\
  forall v, fst (extract_int cin) = Some v ->
            (INT_MIN <= v <= INT_MAX)%Z /\
            String.length (snd (extract_int cin)) < String.length cin.
Proof.
  unfold extract_int. pose proof (skipws_length cin) as L.
  destruct (skipws cin) as [ | c r].
  - simpl. split; [lia | discriminate].
  - destruct (c =? "-")%char; [ | destruct (c =? "+")%char].
    + destruct r as [ | d r']; [simpl; split; [lia | discriminate] | ].
      destruct (extract_int_tail true d r') as [T1 T2].
      simpl in L. split; [simpl in *; lia | ].
      intros v Hv. destruct (T2 v Hv) as [T3 T4]. simpl in *. split; lia.
    + destruct r as [ | d r']; [simpl; split; [lia | discriminate] | ].
      destruct (extract_int_tail false d r') as [T1 T2].
      simpl in L. split; [simpl in *; lia | ].
      intros v Hv. destruct (T2 v Hv) as [T3 T4]. simpl in *. split; lia.
    + destruct (extract_int_tail false c r) as [T1 T2].
      split; [simpl in *; lia | ].
      intros v Hv. destruct (T2 v Hv) as [T3 T4]. simpl in *. split; lia.
Qed.

Lemma extract_char_length cin :
  String.length (snd (extract_char cin)) <= String.length cin /\
  forall c, fst (extract_char cin) = Some c ->
            String.length (snd (extract_char cin)) < String.length cin.
Proof.
  unfold extract_char. pose proof (skipws_length cin) as L.
  destruct (skipws cin) as [ | c r]; simpl in *.
  - split; [lia | discriminate].
  - split; [lia | intros _ _; lia].
Qed.

Lemma ignore_length n cin :
  String.length (ignore n cin) <= String.length cin.
Proof.
  revert cin. induction n as [ | n IH]; intros cin.
  - destruct cin; unfold ignore; lia.
  - destruct cin as [ | c r]; [unfold ignore; lia | ].
    change (ignore (S n) (String c r))
      with (if (c =? newline)%char then r else ignore n r).
    specialize (IH r). destruct (c =? newline)%char; simpl; lia.
Qed.

Lemma ignore_line_length cin :
  String.length (ignore_line cin) <= String.length cin - 1.
Proof.
  induction cin as [ | c r IH]; simpl; [lia | ].
  destruct (c =? newline)%char; lia.
Qed.

Lemma getline_length cin :
  String.length (snd (getline cin)) <= String.length cin - 1.
Proof.
  induction cin as [ | c r IH]; simpl; [lia | ].
  destruct (c =? newline)%char; simpl; [lia | ].
  destruct (getline r) as [input rest]. simpl in *. lia.
Qed.

(** *** [getIntInput] *)

Lemma getIntInput_eof fuel min max :
  getIntInput fuel min max "" = Going ""%string.
Proof. induction fuel as [ | fuel IH]; simpl; [reflexivity | exact IH]. Qed.

Lemma getIntInput_done fuel min max cin v rest :
  getIntInput fuel min max cin = Done v rest ->
  (min <= v <= max)%Z /\ (INT_MIN <= v <= INT_MAX)%Z /\
  String.length rest < String.length cin.
Proof.
  revert cin. induction fuel as [ | fuel IH]; intros cin; simpl;
    [discriminate | ].
  destruct (extract_int_spec cin) as [L1 L2].
  destruct (extract_int cin) as [[val | ] cin1]; simpl in *.
  - destruct (L2 val eq_refl) as [Hint Hlt].
    pose proof (ignore_length Limits.CIN_IGNORE_LIMIT cin1) as L3.
    destruct ((val >=? min) && (val <=? max))%Z eqn:R.
    + intros [= <- <-]. apply andb_true_iff in R. destruct R as [R1 R2].
      apply Z.geb_le in R1. apply Z.leb_le in R2. repeat split; lia.
    + intros H. destruct (IH _ H) as (H1 & H2 & H3). repeat split; lia.
  - pose proof (ignore_line_length cin1) as L3.
    intros H. destruct (IH _ H) as (H1 & H2 & H3). repeat split; lia.
Qed.

Lemma getIntInput_more_fuel fuel fuel' min max cin v rest :
  getIntInput fuel min max cin = Done v rest ->
  fuel <= fuel' ->
  getIntInput fuel' min max cin = Done v rest.
Proof.
  revert fuel' cin. induction fuel as [ | fuel IH]; intros fuel' cin; simpl;
    [discriminate | ].
  intros H Hle. destruct fuel' as [ | fuel']; [lia | ]. simpl.
  destruct (extract_int cin) as [[val | ] cin1].
  - destruct ((val >=? min) && (val <=? max))%Z; [exact H | ].
    apply IH; [exact H | lia].
  - apply IH; [exact H | lia].
Qed.

Lemma getIntInput_no_fault fuel min max cin st :
  getIntInput fuel min max cin <> Fault st.
Proof.
  revert cin. induction fuel as [ | fuel IH]; intros cin; simpl;
    [discriminate | ].
  destruct (extract_int cin) as [[val | ] cin1]; [ | apply IH].
  destruct ((val >=? min) && (val <=? max))%Z; [discriminate | apply IH].
Qed.

Lemma getIntInput_going fuel min max cin rest :
  String.length cin < fuel ->
  getIntInput fuel min max cin = Going rest ->
  rest = ""%string /\
  forall fuel', exists rest', getIntInput fuel' min max cin = Going rest'.
Proof.
  revert cin. induction fuel as [ | fuel IH]; intros cin Hlen; [lia | ].
  destruct cin as [ | c r].
  - rewrite getIntInput_eof. intros [= <-]. split; [reflexivity | ].
    intros fuel'. exists ""%string. apply getIntInput_eof.
  - simpl getIntInput.
    destruct (extract_int_spec (String c r)) as [L1 L2].
    destruct (extract_int (String c r)) as [[val | ] cin1] eqn:E;
      simpl in L1, L2.
    + destruct (L2 val eq_refl) as [_ Hlt].
      pose proof (ignore_length Limits.CIN_IGNORE_LIMIT cin1) as L3.
      destruct ((val >=? min) && (val <=? max))%Z eqn:R; [discriminate | ].
      intros H. simpl in Hlen.
      assert (Hl : String.length (ignore Limits.CIN_IGNORE_LIMIT cin1) < fuel)
        by lia.
      destruct (IH _ Hl H) as [H1 H2]. split; [exact H1 | ].
      intros [ | fuel']; [now eexists | ]. simpl. rewrite E, R. apply H2.
    + pose proof (ignore_line_length cin1) as L3.
      intros H. simpl in Hlen.
      assert (Hl : String.length (ignore_line cin1) < fuel) by lia.
      destruct (IH _ Hl H) as [H1 H2]. split; [exact H1 | ].
      intros [ | fuel']; [now eexists | ]. simpl. rewrite E. apply H2.
Qed.

(** X12.  [getIntInput] validates what it returns.  When it returns,
    the value lies between [min] and [max], some input has been read,
    and more turns change nothing.  When it has not returned after more
    turns than the input has characters, the input is exhausted and it
    never returns: at the end of the input the loop goes on for ever.
    It reads no vector. *)
Theorem getIntInput_validates :
  forall fuel min max cin,
    match getIntInput fuel min max cin with
    | Done v rest =>
        (min <= v <= max)%Z /\
        String.length rest < String.length cin /\
        (forall fuel', fuel <= fuel' ->
                       getIntInput fuel' min max cin = Done v rest)
    | Going rest =>
        String.length cin < fuel ->
        rest = ""%string /\
        (forall fuel', exists rest',
            getIntInput fuel' min max cin = Going rest')
    | Fault _ => False
    end.
Proof.
  intros fuel min max cin.
  destruct (getIntInput fuel min max cin) as [v rest | rest | st] eqn:E.
  - destruct (getIntInput_done _ _ _ _ _ _ E) as (H1 & _ & H3).
    split; [exact H1 | ]. split; [exact H3 | ].
    intros fuel' Hle. now apply (getIntInput_more_fuel fuel).
  - intros Hlen. now apply (getIntInput_going fuel).
  - now apply getIntInput_no_fault in E.
Qed.

Lemma getIntInput_at_sample :
  getIntInput 5 0 5
      (typed ["abc"; " 7"; "-3"; ""; "+4 apples"; "1"]%string)
    = Done 4%Z (typed ["1"%string]) /\
  (0 <= 4 <= 5)%Z.
Proof.
  assert (E : getIntInput 5 0 5
                (typed ["abc"; " 7"; "-3"; ""; "+4 apples"; "1"]%string)
              = Done 4%Z (typed ["1"%string])) by reflexivity.
  split; [exact E | ].
  pose proof (getIntInput_validates 5 0 5
                (typed ["abc"; " 7"; "-3"; ""; "+4 apples"; "1"]%string))
    as H.
  rewrite E in H. now destruct H as [H _].
Defined.
End InputFacts.

(** *** [getYesNoInput] *)

Section YesNoFacts.

Lemma getYesNoInput_eof fuel : getYesNoInput fuel "" = Going ""%string.
Proof. induction fuel as [ | fuel IH]; simpl; [reflexivity | exact IH]. Qed.

Lemma getYesNoInput_done fuel cin c rest :
  getYesNoInput fuel cin = Done c rest ->
  (c = Inputs.YES \/ c = Inputs.NO) /\
  String.length rest < String.length cin.
Proof.
  revert cin. induction fuel as [ | fuel IH]; intros cin; simpl;
    [discriminate | ].
  destruct (extract_char_length cin) as [L1 L2].
  destruct (extract_char cin) as [[c0 | ] cin1]; simpl in *.
  - pose proof (L2 c0 eq_refl) as Hlt.
    pose proof (ignore_length Limits.CIN_IGNORE_LIMIT cin1) as L3.
    destruct ((tolower c0 =? Inputs.YES) || (tolower c0 =? Inputs.NO))%char
      eqn:R.
    + intros [= <- <-]. split; [ | lia].
      apply orb_true_iff in R. destruct R as [R | R];
        apply Ascii.eqb_eq in R; [now left | now right].
    + intros H. destruct (IH _ H) as (H1 & H2). split; [exact H1 | lia].
  - pose proof (ignore_line_length cin1) as L3.
    intros H. destruct (IH _ H) as (H1 & H2). split; [exact H1 | lia].
Qed.

Lemma getYesNoInput_more_fuel fuel fuel' cin c rest :
  getYesNoInput fuel cin = Done c rest ->
  fuel <= fuel' ->
  getYesNoInput fuel' cin = Done c rest.
Proof.
  revert fuel' cin. induction fuel as [ | fuel IH]; intros fuel' cin; simpl;
    [discriminate | ].
  intros H Hle. destruct fuel' as [ | fuel']; [lia | ]. simpl.
  destruct (extract_char cin) as [[c0 | ] cin1].
  - destruct ((tolower c0 =? Inputs.YES) || (tolower c0 =? Inputs.NO))%char;
      [exact H | ].
    apply IH; [exact H | lia].
  - apply IH; [exact H | lia].
Qed.

Lemma getYesNoInput_no_fault fuel cin st :
  getYesNoInput fuel cin <> Fault st.
Proof.
  revert cin. induction fuel as [ | fuel IH]; intros cin; simpl;
    [discriminate | ].
  destruct (extract_char cin) as [[c0 | ] cin1]; [ | apply IH].
  destruct ((tolower c0 =? Inputs.YES) || (tolower c0 =? Inputs.NO))%char;
    [discriminate | apply IH].
Qed.

Lemma getYesNoInput_going fuel cin rest :
  String.length cin < fuel ->
  getYesNoInput fuel cin = Going rest ->
  rest = ""%string /\
  forall fuel', exists rest', getYesNoInput fuel' cin = Going rest'.
Proof.
  revert cin. induction fuel as [ | fuel IH]; intros cin Hlen; [lia | ].
  destruct cin as [ | c r].
  - rewrite getYesNoInput_eof. intros [= <-]. split; [reflexivity | ].
    intros fuel'. exists ""%string. apply getYesNoInput_eof.
  - simpl getYesNoInput.
    destruct (extract_char_length (String c r)) as [L1 L2].
    destruct (extract_char (String c r)) as [[c0 | ] cin1] eqn:E;
      simpl in L1, L2.
    + pose proof (L2 c0 eq_refl) as Hlt.
      pose proof (ignore_length Limits.CIN_IGNORE_LIMIT cin1) as L3.
      destruct ((tolower c0 =? Inputs.YES) || (tolower c0 =? Inputs.NO))%char
        eqn:R; [discriminate | ].
      intros H. simpl in Hlen.
      assert (Hl : String.length (ignore Limits.CIN_IGNORE_LIMIT cin1) < fuel)
        by lia.
      destruct (IH _ Hl H) as [H1 H2]. split; [exact H1 | ].
      intros [ | fuel']; [now eexists | ]. simpl. rewrite E, R. apply H2.
    + pose proof (ignore_line_length cin1) as L3.
      intros H. simpl in Hlen.
      assert (Hl : String.length (ignore_line cin1) < fuel) by lia.
      destruct (IH _ Hl H) as [H1 H2]. split; [exact H1 | ].
      intros [ | fuel']; [now eexists | ]. simpl. rewrite E. apply H2.
Qed.

Lemma answer_is_no_space c :
  ((tolower c =? Inputs.YES) || (tolower c =? Inputs.NO))%char = true ->
  isspace c = false.
Proof.
  destruct c as [[] [] [] [] [] [] [] []]; vm_compute;
    try reflexivity; discriminate.
Qed.

Lemma skipws_blank blank c rest :
  all_space blank = true -> isspace c = false ->
  skipws (blank ++ String c rest) = String c rest.
Proof.
  intros Hb Hc. induction blank as [ | b r IH]; simpl.
  - now rewrite Hc.
  - simpl in Hb. apply andb_true_iff in Hb. destruct Hb as [Hb1 Hb2].
    rewrite Hb1. now apply IH.
Qed.

Lemma ignore_rest_of_line n line rest :
  lacks newline line = true -> String.length line < n ->
  ignore n (line ++ String newline rest) = rest.
Proof.
  revert line. induction n as [ | n IH]; intros line Hl Hn; [lia | ].
  destruct line as [ | c r].
  - change (ignore (S n) ("" ++ String newline rest))
      with (if (newline =? newline)%char then rest else ignore n rest).
    now rewrite Ascii.eqb_refl.
  - simpl in Hl. apply andb_true_iff in Hl. destruct Hl as [Hc Hr].
    apply negb_true_iff in Hc. simpl in Hn.
    change (ignore (S n) (String c r ++ String newline rest))
      with (if (c =? newline)%char then (r ++ String newline rest)%string
            else ignore n (r ++ String newline rest)).
    rewrite Hc. apply IH; [exact Hr | lia].
Qed.

(** X13.  [getYesNoInput] validates what it returns.  When it returns,
    the answer is 'y' or 'n', some input has been read, and more turns
    change nothing; when it has not returned after more turns than the
    input has characters, the input is exhausted and it never returns.
    A line whose first character that is not white space is a 'y' or an
    'n' in either case is accepted, in lower case, whatever follows on
    the line (when the line has fewer than 1000 characters), and the
    input is left at the start of the next line. *)
Theorem getYesNoInput_validates :
  forall fuel cin,
    match getYesNoInput fuel cin with
    | Done c rest =>
        (c = "y"%char \/ c = "n"%char) /\
        String.length rest < String.length cin /\
        (forall fuel', fuel <= fuel' ->
                       getYesNoInput fuel' cin = Done c rest)
    | Going rest =>
        String.length cin < fuel ->
        rest = ""%string /\
        (forall fuel', exists rest', getYesNoInput fuel' cin = Going rest')
    | Fault _ => False
    end /\
    (forall blank c line rest,
        all_space blank = true ->
        ((tolower c =? "y") || (tolower c =? "n"))%char = true ->
        lacks newline line = true ->
        String.length line < 1000 ->
        getYesNoInput (S fuel)
          (blank ++ String c (line ++ String newline rest))
          = Done (tolower c) rest).
Proof.
  intros fuel cin. split.
  - destruct (getYesNoInput fuel cin) as [c rest | rest | st] eqn:E.
    + destruct (getYesNoInput_done _ _ _ _ E) as (H1 & H3).
      split; [exact H1 | ]. split; [exact H3 | ].
      intros fuel' Hle. now apply (getYesNoInput_more_fuel fuel).
    + intros Hlen. now apply (getYesNoInput_going fuel).
    + now apply getYesNoInput_no_fault in E.
  - intros blank c line rest Hb Hc Hl Hn.
    simpl getYesNoInput. unfold extract_char.
    rewrite (skipws_blank blank c _ Hb (answer_is_no_space c Hc)).
    change Inputs.YES with "y"%char. change Inputs.NO with "n"%char.
    rewrite Hc. f_equal. now apply ignore_rest_of_line.
Qed.

Lemma getYesNoInput_at_sample :
  getYesNoInput 3 (typed ["maybe"; "  Yes, please"; "next"]%string)
    = Done "y"%char (typed ["next"%string]) /\
  ("y"%char = "y"%char \/ "y"%char = "n"%char).
Proof.
  assert (E : getYesNoInput 3 (typed ["maybe"; "  Yes, please"; "next"]%string)
              = Done "y"%char (typed ["next"%string])) by reflexivity.
  split; [exact E | ].
  destruct (getYesNoInput_validates 3
              (typed ["maybe"; "  Yes, please"; "next"]%string)) as [H _].
  rewrite E in H. now destruct H as [H _].
Defined.
End YesNoFacts.

(** ** The session *)

Section SessionFacts.
Variable files : Files.
Implicit Types (s : PayrollSystem) (w : World).

Lemma registry_view_loadPayFile f replace choice fin s :
  registry_view (employees (ledger (loadPayFile f replace choice fin s))) =
  registry_view (employees s).
Proof.
  assert (R : forall s0,
             registry_view
               (employees (ledger (loadPayFile_read f
                                     (toUpper (month_of_filename f)) fin s0)))
             = registry_view (employees s0)).
  { intros s0. destruct fin as [lines | ].
    - rewrite loadPayFile_read_some. simpl.
      now destruct (loop_fields f (toUpper (month_of_filename f)) lines s0)
        as (_ & _ & H).
    - now rewrite loadPayFile_read_none. }
  unfold loadPayFile.
  destruct (StdSet.count _ _ && negb replace); [ | apply R].
  destruct (choice =? Inputs.YES)%char; [ | reflexivity].
  rewrite R. simpl. apply registry_view_remove.
Qed.

Lemma loads_pay_file_default ops :
  forallb loads_pay_file ops = true ->
  forallb uses_default_replace ops = true.
Proof.
  induction ops as [ | op r IH]; simpl; [reflexivity | ].
  intros H. apply andb_true_iff in H. destruct H as [H1 H2].
  rewrite (IH H2), andb_true_r. now destruct op.
Qed.

Lemma registry_view_pay_files ops s :
  forallb loads_pay_file ops = true ->
  registry_view (employees (perform_all ops s)) = registry_view (employees s).
Proof.
  revert s. induction ops as [ | op r IH]; intros s; simpl; [reflexivity | ].
  intros H. apply andb_true_iff in H. destruct H as [H1 H2].
  unfold perform_all in IH. rewrite (IH _ H2).
  destruct op as [fin | f replace choice fin | month]; try discriminate.
  apply registry_view_loadPayFile.
Qed.

Lemma session_ledger_load fname choice fin s :
  session_ledger files s ->
  session_ledger files (ledger (loadPayFile fname false choice fin s)).
Proof.
  intros (ops & Hd & ->).
  exists (ops ++ [OpLoadPayFile fname false choice fin])%list. split.
  - rewrite forallb_app, Hd. reflexivity.
  - unfold perform_all. rewrite app_comm_cons, fold_left_app. reflexivity.
Qed.

Lemma reading_done {A} (m : Run string A) w a w1 :
  reading m w = Done a w1 -> m = Done a (cin w1) /\ sys w1 = sys w.
Proof. destruct m; simpl; intros [= <- <-] || discriminate. now split. Qed.

Lemma reading_going {A} (m : Run string A) w w1 :
  reading m w = Going w1 -> sys w1 = sys w.
Proof. destruct m; simpl; intros [= <-] || discriminate. reflexivity. Qed.

Lemma reading_fault {A} (m : Run string A) w w1 :
  reading m w = Fault w1 -> exists st, m = Fault st.
Proof. destruct m; simpl; try discriminate. intros _. now eexists. Qed.

Lemma reading_int_ok {A} fuel min max w (k : Z -> World -> Run World A) :
  session_ledger files (sys w) ->
  (forall v w1, (min <= v <= max)%Z -> sys w1 = sys w ->
                session_ok files (k v w1)) ->
  session_ok files
    (match reading (getIntInput fuel min max (cin w)) w with
     | Done v w1 => k v w1
     | Going w1 => Going w1
     | Fault w1 => Fault w1
     end).
Proof.
  intros Hs Hk.
  destruct (reading (getIntInput fuel min max (cin w)) w)
    as [v w1 | w1 | w1] eqn:E.
  - apply reading_done in E. destruct E as [E Hw].
    apply getIntInput_done in E. apply Hk; [tauto | exact Hw].
  - apply reading_going in E. simpl. now rewrite E.
  - apply reading_fault in E. destruct E as [st E].
    now apply getIntInput_no_fault in E.
Qed.

Lemma at_index_in_range {A} (v : list A) i :
  (1 <= i <= Z.of_nat (length v))%Z -> at_index v i <> None.
Proof.
  intros H. unfold at_index.
  destruct (Z.ltb_spec i 1) as [Hlt | _]; [lia | ].
  intros N. apply nth_error_None in N. lia.
Qed.

Lemma loadPayFile_session_ok fuel fname w :
  session_ledger files (sys w) ->
  session_ok files (loadPayFile_session files fuel fname w).
Proof.
  intros Hs. unfold loadPayFile_session.
  destruct (StdSet.count _ _).
  - destruct (reading (getYesNoInput fuel (cin w)) w)
      as [c w1 | w1 | w1] eqn:E.
    + apply reading_done in E. destruct E as [_ Hw]. simpl. rewrite Hw.
      now apply session_ledger_load.
    + apply reading_going in E. simpl. now rewrite E.
    + apply reading_fault in E. destruct E as [st E].
      now apply getYesNoInput_no_fault in E.
  - simpl. now apply session_ledger_load.
Qed.

Lemma writeMonthOutput_session_sys month w :
  sys (writeMonthOutput_session files month w) = sys w.
Proof.
  unfold writeMonthOutput_session. now destruct (writeMonthOutput _ _ _).
Qed.

Lemma processPayFileMenu_ok fuel w :
  session_ledger files (sys w) ->
  session_ok files (processPayFileMenu files fuel w).
Proof.
  revert w. induction fuel as [ | fuel IH]; intros w Hs; simpl; [exact Hs | ].
  unfold getStringInput. destruct (getline (cin w)) as [fname cin1].
  destruct (fname =? RETURN)%string; [exact Hs | ].
  pose proof (loadPayFile_session_ok fuel fname (with_cin w cin1) Hs) as Hl.
  destruct (loadPayFile_session files fuel fname (with_cin w cin1))
    as [r w2 | w2 | w2]; simpl in Hl; [ | exact Hl | exact Hl].
  apply IH. destruct (returned r); [ | exact Hl].
  now rewrite writeMonthOutput_session_sys.
Qed.

Lemma viewAllSalaryDetailsMenu_loop_ok fuel w :
  session_ledger files (sys w) ->
  session_ok files (viewAllSalaryDetailsMenu_loop fuel w).
Proof.
  revert w. induction fuel as [ | fuel IH]; intros w Hs; simpl; [exact Hs | ].
  apply reading_int_ok; [exact Hs | ].
  intros idx w1 Hidx Hw. unfold viewAllSalaryDetails_select.
  destruct (Z.eqb_spec idx 0) as [-> | Hne]; [simpl; now rewrite Hw | ].
  rewrite Hw.
  pose proof (at_index_in_range (processedMonths (sys w)) idx ltac:(lia)) as N.
  destruct (at_index (processedMonths (sys w)) idx) as [month | ];
    [ | contradiction].
  apply IH. now rewrite Hw.
Qed.

Lemma viewAllSalaryDetailsMenu_ok fuel w :
  session_ledger files (sys w) ->
  session_ok files (viewAllSalaryDetailsMenu fuel w).
Proof.
  intros Hs. unfold viewAllSalaryDetailsMenu.
  destruct (processedMonths (sys w)); [exact Hs | ].
  now apply viewAllSalaryDetailsMenu_loop_ok.
Qed.

Lemma showEmployeeBreakdown_in_bounds sel s :
  showEmployeeBreakdown sel s <> OutOfBounds.
Proof.
  unfold showEmployeeBreakdown.
  destruct ((sel <=? 0) || (sel >? Z.of_nat (length (idList s))))%Z eqn:G;
    [discriminate | ].
  apply orb_false_iff in G. destruct G as [G1 G2].
  apply Z.leb_gt in G1. rewrite Z.gtb_ltb in G2. apply Z.ltb_ge in G2.
  pose proof (at_index_in_range (idList s) sel ltac:(lia)) as N.
  destruct (at_index (idList s) sel); [discriminate | contradiction].
Qed.

Lemma find_listed_key {V} (m : StdMap.t V) k :
  In k (map fst m) -> StdMap.find k m <> None.
Proof.
  induction m as [ | [k' v'] r IH]; simpl; [intros [] | ].
  intros [E | Hin].
  - subst k'. now rewrite String.eqb_refl.
  - destruct (k =? k')%string; [discriminate | now apply IH].
Qed.

(** [showEmployeeTotals] reads no vector out of bounds and, although it
    reads the registry with [employees[...]], files nothing. *)
Lemma showEmployeeTotals_ledger sel s :
  fst (showEmployeeTotals sel s) <> OutOfBounds /\
  snd (showEmployeeTotals sel s) = s.
Proof.
  unfold showEmployeeTotals.
  destruct ((sel <=? 0) || (sel >? Z.of_nat (length (idList s))))%Z eqn:G;
    [split; [discriminate | reflexivity] | ].
  apply orb_false_iff in G. destruct G as [G1 G2].
  apply Z.leb_gt in G1. rewrite Z.gtb_ltb in G2. apply Z.ltb_ge in G2.
  pose proof (at_index_in_range (idList s) sel ltac:(lia)) as N.
  destruct (at_index (idList s) sel) as [k | ] eqn:A; [ | contradiction].
  assert (Hin : In k (idList s)).
  { unfold at_index in A. destruct (sel <? 1)%Z; [discriminate | ].
    now apply nth_error_In in A. }
  pose proof (find_listed_key (employees s) k Hin) as F.
  unfold subscript. destruct (StdMap.find k (employees s)) as [e | ];
    [ | contradiction].
  simpl. split; [discriminate | apply with_employees_same].
Qed.

Lemma showEmployeeBreakdown_session_ok fuel w :
  session_ledger files (sys w) ->
  session_ok files (showEmployeeBreakdown_session fuel w).
Proof.
  intros Hs. unfold showEmployeeBreakdown_session.
  apply reading_int_ok; [exact Hs | ].
  intros sel w1 _ Hw.
  pose proof (showEmployeeBreakdown_in_bounds sel (sys w1)) as B.
  destruct (showEmployeeBreakdown sel (sys w1)); simpl;
    [now rewrite Hw | contradiction | now rewrite Hw].
Qed.

Lemma showEmployeeTotals_session_ok fuel w :
  session_ledger files (sys w) ->
  session_ok files (showEmployeeTotals_session fuel w).
Proof.
  intros Hs. unfold showEmployeeTotals_session.
  apply reading_int_ok; [exact Hs | ].
  intros sel w1 _ Hw.
  destruct (showEmployeeTotals_ledger sel (sys w1)) as [B L].
  destruct (showEmployeeTotals sel (sys w1)) as [o s']. simpl in B, L.
  subst s'. destruct o; simpl; [now rewrite Hw | contradiction | now rewrite Hw].
Qed.

Lemma sortEmployeesMenu_session_ok fuel w :
  session_ledger files (sys w) ->
  session_ok files (sortEmployeesMenu_session fuel w).
Proof.
  intros Hs. unfold sortEmployeesMenu_session.
  destruct (processedMonths (sys w)) as [ | m0 ms] eqn:P; [exact Hs | ].
  rewrite <- P.
  apply reading_int_ok; [exact Hs | ].
  intros idx w1 Hidx Hw.
  destruct ((idx =? 0) || (idx >? Z.of_nat (length (processedMonths (sys w)))))%Z
    eqn:G; [simpl; now rewrite Hw | ].
  apply orb_false_iff in G. destruct G as [G1 G2].
  apply Z.eqb_neq in G1.
  rewrite Hw.
  pose proof (at_index_in_range (processedMonths (sys w)) idx ltac:(lia)) as N.
  destruct (at_index (processedMonths (sys w)) idx) as [month | ];
    [ | contradiction].
  apply reading_int_ok; [now rewrite Hw | ].
  intros crit w2 _ Hw2. simpl. now rewrite Hw2, Hw.
Qed.

Lemma run_loop_ok fuel w :
  session_ledger files (sys w) ->
  session_ok files (run_loop files fuel w).
Proof.
  revert w. induction fuel as [ | fuel IH]; intros w Hs; simpl; [exact Hs | ].
  apply reading_int_ok; [exact Hs | ].
  intros choice w1 _ Hw. rewrite <- Hw in Hs.
  assert (Hentry :
    session_ok files
      (if (choice =? Menu.PROCESS_PAY_FILE)%Z
       then processPayFileMenu files fuel w1
       else if (choice =? Menu.VIEW_ALL_SALARY)%Z
       then viewAllSalaryDetailsMenu fuel w1
       else if (choice =? Menu.VIEW_INDIVIDUAL)%Z
       then showEmployeeBreakdown_session fuel w1
       else if (choice =? Menu.SORT_EMPLOYEES)%Z
       then sortEmployeesMenu_session fuel w1
       else if (choice =? Menu.VIEW_EMPLOYEE_TOTALS)%Z
       then showEmployeeTotals_session fuel w1
       else Done tt w1)).
  { destruct (choice =? Menu.PROCESS_PAY_FILE)%Z;
      [now apply processPayFileMenu_ok | ].
    destruct (choice =? Menu.VIEW_ALL_SALARY)%Z;
      [now apply viewAllSalaryDetailsMenu_ok | ].
    destruct (choice =? Menu.VIEW_INDIVIDUAL)%Z;
      [now apply showEmployeeBreakdown_session_ok | ].
    destruct (choice =? Menu.SORT_EMPLOYEES)%Z;
      [now apply sortEmployeesMenu_session_ok | ].
    destruct (choice =? Menu.VIEW_EMPLOYEE_TOTALS)%Z;
      [now apply showEmployeeTotals_session_ok | exact Hs]. }
  destruct (if (choice =? Menu.PROCESS_PAY_FILE)%Z then _ else _)
    as [u w2 | w2 | w2]; simpl in Hentry; [ | exact Hentry | exact Hentry].
  destruct (choice =? Menu.QUIT)%Z; [exact Hentry | now apply IH].
Qed.

Lemma run_ok fuel input : session_ok files (run files fuel input).
Proof.
  unfold run.
  assert (Hs : session_ledger files
                 (snd (loadEmployees (employees_file files) newPayrollSystem))).
  { exists []. split; reflexivity. }
  destruct (loadEmployees (employees_file files) newPayrollSystem)
    as [ok s]. simpl in Hs.
  destruct ok; [now apply run_loop_ok | exact Hs].
Qed.

Lemma session_ledger_consistent s :
  session_ledger files s ->
  (exists ops, forallb uses_default_replace ops = true /\
               s = perform_all ops newPayrollSystem) /\
  registry_view (employees s) =
    registry_view
      (employees (snd (loadEmployees (employees_file files)
                         newPayrollSystem))) /\
  months_invariant s /\ well_formed s.
Proof.
  intros (ops & Hd & ->).
  assert (Hd' : forallb uses_default_replace
                  (OpLoadEmployees (employees_file files) :: ops) = true).
  { simpl. now apply loads_pay_file_default. }
  split; [eexists; split; [exact Hd' | reflexivity] | ]. split; [ | split].
  - simpl. now apply registry_view_pay_files.
  - apply months_invariant_perform_all;
      [exact Hd' | exact months_invariant_new].
  - apply reachable_well_formed. now eexists.
Qed.
End SessionFacts.

(** X14.  A whole session.  Whatever the files hold, whatever is typed
    and however long the program has run, whether it has returned or is
    still going: no vector has been read out of bounds (the selections
    that [getIntInput] returns fit the lists they index); the ledger is
    what [loadEmployees] followed by calls of [loadPayFile] with
    [replace] at its default gives, so that the registry is the one read
    from employees.txt at the start (same identifiers, names and rates),
    the processed months are the loaded months without repetition, the
    hours are those of processed months, the error buffer is empty and
    the containers are well formed. *)
Theorem run_keeps_the_ledger_consistent :
  forall files fuel input,
    match run files fuel input with
    | Fault _ => False
    | Done _ w | Going w =>
        (exists ops, forallb uses_default_replace ops = true /\
                     sys w = perform_all ops newPayrollSystem) /\
        registry_view (employees (sys w)) =
          registry_view
            (employees (snd (loadEmployees (employees_file files)
                               newPayrollSystem))) /\
        months_invariant (sys w) /\ well_formed (sys w)
    end.
Proof.
  intros files fuel input. pose proof (run_ok files fuel input) as H.
  destruct (run files fuel input) as [u w | w | w]; simpl in H;
    [ | | exact H]; now apply session_ledger_consistent.
Qed.

Lemma run_at_sample_session :
  match run sample_files 12 sample_input with
  | Done _ w =>
      cin w = typed ["left over"%string] /\
      processedMonths (sys w) = ["JAN25"%string] /\
      months_invariant (sys w) /\ well_formed (sys w)
  | _ => False
  end.
Proof.
  pose proof (run_keeps_the_ledger_consistent sample_files 12 sample_input)
    as H.
  destruct (run sample_files 12 sample_input) as [u w | w | w] eqn:E.
  - destruct H as (_ & _ & Hm & Hw).
    vm_compute in E. injection E as _ Ew. subst w.
    split; [reflexivity | ]. split; [reflexivity | ]. split; assumption.
  - vm_compute in E. discriminate E.
  - exact H.
Defined.

(** ** Termination of the session *)

Section Settling.
Context {St : Type} (size : St -> nat).

Lemma settles_le {A} d n1 n (m : nat -> Run St A) :
  n1 <= n -> settles size d n1 m -> settles size d n m.
Proof.
  intros Hle H fuel. specialize (H fuel).
  destruct (m fuel) as [a st' | st' | st']; [ | | exact H].
  - destruct H as [H1 H2]. split; [lia | exact H2].
  - destruct H as [H1 H2]. split; [lia | ]. intros Hc. apply H2. lia.
Qed.

Lemma settles_weaken {A} d d' n (m : nat -> Run St A) :
  d <= d' -> settles size d n m -> settles size d' n m.
Proof.
  intros Hle H fuel. specialize (H fuel).
  destruct (m fuel) as [a st' | st' | st']; [exact H | | exact H].
  destruct H as [H1 H2]. split; [exact H1 | ]. intros Hc. apply H2. lia.
Qed.

Lemma settles_shrink {A} d n1 n (m : nat -> Run St A) :
  n1 < n -> settles size (S d) n1 m -> settles size d n m.
Proof.
  intros Hlt H fuel. specialize (H fuel).
  destruct (m fuel) as [a st' | st' | st']; [ | | exact H].
  - destruct H as [H1 H2]. split; [lia | exact H2].
  - destruct H as [H1 H2]. split; [lia | ]. intros Hc. apply H2. lia.
Qed.

Lemma settles_done {A} d n (a : A) (st : St) :
  size st <= n -> settles size d n (fun _ => Done a st).
Proof. intros H fuel. split; [exact H | reflexivity]. Qed.

Lemma settles_eof {A} d n (m : nat -> Run St A) :
  (forall fuel, exists st', m fuel = Going st' /\ size st' = 0) ->
  settles size d n m.
Proof.
  intros H fuel. destruct (H fuel) as (st' & E & Z). rewrite E.
  split; [lia | ]. intros _. split; [exact Z | ].
  intros fuel'. destruct (H fuel') as (st'' & E' & _). now exists st''.
Qed.

Lemma settles_bind {A B} d n (m : nat -> Run St A)
  (k : nat -> A -> St -> Run St B) :
  settles size d n m ->
  (forall f0 a st1, m f0 = Done a st1 -> size st1 <= n ->
                    settles size d n (fun f => k f a st1)) ->
  settles size d n
    (fun f => match m f with
              | Done a st1 => k f a st1
              | Going st1 => Going st1
              | Fault st1 => Fault st1
              end).
Proof.
  intros Hm Hk fuel. pose proof (Hm fuel) as H.
  destruct (m fuel) as [a st1 | st1 | st1] eqn:E; [ | | exact H].
  - destruct H as [Hs Hmono].
    pose proof (Hk fuel a st1 E Hs fuel) as K. cbv beta in K.
    destruct (k fuel a st1) as [b st2 | st2 | st2] eqn:EK; [ | | exact K].
    + destruct K as [Ks Kmono]. split; [exact Ks | ].
      intros fuel' Hle. rewrite (Hmono fuel' Hle). now apply Kmono.
    + destruct K as [Ks Kgo]. split; [exact Ks | ].
      intros Hc. destruct (Kgo Hc) as [Z Kall]. split; [exact Z | ].
      intros fuel'. pose proof (Hm fuel') as H'.
      destruct (m fuel') as [a' st1' | st1' | st1'] eqn:E';
        [ | now eexists | contradiction].
      assert (Esame : Done a' st1' = Done a st1 :> Run St A).
      { destruct (Nat.le_ge_cases fuel fuel') as [Hle | Hle].
        - rewrite <- E'. now apply Hmono.
        - destruct H' as [_ Hmono']. rewrite <- E. symmetry.
          now apply Hmono'. }
      injection Esame as -> ->. apply Kall.
  - destruct H as [Hs Hgo]. split; [exact Hs | ].
    intros Hc. destruct (Hgo Hc) as [Z Hall]. split; [exact Z | ].
    intros fuel'. destruct (Hall fuel') as [st'' ->]. now eexists.
Qed.

Lemma settles_loop {A} d n (st : St) (F b : nat -> Run St A) :
  F 0 = Going st -> size st <= n ->
  (forall f, F (S f) = b f) ->
  (n = 0 -> forall f, exists st', b f = Going st') ->
  settles size d n b ->
  settles size (S d) n F.
Proof.
  intros F0 Hs FS Heof Hb [ | f].
  - rewrite F0. split; [exact Hs | ].
    intros Hc. assert (Hn : n = 0) by lia. split; [lia | ].
    intros [ | f']; [now exists st | ]. rewrite FS. now apply Heof.
  - rewrite FS. pose proof (Hb f) as H.
    destruct (b f) as [a st' | st' | st'] eqn:E; [ | | exact H].
    + destruct H as [H1 H2]. split; [exact H1 | ].
      intros [ | f'] Hle; [lia | ]. rewrite FS. apply H2. lia.
    + destruct H as [H1 H2]. split; [exact H1 | ].
      intros Hc. destruct H2 as [Z Hall]; [lia | ]. split; [exact Z | ].
      intros [ | f']; [now exists st | ]. rewrite FS. apply Hall.
Qed.
End Settling.

Section SessionTermination.
Variable files : Files.
Implicit Types (s : PayrollSystem) (w : World).

Lemma getIntInput_going_length fuel min max cin rest :
  getIntInput fuel min max cin = Going rest ->
  String.length rest <= String.length cin.
Proof.
  revert cin. induction fuel as [ | fuel IH]; intros cin; simpl.
  - now intros [= <-].
  - destruct (extract_int_spec cin) as [L1 _].
    destruct (extract_int cin) as [[val | ] cin1]; simpl in L1.
    + pose proof (ignore_length Limits.CIN_IGNORE_LIMIT cin1) as L3.
      destruct ((val >=? min) && (val <=? max))%Z; [discriminate | ].
      intros H. apply IH in H. lia.
    + pose proof (ignore_line_length cin1) as L3.
      intros H. apply IH in H. lia.
Qed.

Lemma getYesNoInput_going_length fuel cin rest :
  getYesNoInput fuel cin = Going rest ->
  String.length rest <= String.length cin.
Proof.
  revert cin. induction fuel as [ | fuel IH]; intros cin; simpl.
  - now intros [= <-].
  - destruct (extract_char_length cin) as [L1 _].
    destruct (extract_char cin) as [[c0 | ] cin1]; simpl in L1.
    + pose proof (ignore_length Limits.CIN_IGNORE_LIMIT cin1) as L3.
      destruct ((tolower c0 =? Inputs.YES) || (tolower c0 =? Inputs.NO))%char;
        [discriminate | ].
      intros H. apply IH in H. lia.
    + pose proof (ignore_line_length cin1) as L3.
      intros H. apply IH in H. lia.
Qed.

Lemma getIntInput_settles min max c :
  settles String.length 1 (String.length c)
    (fun f => getIntInput f min max c).
Proof.
  intros fuel.
  destruct (getIntInput fuel min max c) as [v rest | rest | st] eqn:E.
  - destruct (getIntInput_done _ _ _ _ _ _ E) as (_ & _ & H).
    split; [lia | ]. intros fuel' Hle.
    now apply (getIntInput_more_fuel fuel).
  - split; [now apply getIntInput_going_length in E | ].
    intros [Hz | Hf].
    + destruct c; [ | discriminate Hz].
      rewrite getIntInput_eof in E. injection E as <-.
      split; [reflexivity | ]. intros fuel'. eexists.
      apply getIntInput_eof.
    + assert (Hl : String.length c < fuel) by lia.
      destruct (getIntInput_going fuel min max c rest Hl E) as [-> H].
      split; [reflexivity | exact H].
  - now apply getIntInput_no_fault in E.
Qed.

Lemma getYesNoInput_settles c :
  settles String.length 1 (String.length c) (fun f => getYesNoInput f c).
Proof.
  intros fuel.
  destruct (getYesNoInput fuel c) as [v rest | rest | st] eqn:E.
  - destruct (getYesNoInput_done _ _ _ _ E) as (_ & H).
    split; [lia | ]. intros fuel' Hle.
    now apply (getYesNoInput_more_fuel fuel).
  - split; [now apply getYesNoInput_going_length in E | ].
    intros [Hz | Hf].
    + destruct c; [ | discriminate Hz].
      rewrite getYesNoInput_eof in E. injection E as <-.
      split; [reflexivity | ]. intros fuel'. eexists.
      apply getYesNoInput_eof.
    + assert (Hl : String.length c < fuel) by lia.
      destruct (getYesNoInput_going fuel c rest Hl E) as [-> H].
      split; [reflexivity | exact H].
  - now apply getYesNoInput_no_fault in E.
Qed.

Lemma reading_settles {A} d n (m : nat -> Run string A) w :
  settles String.length d n m ->
  settles left_to_read d n (fun f => reading (m f) w).
Proof.
  intros H fuel. specialize (H fuel).
  destruct (m fuel) as [a c | c | c] eqn:E; simpl; [ | | exact H].
  - destruct H as [H1 H2]. split; [exact H1 | ].
    intros fuel' Hle. now rewrite (H2 fuel' Hle).
  - destruct H as [H1 H2]. split; [exact H1 | ].
    intros Hc. destruct (H2 Hc) as [Z Hall]. split; [exact Z | ].
    intros fuel'. destruct (Hall fuel') as [c' ->]. now eexists.
Qed.

(** What a selection read within a session is. *)
Lemma reading_int_done fuel min max w v w1 :
  reading (getIntInput fuel min max (cin w)) w = Done v w1 ->
  (min <= v <= max)%Z /\ sys w1 = sys w /\
  left_to_read w1 < left_to_read w.
Proof.
  intros E. apply reading_done in E. destruct E as [E Hw].
  apply getIntInput_done in E. unfold left_to_read. tauto.
Qed.

Lemma loadPayFile_session_settles fname w :
  settles left_to_read 1 (left_to_read w)
    (fun f => loadPayFile_session files f fname w).
Proof.
  unfold loadPayFile_session. cbv zeta.
  destruct (StdSet.count _ _).
  - apply (settles_bind left_to_read 1 (left_to_read w)
             (fun f => reading (getYesNoInput f (cin w)) w)).
    + apply reading_settles, getYesNoInput_settles.
    + intros f0 choice w1 _ Hs. now apply settles_done.
  - now apply settles_done.
Qed.

Lemma writeMonthOutput_session_cin month w :
  cin (writeMonthOutput_session files month w) = cin w.
Proof.
  unfold writeMonthOutput_session. now destruct (writeMonthOutput _ _ _).
Qed.

Lemma processPayFileMenu_eof fuel w :
  cin w = ""%string ->
  exists w', processPayFileMenu files fuel w = Going w' /\
             left_to_read w' = 0.
Proof.
  revert w. induction fuel as [ | fuel IH]; intros w Hc.
  - exists w. split; [reflexivity | ]. unfold left_to_read. now rewrite Hc.
  - simpl. unfold getStringInput. rewrite Hc. simpl.
    pose proof (loadPayFile_session_settles ""%string
                  (with_cin w ""%string) fuel) as H.
    cbv beta in H.
    destruct (loadPayFile_session files fuel "" (with_cin w ""))
      as [r w2 | w2 | w2]; [ | | contradiction].
    + destruct H as [H _]. apply IH.
      assert (Hw2 : cin w2 = ""%string).
      { unfold left_to_read in H. simpl in H.
        destruct (cin w2); [reflexivity | simpl in H; lia]. }
      destruct (returned r); [ | exact Hw2].
      now rewrite writeMonthOutput_session_cin.
    + destruct H as [H _]. exists w2. split; [reflexivity | ].
      unfold left_to_read in *. simpl in H. lia.
Qed.

Lemma processPayFileMenu_settles w :
  settles left_to_read 1 (left_to_read w)
    (fun f => processPayFileMenu files f w).
Proof.
  remember (left_to_read w) as n eqn:Hn. revert w Hn.
  induction n as [n IH] using lt_wf_ind. intros w Hn.
  destruct n as [ | n'].
  - apply settles_eof. intros fuel. apply processPayFileMenu_eof.
    unfold left_to_read in Hn. now destruct (cin w).
  - apply (settles_loop left_to_read 0 (S n') w _
             (fun f =>
                let '(fname, cin1) := getStringInput (cin w) in
                let w1 := with_cin w cin1 in
                if (fname =? RETURN)%string then Done tt w1
                else
                  match loadPayFile_session files f fname w1 with
                  | Done r w2 =>
                      processPayFileMenu files f
                        (if returned r
                         then writeMonthOutput_session files (outMonth r) w2
                         else w2)
                  | Going w2 => Going w2
                  | Fault w2 => Fault w2
                  end)).
    + reflexivity.
    + lia.
    + reflexivity.
    + discriminate.
    + unfold getStringInput. pose proof (getline_length (cin w)) as L.
      destruct (getline (cin w)) as [fname cin1]. simpl in L. cbv zeta.
      unfold left_to_read in Hn.
      assert (Hlt : left_to_read (with_cin w cin1) < S n')
        by (unfold left_to_read; simpl; lia).
      destruct (fname =? RETURN)%string; [apply settles_done; lia | ].
      apply (settles_shrink left_to_read 0
               (left_to_read (with_cin w cin1)) (S n')); [exact Hlt | ].
      apply (settles_bind left_to_read 1 (left_to_read (with_cin w cin1))
               (fun f => loadPayFile_session files f fname (with_cin w cin1))
               (fun f r w2 =>
                  processPayFileMenu files f
                    (if returned r
                     then writeMonthOutput_session files (outMonth r) w2
                     else w2))).
      * apply loadPayFile_session_settles.
      * intros f0 r w2 _ Hs.
        set (w3 := if returned r
                   then writeMonthOutput_session files (outMonth r) w2
                   else w2).
        assert (H3 : left_to_read w3 = left_to_read w2).
        { unfold w3, left_to_read. destruct (returned r); [ | reflexivity].
          now rewrite writeMonthOutput_session_cin. }
        apply (settles_le left_to_read 1 (left_to_read w3)); [lia | ].
        apply (IH (left_to_read w3)); [lia | reflexivity].
Qed.

Lemma viewAllSalaryDetailsMenu_loop_settles w :
  settles left_to_read 2 (left_to_read w)
    (fun f => viewAllSalaryDetailsMenu_loop f w).
Proof.
  remember (left_to_read w) as n eqn:Hn. revert w Hn.
  induction n as [n IH] using lt_wf_ind. intros w Hn.
  apply (settles_loop left_to_read 1 n w _
           (fun f =>
              match reading
                      (getIntInput f 0
                         (Z.of_nat (length (processedMonths (sys w))))
                         (cin w)) w with
              | Done idx w1 =>
                  match viewAllSalaryDetails_select idx (sys w1) with
                  | Back => Done tt w1
                  | Report _ => viewAllSalaryDetailsMenu_loop f w1
                  | OutOfBounds => Fault w1
                  end
              | Going w1 => Going w1
              | Fault w1 => Fault w1
              end)).
  - reflexivity.
  - lia.
  - reflexivity.
  - intros Hz f. unfold left_to_read in Hn.
    destruct (cin w); [ | simpl in Hn; lia].
    rewrite getIntInput_eof. now eexists.
  - apply (settles_bind left_to_read 1 n
             (fun f => reading
                         (getIntInput f 0
                            (Z.of_nat (length (processedMonths (sys w))))
                            (cin w)) w)
             (fun f idx w1 =>
                match viewAllSalaryDetails_select idx (sys w1) with
                | Back => Done tt w1
                | Report _ => viewAllSalaryDetailsMenu_loop f w1
                | OutOfBounds => Fault w1
                end)).
    + subst n. apply reading_settles, getIntInput_settles.
    + intros f0 idx w1 E Hs. apply reading_int_done in E.
      destruct E as (Hidx & Hw & Hlt).
      unfold viewAllSalaryDetails_select.
      destruct (Z.eqb_spec idx 0) as [-> | Hne]; [now apply settles_done | ].
      rewrite Hw.
      pose proof (at_index_in_range (processedMonths (sys w)) idx
                    ltac:(lia)) as N.
      destruct (at_index (processedMonths (sys w)) idx) as [month | ];
        [ | contradiction].
      apply (settles_shrink left_to_read 1 (left_to_read w1) n); [lia | ].
      apply (IH (left_to_read w1)); [lia | reflexivity].
Qed.

Lemma viewAllSalaryDetailsMenu_settles w :
  settles left_to_read 2 (left_to_read w)
    (fun f => viewAllSalaryDetailsMenu f w).
Proof.
  unfold viewAllSalaryDetailsMenu.
  destruct (processedMonths (sys w)); [now apply settles_done | ].
  apply viewAllSalaryDetailsMenu_loop_settles.
Qed.

Lemma showEmployeeBreakdown_session_settles w :
  settles left_to_read 1 (left_to_read w)
    (fun f => showEmployeeBreakdown_session f w).
Proof.
  unfold showEmployeeBreakdown_session.
  apply (settles_bind left_to_read 1 (left_to_read w)
           (fun f => reading
                       (getIntInput f 0 (Z.of_nat (length (idList (sys w))))
                          (cin w)) w)
           (fun f sel w1 =>
              match showEmployeeBreakdown sel (sys w1) with
              | OutOfBounds => Fault w1
              | _ => Done tt w1
              end)).
  - apply reading_settles, getIntInput_settles.
  - intros f0 sel w1 _ Hs.
    pose proof (showEmployeeBreakdown_in_bounds sel (sys w1)) as B.
    destruct (showEmployeeBreakdown sel (sys w1));
      [now apply settles_done | contradiction | now apply settles_done].
Qed.

Lemma showEmployeeTotals_session_settles w :
  settles left_to_read 1 (left_to_read w)
    (fun f => showEmployeeTotals_session f w).
Proof.
  unfold showEmployeeTotals_session.
  apply (settles_bind left_to_read 1 (left_to_read w)
           (fun f => reading
                       (getIntInput f 0 (Z.of_nat (length (idList (sys w))))
                          (cin w)) w)
           (fun f sel w1 =>
              match showEmployeeTotals sel (sys w1) with
              | (OutOfBounds, _) => Fault w1
              | (_, s) => Done tt (with_sys w1 s)
              end)).
  - apply reading_settles, getIntInput_settles.
  - intros f0 sel w1 _ Hs.
    destruct (showEmployeeTotals_ledger sel (sys w1)) as [B _].
    destruct (showEmployeeTotals sel (sys w1)) as [o s']. simpl in B.
    destruct o; [now apply settles_done | contradiction
                | now apply settles_done].
Qed.

Lemma sortEmployeesMenu_session_settles w :
  settles left_to_read 1 (left_to_read w)
    (fun f => sortEmployeesMenu_session f w).
Proof.
  unfold sortEmployeesMenu_session.
  destruct (processedMonths (sys w)) as [ | m0 ms] eqn:P;
    [now apply settles_done | ].
  rewrite <- P. cbv zeta.
  apply (settles_bind left_to_read 1 (left_to_read w)
           (fun f => reading
                       (getIntInput f 0
                          (Z.of_nat (length (processedMonths (sys w))))
                          (cin w)) w)
           (fun f idx w1 =>
              if ((idx =? 0)
                  || (idx >? Z.of_nat (length (processedMonths (sys w)))))%Z
              then Done tt w1
              else
                match at_index (processedMonths (sys w1)) idx with
                | None => Fault w1
                | Some month =>
                    match reading
                            (getIntInput f Payroll.SORT_HOURLY_RATE
                               Payroll.SORT_NET_PAY (cin w1)) w1 with
                    | Done crit w2 => Done tt w2
                    | Going w2 => Going w2
                    | Fault w2 => Fault w2
                    end
                end)).
  - apply reading_settles, getIntInput_settles.
  - intros f0 idx w1 E Hs. apply reading_int_done in E.
    destruct E as (Hidx & Hw & Hlt).
    destruct ((idx =? 0)
              || (idx >? Z.of_nat (length (processedMonths (sys w)))))%Z
      eqn:G; [now apply settles_done | ].
    apply orb_false_iff in G. destruct G as [G1 G2].
    apply Z.eqb_neq in G1. rewrite Hw.
    pose proof (at_index_in_range (processedMonths (sys w)) idx
                  ltac:(lia)) as N.
    destruct (at_index (processedMonths (sys w)) idx) as [month | ];
      [ | contradiction].
    apply (settles_le left_to_read 1 (left_to_read w1)); [lia | ].
    apply (settles_bind left_to_read 1 (left_to_read w1)
             (fun f => reading
                         (getIntInput f Payroll.SORT_HOURLY_RATE
                            Payroll.SORT_NET_PAY (cin w1)) w1)
             (fun f crit w2 => Done tt w2)).
    + apply reading_settles, getIntInput_settles.
    + intros f1 crit w2 _ Hs2. now apply settles_done.
Qed.

Lemma run_loop_settles w :
  settles left_to_read 2 (left_to_read w) (fun f => run_loop files f w).
Proof.
  remember (left_to_read w) as n eqn:Hn. revert w Hn.
  induction n as [n IH] using lt_wf_ind. intros w Hn.
  set (entry := fun (f : nat) (choice : Z) (w1 : World) =>
         if (choice =? Menu.PROCESS_PAY_FILE)%Z
         then processPayFileMenu files f w1
         else if (choice =? Menu.VIEW_ALL_SALARY)%Z
         then viewAllSalaryDetailsMenu f w1
         else if (choice =? Menu.VIEW_INDIVIDUAL)%Z
         then showEmployeeBreakdown_session f w1
         else if (choice =? Menu.SORT_EMPLOYEES)%Z
         then sortEmployeesMenu_session f w1
         else if (choice =? Menu.VIEW_EMPLOYEE_TOTALS)%Z
         then showEmployeeTotals_session f w1
         else Done tt w1).
  assert (Hentry : forall choice w1,
             settles left_to_read 2 (left_to_read w1)
               (fun f => entry f choice w1)).
  { intros choice w1. unfold entry.
    destruct (choice =? Menu.PROCESS_PAY_FILE)%Z.
    { apply (settles_weaken left_to_read 1); [lia | ].
      apply processPayFileMenu_settles. }
    destruct (choice =? Menu.VIEW_ALL_SALARY)%Z;
      [apply viewAllSalaryDetailsMenu_settles | ].
    destruct (choice =? Menu.VIEW_INDIVIDUAL)%Z.
    { apply (settles_weaken left_to_read 1); [lia | ].
      apply showEmployeeBreakdown_session_settles. }
    destruct (choice =? Menu.SORT_EMPLOYEES)%Z.
    { apply (settles_weaken left_to_read 1); [lia | ].
      apply sortEmployeesMenu_session_settles. }
    destruct (choice =? Menu.VIEW_EMPLOYEE_TOTALS)%Z.
    { apply (settles_weaken left_to_read 1); [lia | ].
      apply showEmployeeTotals_session_settles. }
    now apply settles_done. }
  apply (settles_loop left_to_read 1 n w _
           (fun f =>
              match reading
                      (getIntInput f Menu.QUIT Menu.VIEW_EMPLOYEE_TOTALS
                         (cin w)) w with
              | Done choice w1 =>
                  match entry f choice w1 with
                  | Done _ w2 =>
                      if (choice =? Menu.QUIT)%Z then Done tt w2
                      else run_loop files f w2
                  | Going w2 => Going w2
                  | Fault w2 => Fault w2
                  end
              | Going w1 => Going w1
              | Fault w1 => Fault w1
              end)).
  - reflexivity.
  - lia.
  - reflexivity.
  - intros Hz f. unfold left_to_read in Hn.
    destruct (cin w); [ | simpl in Hn; lia].
    rewrite getIntInput_eof. now eexists.
  - apply (settles_bind left_to_read 1 n
             (fun f => reading
                         (getIntInput f Menu.QUIT Menu.VIEW_EMPLOYEE_TOTALS
                            (cin w)) w)
             (fun f choice w1 =>
                match entry f choice w1 with
                | Done _ w2 =>
                    if (choice =? Menu.QUIT)%Z then Done tt w2
                    else run_loop files f w2
                | Going w2 => Going w2
                | Fault w2 => Fault w2
                end)).
    + subst n. apply reading_settles, getIntInput_settles.
    + intros f0 choice w1 E Hs. apply reading_int_done in E.
      destruct E as (_ & _ & Hlt).
      apply (settles_shrink left_to_read 1 (left_to_read w1) n); [lia | ].
      apply (settles_bind left_to_read 2 (left_to_read w1)
               (fun f => entry f choice w1)
               (fun f _ w2 =>
                  if (choice =? Menu.QUIT)%Z then Done tt w2
                  else run_loop files f w2)).
      * apply Hentry.
      * intros f1 u w2 _ Hs2.
        destruct (choice =? Menu.QUIT)%Z; [now apply settles_done | ].
        apply (settles_le left_to_read 2 (left_to_read w2)); [lia | ].
        apply (IH (left_to_read w2)); [lia | reflexivity].
Qed.

Lemma run_settles input :
  settles left_to_read 2 (String.length input)
    (fun f => run files f input).
Proof.
  unfold run.
  destruct (loadEmployees (employees_file files) newPayrollSystem) as [ok s].
  destruct ok.
  - apply (run_loop_settles (mkWorld input s 0 [] [])).
  - apply settles_done. unfold left_to_read. simpl. lia.
Qed.
End SessionTermination.

(** X15.  When a session ends.  [run] reads no vector out of bounds.
    Once it has returned, giving it more turns changes nothing.  When it
    has not returned after two more turns of its loops than the input has
    characters, the input is exhausted and it never returns: every turn
    of every loop reads some input, so the program stops only when Quit
    is chosen (or employees.txt cannot be opened), and at the end of the
    input it goes on for ever instead of stopping. *)
Theorem run_stops_only_on_quit :
  forall files fuel input,
    match run files fuel input with
    | Done u w =>
        String.length (cin w) <= String.length input /\
        (forall fuel', fuel <= fuel' -> run files fuel' input = Done u w)
    | Going w =>
        String.length input + 2 <= fuel ->
        cin w = ""%string /\
        (forall fuel', exists w', run files fuel' input = Going w')
    | Fault _ => False
    end.
Proof.
  intros files fuel input. pose proof (run_settles files input fuel) as H.
  cbv beta in H.
  destruct (run files fuel input) as [u w | w | w]; [exact H | | exact H].
  destruct H as [_ H]. intros Hf. destruct H as [Z Hall]; [now right | ].
  split; [ | exact Hall]. unfold left_to_read in Z. now destruct (cin w).
Qed.

Lemma run_stops_at_sample_session :
  (exists w, run sample_files 12 sample_input = Done tt w /\
             run sample_files 100 sample_input = Done tt w) /\
  (exists w, run sample_files 100 (typed ["1"; "jan25.txt"]%string)
             = Going w /\ cin w = ""%string).
Proof.
  split.
  - pose proof (run_stops_only_on_quit sample_files 12 sample_input) as H.
    destruct (run sample_files 12 sample_input) as [[] w | w | w] eqn:E.
    + exists w. split; [reflexivity | ]. destruct H as [_ H]. apply H. lia.
    + vm_compute in E. discriminate E.
    + contradiction.
  - pose proof (run_stops_only_on_quit sample_files 100
                  (typed ["1"; "jan25.txt"]%string)) as H.
    destruct (run sample_files 100 (typed ["1"; "jan25.txt"]%string))
      as [u w | w | w] eqn:E.
    + vm_compute in E. discriminate E.
    + exists w. split; [reflexivity | ]. apply H. vm_compute. lia.
    + contradiction.
Defined.
